(** * swift-storage-boot: the LUKS manager and the boot-time mount pass

    A shallow embedding of the LUKS manager (OpenLUKS, CloseLUKS, ScanLUKSMappings,
    getBackingDevicePath, CheckLUKS, FormatLUKSIfRequired) and of the mount
    pass of [main.go], with the properties of the specification stated over
    it.

    Go strings are byte strings ([string]); a Go [map[string]string] is a
    [gmap string string] read with Go's zero-value default; a method with a
    pointer receiver [d *Drive] takes the drive and returns the updated
    drive; the process-wide effects (the log, external commands, process
    exit) are threaded through a small state-and-exit monad. *)

From Stdlib Require Import ZArith Ascii String List Bool Lia.
From stdpp Require Import base option list strings gmap fin_maps pretty.

Local Open Scope string_scope.
Local Open Scope list_scope.

(** ** Bytes and the string helpers of Go's standard library *)

Module GoStrings.

(** The line feed, Go's ["\n"]. *)
Definition LF : string := String (ascii_of_nat 10) EmptyString.

(** [unicode.IsSpace] on the ASCII range: tab, line feed, vertical tab,
    form feed, carriage return and space. Bytes from 0x80 on are taken as
    non-space: the output of [dmsetup] and [cryptsetup] is ASCII. *)
Definition isSpace (c : ascii) : bool :=
  let n := nat_of_ascii c in
  ((9 <=? n)%nat && (n <=? 13)%nat) || (n =? 32)%nat.

(** The class [\s] of Go's [regexp] (RE2 syntax): [[\t\n\f\r ]], which
    leaves the vertical tab out. *)
Definition rxSpace (c : ascii) : bool :=
  let n := nat_of_ascii c in
  (n =? 9)%nat || (n =? 10)%nat || (n =? 12)%nat || (n =? 13)%nat || (n =? 32)%nat.

Definition isLF (c : ascii) : bool := (nat_of_ascii c =? 10)%nat.

Fixpoint dropWhile (p : ascii -> bool) (s : string) : string :=
  match s with
  | EmptyString => EmptyString
  | String c s' => if p c then dropWhile p s' else s
  end.

Fixpoint takeWhile (p : ascii -> bool) (s : string) : string :=
  match s with
  | EmptyString => EmptyString
  | String c s' => if p c then String c (takeWhile p s') else EmptyString
  end.

Fixpoint rev_acc (s acc : string) : string :=
  match s with
  | EmptyString => acc
  | String c s' => rev_acc s' (String c acc)
  end.

Definition rev (s : string) : string := rev_acc s EmptyString.

(** [strings.TrimSpace]: leading and trailing white space removed. *)
Definition TrimSpace (s : string) : string :=
  rev (dropWhile isSpace (rev (dropWhile isSpace s))).

(** [strings.Split(s, "\n")]: one more piece than there are line feeds. *)
Fixpoint SplitLF (s : string) : list string :=
  match s with
  | EmptyString => [EmptyString]
  | String c s' =>
      if isLF c then EmptyString :: SplitLF s'
      else match SplitLF s' with
           | [] => [String c EmptyString]
           | l :: ls => String c l :: ls
           end
  end.

(** [strings.Fields]: the maximal runs of non-space bytes, in order.
    [cur] is the field being read, reversed; [None] between fields. *)
Fixpoint fields_go (s : string) (cur : option string) : list string :=
  match s with
  | EmptyString =>
      match cur with Some f => [rev f] | None => [] end
  | String c s' =>
      if isSpace c then
        match cur with
        | Some f => rev f :: fields_go s' None
        | None => fields_go s' None
        end
      else
        match cur with
        | Some f => fields_go s' (Some (String c f))
        | None => fields_go s' (Some (String c EmptyString))
        end
  end.

Definition Fields (s : string) : list string := fields_go s None.

Definition isSlash (c : ascii) : bool := (nat_of_ascii c =? 47)%nat.

(** [filepath.Base] on Linux: ["."] for the empty path, trailing slashes
    stripped, then the part after the last slash, and ["/"] when nothing
    is left. The last element is read off the reversed path. *)
Definition Base (path : string) : string :=
  match path with
  | EmptyString => "."
  | _ =>
      let r := dropWhile isSlash (rev path) in
      let e := rev (takeWhile (fun c => negb (isSlash c)) r) in
      match e with
      | EmptyString => "/"
      | _ => e
      end
  end.

(** Whether every byte of [s] satisfies [p]. *)
Fixpoint allChars (p : ascii -> bool) (s : string) : bool :=
  match s with
  | EmptyString => true
  | String c s' => p c && allChars p s'
  end.

(** Substring test, used to say that a message names a path. *)
Fixpoint isPrefix (p s : string) : bool :=
  match p, s with
  | EmptyString, _ => true
  | String a p', String b s' => if Ascii.eqb a b then isPrefix p' s' else false
  | String _ _, EmptyString => false
  end.

Fixpoint Contains (s sub : string) : bool :=
  isPrefix sub s ||
  match s with
  | EmptyString => false
  | String _ s' => Contains s' sub
  end.

End GoStrings.
Import GoStrings.

(** ** Go's [regexp], as far as [backingDeviceRx] needs it

    A pattern is a sequence of items; the matcher backtracks with the
    preferences of Go's leftmost-first semantics: a greedy repetition tries
    the longest run first and gives bytes back one at a time. *)

Module Regexp.

Inductive Item : Type :=
| Bol                                  (* [^] under the flag [(?m)] *)
| Eol                                  (* [$] under the flag [(?m)] *)
| Star (cls : ascii -> bool)           (* [c*], greedy *)
| GroupPlus (cls : ascii -> bool)      (* [(c+)], greedy, capturing *)
| Lit (s : string).

(** [prev] is the byte before the current position, [None] at the start
    of the text. *)
Definition at_bol (prev : option ascii) : bool :=
  match prev with
  | None => true
  | Some c => isLF c
  end.

Definition at_eol (s : string) : bool :=
  match s with
  | EmptyString => true
  | String c _ => isLF c
  end.

Fixpoint strip_lit (l : string) (prev : option ascii) (s : string)
  : option (option ascii * string) :=
  match l with
  | EmptyString => Some (prev, s)
  | String a l' =>
      match s with
      | String b s' => if Ascii.eqb a b then strip_lit l' (Some b) s' else None
      | EmptyString => None
      end
  end.

(** The result of a match from a fixed start: the capture group, if it
    took part, and the text left after the match. *)
Definition Matched : Type := option string * string.

Fixpoint match_here (items : list Item)
  : option ascii -> string -> option string -> option Matched :=
  match items with
  | [] => fun _ s cap => Some (cap, s)
  | it :: rest =>
      let k := match_here rest in
      match it with
      | Bol => fun prev s cap => if at_bol prev then k prev s cap else None
      | Eol => fun prev s cap => if at_eol s then k prev s cap else None
      | Lit l => fun prev s cap =>
          match strip_lit l prev s with
          | Some (prev', s') => k prev' s' cap
          | None => None
          end
      | Star cls =>
          fix star (prev : option ascii) (s : string) (cap : option string)
            : option Matched :=
            match s with
            | String c s' =>
                if cls c then
                  match star (Some c) s' cap with
                  | Some r => Some r
                  | None => k prev s cap
                  end
                else k prev s cap
            | EmptyString => k prev s cap
            end
      | GroupPlus cls => fun prev s _ =>
          match s with
          | String c0 s0 =>
              if cls c0 then
                (fix plus (prev : option ascii) (s : string) (acc : string)
                   : option Matched :=
                   match s with
                   | String c s' =>
                       if cls c then
                         match plus (Some c) s' (String c acc) with
                         | Some r => Some r
                         | None => k prev s (Some (rev acc))
                         end
                       else k prev s (Some (rev acc))
                   | EmptyString => k prev s (Some (rev acc))
                   end) (Some c0) s0 (String c0 EmptyString)
              else None
          | EmptyString => None
          end
      end
  end.

(** The text matched: what [s] has in front of [rest]. *)
Definition matched_text (s rest : string) : string :=
  substring 0 (String.length s - String.length rest) s.

Fixpoint find_from (items : list Item) (prev : option ascii) (s : string)
  : option (list string) :=
  match match_here items prev s None with
  | Some (cap, rest) => Some [matched_text s rest; default EmptyString cap]
  | None =>
      match s with
      | EmptyString => None
      | String c s' => find_from items (Some c) s'
      end
  end.

(** [FindStringSubmatch] of a compiled pattern: the leftmost match as
    [[whole; group 1]], or [None] for Go's [nil]. *)
Definition FindStringSubmatch (items : list Item) (s : string)
  : option (list string) :=
  find_from items None s.

End Regexp.

(** [regexp.MustCompile(`(?m)^\s*device:\s*(\S+)\s*$`)] *)
Definition backingDeviceRx : list Regexp.Item :=
  [ Regexp.Bol; Regexp.Star rxSpace; Regexp.Lit "device:";
    Regexp.Star rxSpace; Regexp.GroupPlus (fun c => negb (rxSpace c));
    Regexp.Star rxSpace; Regexp.Eol ].

(** ** Data model *)

(** The device types: [DeviceTypeNotScanned], [DeviceTypeUnknown],
    [DeviceTypeLUKS] and [DeviceTypeFilesystem]. *)
Inductive DeviceType : Type :=
| DeviceTypeNotScanned
| DeviceTypeUnknown
| DeviceTypeLUKS
| DeviceTypeFilesystem.

Global Instance DeviceType_eq_dec : EqDecision DeviceType.
Proof. solve_decision. Defined.

Record TemporaryMountT : Type := {
  Name : string;
  Path : string;
  Active : bool;
}.

(** Modelled from the spec: the struct [Drive] is declared outside the
    files at hand; its fields are those of the data model (section 3), of
    which the LUKS manager reads and writes [DevicePath],
    [MappedDevicePath], [Type], [Broken], [TemporaryMount.Name] and
    [StartedOutEmpty]. *)
Record Drive : Type := {
  DevicePath : string;
  MappedDevicePath : string;
  Type_ : DeviceType;
  Broken : bool;
  TemporaryMount : TemporaryMountT;
  SwiftID : string;
  StartedOutEmpty : bool;
}.

Definition set_MappedDevicePath (p : string) (d : Drive) : Drive :=
  {| DevicePath := DevicePath d; MappedDevicePath := p; Type_ := Type_ d;
     Broken := Broken d; TemporaryMount := TemporaryMount d;
     SwiftID := SwiftID d; StartedOutEmpty := StartedOutEmpty d |}.

Definition set_Type (t : DeviceType) (d : Drive) : Drive :=
  {| DevicePath := DevicePath d; MappedDevicePath := MappedDevicePath d;
     Type_ := t; Broken := Broken d; TemporaryMount := TemporaryMount d;
     SwiftID := SwiftID d; StartedOutEmpty := StartedOutEmpty d |}.

Definition set_Broken (b : bool) (d : Drive) : Drive :=
  {| DevicePath := DevicePath d; MappedDevicePath := MappedDevicePath d;
     Type_ := Type_ d; Broken := b; TemporaryMount := TemporaryMount d;
     SwiftID := SwiftID d; StartedOutEmpty := StartedOutEmpty d |}.

Definition set_StartedOutEmpty (b : bool) (d : Drive) : Drive :=
  {| DevicePath := DevicePath d; MappedDevicePath := MappedDevicePath d;
     Type_ := Type_ d; Broken := Broken d; TemporaryMount := TemporaryMount d;
     SwiftID := SwiftID d; StartedOutEmpty := b |}.

(** A configured key: [key.Secret]. *)
Record Key : Type := { Secret : string }.

(** [Configuration]: [ChrootPath] and [DriveGlobs] as [main.go] declares
    them, [Keys] as the LUKS manager reads it ([Config.Keys]). The global [Config]
    is passed to the functions that read it. *)
Record Configuration : Type := {
  ChrootPath : string;
  DriveGlobs : list string;
  Keys : list Key;
}.

(** ** Effects: the log, external commands, process exit *)

Inductive LogLevel : Type := LogFatal | LogError | LogInfo | LogDebug.

Global Instance LogLevel_eq_dec : EqDecision LogLevel.
Proof. solve_decision. Defined.

(** The arguments the code passes for the verbs of a format string. *)
Inductive Arg : Type :=
| AStr (s : string)
| AInt (n : Z).

(** The struct [Command] with the fields the code sets; the zero value is
    what a plain [Run(...)] uses. *)
Record Command : Type := {
  Stdin : string;
  SkipLog : bool;
  ExitOnError : bool;
}.

Definition Command0 : Command :=
  {| Stdin := ""; SkipLog := false; ExitOnError := false |}.

(** What the code under study does to the outside, in order: a log call
    with its level, format and arguments; an external command with its
    options, argument list and what came back; a call of a function of the
    repository that is not among the files at hand, with its arguments and
    whether it reported a failure to its caller. *)
Inductive Event : Type :=
| EvLog (level : LogLevel) (format : string) (args : list Arg)
| EvRun (c : Command) (argv : list string) (stdout : string) (ok : bool)
| EvCall (fn : string) (args : list string) (failed : bool).

(** Modelled from the spec: [Classify] reports one of three kinds when the
    inspection works (section 4.1). *)
Inductive Signature : Type := SigUnknown | SigLUKS | SigFilesystem.

Definition type_of_signature (k : Signature) : DeviceType :=
  match k with
  | SigUnknown => DeviceTypeUnknown
  | SigLUKS => DeviceTypeLUKS
  | SigFilesystem => DeviceTypeFilesystem
  end.

(** The operating system and the parts of the repository that are not at
    hand, as an interface: [OS] is the state of the machine; [exec] runs an
    external command and yields its standard output and whether it
    succeeded; [inspect] is the inspection behind [Classify], [None] when
    it fails; [quarantine] is what [MarkAsBroken] does besides setting the
    flag (unmounting, closing the mapping, the symlink). *)
Class Platform : Type := {
  OS : Type;
  exec : Command -> list string -> OS -> (string * bool) * OS;
  inspect : Drive -> OS -> option Signature * OS;
  quarantine : Drive -> OS -> Drive * OS;
}.

Inductive ExitKind : Type :=
| ExitFatal                (* a log call at level Fatal *)
| ExitOnErr                (* a failed command run with [ExitOnError] *)
| ExitStatus (code : Z)    (* [os.Exit(code)] *)
| ExitPanic.               (* a Go run-time panic *)

Section Effects.
Context `{P : Platform}.

Record World : Type := {
  trace : list Event;
  os : OS;
}.

Inductive Outcome (A : Type) : Type :=
| Ret (a : A) (w : World)
| Stop (e : ExitKind) (w : World).

Definition M (A : Type) : Type := World -> Outcome A.

Definition ret {A : Type} (a : A) : M A := fun w => Ret A a w.

Definition bind {A B : Type} (m : M A) (k : A -> M B) : M B :=
  fun w =>
    match m w with
    | Ret _ a w' => k a w'
    | Stop _ e w' => Stop B e w'
    end.

Definition emit (e : Event) (w : World) : World :=
  {| trace := trace w ++ [e]; os := os w |}.

(** Modelled from the spec: [Log] is the external logger (section 6): it
    receives a level, a format and arguments, and "Fatal terminates the
    process immediately after the message is emitted". *)
Definition Log (level : LogLevel) (format : string) (args : list Arg) : M unit :=
  fun w =>
    let w' := emit (EvLog level format args) w in
    match level with
    | LogFatal => Stop unit ExitFatal w'
    | _ => Ret unit tt w'
    end.

(** Modelled from the spec: the command runner (section 6),
    [Run(program, args...) -> (stdout, success)], whose exit-on-error mode
    "terminates the process instead of returning an error". *)
Definition Run (c : Command) (argv : list string) : M (string * bool) :=
  fun w =>
    let '(out, ok, o') := exec c argv (os w) in
    let w' := {| trace := trace w ++ [EvRun c argv out ok]; os := o' |} in
    if ExitOnError c && negb ok then Stop _ ExitOnErr w'
    else Ret _ (out, ok) w'.

(** A Go run-time panic (an index out of range). *)
Definition panic {A : Type} : M A := fun w => Stop A ExitPanic w.

End Effects.

Arguments Ret {P A} a w.
Arguments Stop {P A} e w.

Declare Scope go_scope.
Delimit Scope go_scope with go.
Notation "'let*' x ':=' m 'in' k" := (bind m (fun x => k))
  (at level 10, x pattern, m at level 100, k at level 200) : go_scope.
Notation "m ';;' k" := (bind m (fun _ => k))
  (at level 100, k at level 200, right associativity) : go_scope.
Local Open Scope go_scope.

(** ** The LUKS manager *)

Section LUKS.
Context `{P : Platform}.

(** A call of a function that is not at hand: the call is recorded, with
    [failed] reading the failure report off its result, and its effect on
    the machine is the platform's. *)
Definition call {A : Type} (fn : string) (args : list string)
    (failed : A -> bool) (f : OS -> A * OS) : M A :=
  fun w =>
    let '(a, o') := f (os w) in
    Ret a {| trace := trace w ++ [EvCall fn args (failed a)]; os := o' |}.

Definition is_nil {A : Type} (o : option A) : bool :=
  match o with None => true | Some _ => false end.

Definition not_nil {A : Type} (o : option A) : bool := negb (is_nil o).

(** Modelled from the spec: [Classify] is declared outside the files at
    hand. Section 4.1: it "returns false (leaves Type unchanged ...) if
    inspection itself fails; otherwise sets Type to one of {Unknown, LUKS,
    Filesystem} ... and returns true. Result is cached", a fresh read
    needing [Type] reset to [NotScanned] first. *)
Definition Classify (d : Drive) : M (bool * Drive) :=
  match Type_ d with
  | DeviceTypeNotScanned =>
      let* r := call "Classify" [DevicePath d] is_nil (inspect d) in
      match r with
      | None => ret (false, d)
      | Some k => ret (true, set_Type (type_of_signature k) d)
      end
  | _ =>
      let* _ := call "Classify" [DevicePath d] (fun _ => false)
                  (fun o => (tt, o)) in
      ret (true, d)
  end.

(** Modelled from the spec: [MarkAsBroken] is declared outside the files
    at hand. Section 4.6: it "sets Broken; ensures the drive is unmounted
    from any mount points and its encryption mapping closed; creates a
    symlink ... and logs operator instructions". The platform's
    [quarantine] does the unmounting, the closing and the symlink, with
    whatever they change in the other fields; the flag is set here. *)
Definition MarkAsBroken (d : Drive) : M Drive :=
  let* d' := call "MarkAsBroken" [DevicePath d] (fun _ => false)
               (quarantine d) in
  ret (set_Broken true d').

(** The loop [for idx, key := range Config.Keys] of [OpenLUKS], which
    breaks at the first key that is accepted; the result is [success]. *)
Fixpoint tryKeys (d : Drive) (mapperName : string) (idx : nat)
    (keys : list Key) : M bool :=
  match keys with
  | [] => ret false
  | key :: rest =>
      Log LogDebug "trying to luksOpen %s as %s with key %d..."
        [AStr (DevicePath d); AStr mapperName; AInt (Z.of_nat idx)] ;;
      let* r := Run {| Stdin := Secret key +:+ LF; SkipLog := true;
                       ExitOnError := false |}
                    ["cryptsetup"; "luksOpen"; DevicePath d; mapperName] in
      if snd r then ret true
      else tryKeys d mapperName (S idx) rest
  end.

Definition OpenLUKS (Config : Configuration) (d : Drive) : M Drive :=
  (* do not touch broken stuff *)
  if Broken d then ret d else
  (* already done? *)
  if decide (MappedDevicePath d <> "") then ret d else
  (* is the drive encrypted? *)
  let* (ok, d) := Classify d in
  if negb ok then ret d else
  if decide (Type_ d <> DeviceTypeLUKS) then ret d else
  (* try each key until one works *)
  let mapperName := Name (TemporaryMount d) in
  let* success := tryKeys d mapperName 0 (Keys Config) in
  if negb success then
    Log LogError
      "exec(cryptsetup luksOpen %s %s) failed: none of the configured keys was accepted"
      [] ;;
    MarkAsBroken d
  else
    let d := set_MappedDevicePath ("/dev/mapper/" +:+ mapperName) d in
    let d := set_Type DeviceTypeNotScanned d in
    Log LogInfo "LUKS container at %s opened as %s"
      [AStr (DevicePath d); AStr (MappedDevicePath d)] ;;
    ret d.

Definition CloseLUKS (d : Drive) : M Drive :=
  (* anything to do? *)
  if decide (MappedDevicePath d = "") then ret d else
  let mapperName := Base (MappedDevicePath d) in
  let* r := Run Command0 ["cryptsetup"; "close"; mapperName] in
  if snd r then
    Log LogInfo "LUKS container %s closed" [AStr (MappedDevicePath d)] ;;
    ret (set_MappedDevicePath "" d)
  else ret d.

(** Ask cryptsetup for the device backing an open LUKS container. After
    the Fatal log the process is gone; [match[1]] on a [nil] match would
    panic. *)
Definition getBackingDevicePath (mapName : string) : M string :=
  let* r := Run {| Stdin := ""; SkipLog := false; ExitOnError := true |}
                ["cryptsetup"; "status"; mapName] in
  let match_ := Regexp.FindStringSubmatch backingDeviceRx (fst r) in
  (match match_ with
   | None => Log LogFatal "cannot find backing device for /dev/mapper/%s"
               [AStr mapName]
   | Some _ => ret tt
   end) ;;
  match match_ with
  | Some m =>
      match m !! 1%nat with
      | Some p => ret p
      | None => panic
      end
  | None => panic
  end.

(** The loop over the lines of [dmsetup ls], which skips the lines
    without fields. *)
Fixpoint scanLines (lines : list string) (result : gmap string string)
  : M (gmap string string) :=
  match lines with
  | [] => ret result
  | line :: rest =>
      match Fields line with
      | [] => scanLines rest result
      | mapName :: _ =>
          let* backingDevicePath := getBackingDevicePath mapName in
          scanLines rest (<[backingDevicePath := mapName]> result)
      end
  end.

Definition ScanLUKSMappings : M (gmap string string) :=
  let* r := Run {| Stdin := ""; SkipLog := false; ExitOnError := true |}
                ["dmsetup"; "ls"; "--target=crypt"] in
  if decide (TrimSpace (fst r) = "No devices found") then ret ∅
  else scanLines (SplitLF (fst r)) ∅.

(** Indexing a Go map: the zero value for an absent key. *)
Definition index (m : gmap string string) (k : string) : string :=
  default "" (m !! k).

Definition CheckLUKS (activeMappings : gmap string string) (d : Drive)
  : M Drive :=
  let actualMapName := index activeMappings (DevicePath d) in
  if decide (actualMapName = "") then
    if decide (MappedDevicePath d <> "") then
      Log LogError "LUKS container in %s should be open at %s, but is not"
        [AStr (DevicePath d); AStr (MappedDevicePath d)] ;;
      MarkAsBroken d
    else ret d
  else
    let actualMappedPath := "/dev/mapper/" +:+ actualMapName in
    if decide (MappedDevicePath d = "") then
      (* existing mapping is now discovered for the first time *)
      let d := set_MappedDevicePath actualMappedPath d in
      Log LogInfo "discovered %s to be mapped to %s already"
        [AStr (DevicePath d); AStr (MappedDevicePath d)] ;;
      (* device cannot be empty if a LUKS mapping is active *)
      ret (set_StartedOutEmpty false d)
    else if decide (MappedDevicePath d = actualMappedPath) then
      (* no change *)
      ret d
    else
      (* our internal state tells a different story! *)
      Log LogError
        "LUKS container in %s should be open at %s, but is actually open at %s"
        [AStr (DevicePath d); AStr (MappedDevicePath d); AStr actualMappedPath] ;;
      MarkAsBroken d.

Definition FormatLUKSIfRequired (Config : Configuration) (d : Drive)
  : M Drive :=
  (* do not touch broken stuff *)
  if Broken d then ret d else
  (* skip if the LUKS container exists and is mapped already *)
  if decide (MappedDevicePath d <> "") then ret d else
  (* sanity check *)
  (if decide (length (Keys Config) = 0%nat) then
     Log LogFatal "FormatLUKSIfRequired called on %s, but no keys specified!"
       [AStr (DevicePath d)]
   else ret tt) ;;
  (* is it safe to be formatted? *)
  let* (ok, d) := Classify d in
  if negb ok then ret d else
  if decide (Type_ d <> DeviceTypeUnknown) then ret d else
  (* format with the preferred key *)
  match Keys Config with
  | [] => panic
  | key :: _ =>
      Log LogDebug "running cryptsetup luksFormat %s with key 0..."
        [AStr (DevicePath d)] ;;
      let* r := Run {| Stdin := Secret key +:+ LF; SkipLog := false;
                       ExitOnError := false |}
                    ["cryptsetup"; "luksFormat"; DevicePath d] in
      (* update drive classification so that OpenLUKS will open it *)
      if snd r then ret (set_Type DeviceTypeLUKS d)
      else MarkAsBroken d
  end.

End LUKS.

(** ** The mount pass of [main.go] *)

(** The functions [main] calls that are not at hand, as an interface over
    the same machine: each takes the arguments of the Go function and
    yields its results, a Go [error] being [None] for [nil] and
    [Some msg] with [msg] what [err.Error()] gives. [scanSwiftID] yields
    the entries of the map it returns in the order in which the [range]
    loop of [main] visits them, as pairs (swift-id, device). Each of them
    returns to [main]. *)
Class Stages `{P : Platform} : Type := {
  MountPoints : Type;
  ExecMode : Type;
  ExecChroot : ExecMode;
  mountDevice : string -> MountPoints -> OS -> (string * option string) * OS;
  scanMountPoints : OS -> (MountPoints * option string) * OS;
  scanSwiftID : MountPoints -> OS -> (list (string * string) * bool) * OS;
  executeFinalMount :
    string -> string -> MountPoints -> OS -> option string * OS;
  execSimple : ExecMode -> list string -> OS -> (string * option string) * OS;
}.


Section Main.
Context `{S : Stages}.

Definition MountDevice (devicePath : string) (allMounts : MountPoints)
  : M (string * option string) :=
  call "MountDevice" [devicePath] (fun r => not_nil (snd r))
    (mountDevice devicePath allMounts).

Definition ScanMountPoints : M (MountPoints * option string) :=
  call "ScanMountPoints" [] (fun r => not_nil (snd r)) scanMountPoints.

Definition ScanSwiftID (allMounts : MountPoints)
  : M (list (string * string) * bool) :=
  call "ScanSwiftID" [] snd (scanSwiftID allMounts).

Definition ExecuteFinalMount (device swiftID : string)
    (allMounts : MountPoints) : M (option string) :=
  call "ExecuteFinalMount" [device; swiftID] not_nil
    (executeFinalMount device swiftID allMounts).

Definition ExecSimple (mode : ExecMode) (argv : list string)
  : M (string * option string) :=
  call "ExecSimple" argv (fun r => not_nil (snd r)) (execSimple mode argv).

(** [os.Exit(code)] *)
Definition osExit {A : Type} (code : Z) : M A :=
  fun w => Stop (ExitStatus code) w.

(** The first loop: try to mount all drives to /run/swift-storage. The
    loop variables [failed] and [mountPaths] are threaded through. *)
Fixpoint mountLoop (drivePaths : list string) (allMounts : MountPoints)
    (failed : bool) (mountPaths : list string) : M (bool * list string) :=
  match drivePaths with
  | [] => ret (failed, mountPaths)
  | drivePath :: rest =>
      let* r := MountDevice ("/" +:+ drivePath) allMounts in
      match snd r with
      | None => mountLoop rest allMounts failed (mountPaths ++ [fst r])
      | Some msg =>
          Log LogError msg [] ;;
          mountLoop rest allMounts true mountPaths
      end
  end.

(** The second loop: map mountpoints from /run/swift-storage to
    /srv/node. *)
Fixpoint finalLoop (mountsByID : list (string * string))
    (allMounts : MountPoints) (failed : bool) : M bool :=
  match mountsByID with
  | [] => ret failed
  | (swiftID, device) :: rest =>
      let* err := ExecuteFinalMount device swiftID allMounts in
      match err with
      | None =>
          Log LogInfo "%s is mounted on /srv/node/%s"
            [AStr device; AStr swiftID] ;;
          finalLoop rest allMounts failed
      | Some msg =>
          Log LogError msg [] ;;
          finalLoop rest allMounts true
      end
  end.

(** Rescan mount points if we mounted something. After the Fatal log the
    process is gone. *)
Definition rescan (mountPaths : list string) (allMounts : MountPoints)
  : M MountPoints :=
  if decide (0 < length mountPaths)%nat then
    let* r := ScanMountPoints in
    match snd r with
    | Some msg =>
        Log LogFatal "list mount points: %s" [AStr msg] ;;
        ret (fst r)
    | None => ret (fst r)
    end
  else ret allMounts.

(** Mark /srv/node as ready; the result is [failed] afterwards. *)
Definition markReady (failed : bool) : M bool :=
  let* r := ExecSimple ExecChroot ["touch"; "/srv/node/ready"] in
  match snd r with
  | Some msg =>
      Log LogError "touch /srv/node/ready: %s" [AStr msg] ;;
      ret true
  | None => ret failed
  end.

(** [main] from [failed := false] to its end; a normal return is the
    process ending with status 0. *)
Definition mountPass (drivePaths : list string) (allMounts : MountPoints)
  : M unit :=
  let* (failed, mountPaths) := mountLoop drivePaths allMounts false [] in
  let* allMounts := rescan mountPaths allMounts in
  (* map mountpoints from /run/swift-storage to /srv/node *)
  let* (mountsByID, scanFailed) := ScanSwiftID allMounts in
  let failed := if scanFailed then true else failed in
  let* failed := finalLoop mountsByID allMounts failed in
  let* failed := markReady failed in
  (* signal intermittent failures to the caller *)
  if failed then
    Log LogInfo "completed with errors, see above" [] ;;
    osExit 1
  else ret tt.

End Main.

(** ** What a run shows: the events a computation emits *)

Section Observations.
Context `{P : Platform}.

Definition final {A : Type} (o : Outcome A) : World :=
  match o with
  | Ret _ w => w
  | Stop _ w => w
  end.

Definition stopped {A : Type} (o : Outcome A) : bool :=
  match o with
  | Ret _ _ => false
  | Stop _ _ => true
  end.

(** The events [m] adds to the trace when it is run from [w]. *)
Definition emitted {A : Type} (m : M A) (w : World) : list Event :=
  drop (length (trace w)) (trace (final (m w))).

End Observations.

(** The external commands among the events: options, argument list and
    success of each, in order. *)
Definition commands (evs : list Event) : list (Command * list string * bool) :=
  omap (fun e => match e with
                 | EvRun c argv _ ok => Some (c, argv, ok)
                 | _ => None
                 end) evs.

(** The log calls at the level Error. *)
Definition errors (evs : list Event) : list (string * list Arg) :=
  omap (fun e => match e with
                 | EvLog LogError format args => Some (format, args)
                 | _ => None
                 end) evs.

(** The command of one attempt of [OpenLUKS] and of the formatting of
    [FormatLUKSIfRequired], as the code builds them. *)
Definition openCommand (key : Key) : Command :=
  {| Stdin := Secret key +:+ LF; SkipLog := true; ExitOnError := false |}.

Definition openArgv (d : Drive) : list string :=
  ["cryptsetup"; "luksOpen"; DevicePath d; Name (TemporaryMount d)].

Definition formatCommand (key : Key) : Command :=
  {| Stdin := Secret key +:+ LF; SkipLog := false; ExitOnError := false |}.

Definition formatArgv (d : Drive) : list string :=
  ["cryptsetup"; "luksFormat"; DevicePath d].

(** The events of a run of attempts: for each key tried, with what the
    command answered, the Debug line and the command; [idx] is the index of
    the first of them in the key list. *)
Fixpoint attemptEvents (d : Drive) (idx : nat)
    (tried : list (Key * (string * bool))) : list Event :=
  match tried with
  | [] => []
  | (key, (out, ok)) :: rest =>
      EvLog LogDebug "trying to luksOpen %s as %s with key %d..."
        [AStr (DevicePath d); AStr (Name (TemporaryMount d));
         AInt (Z.of_nat idx)]
      :: EvRun (openCommand key) (openArgv d) out ok
      :: attemptEvents d (S idx) rest
  end.

Definition rejected (r : string * bool) : Prop := snd r = false.

(** The outcomes of a run of attempts that stops at the first acceptance:
    rejections only, or rejections and then one acceptance. *)
Definition stopsAtFirst (oks : list bool) : Prop :=
  exists n, oks = replicate n false \/ oks = replicate n false ++ [true].

(** The commands of attempts with the keys [keys], in order, and the
    outcomes [oks]. *)
Definition openAttempts (d : Drive) (keys : list Key) (oks : list bool)
  : list (Command * list string * bool) :=
  zip_with (fun key ok => (openCommand key, openArgv d, ok)) keys oks.

(** The error [OpenLUKS] logs when no key was accepted. *)
Definition noKeyAccepted : string :=
  "exec(cryptsetup luksOpen %s %s) failed: none of the configured keys was accepted".

(** ** Rendering a log call

    Go's [fmt.Sprintf] for the verbs [%s] and [%d]: an argument missing
    for a verb prints as [%!s(MISSING)]. *)

Definition renderArg (verb : ascii) (a : Arg) : string :=
  match a with
  | AStr s =>
      if Ascii.eqb verb "s" then s
      else "%!" +:+ String verb ("(string=" +:+ s +:+ ")")
  | AInt n =>
      if Ascii.eqb verb "d" then pretty n
      else "%!" +:+ String verb ("(int=" +:+ pretty n +:+ ")")
  end.

Fixpoint Sprintf (format : string) (args : list Arg) : string :=
  match format with
  | EmptyString => EmptyString
  | String c rest =>
      if Ascii.eqb c "%" then
        match rest with
        | EmptyString => "%!(NOVERB)"
        | String verb rest' =>
            if Ascii.eqb verb "%" then String "%" (Sprintf rest' args)
            else
              match args with
              | [] => "%!" +:+ String verb "(MISSING)" +:+ Sprintf rest' args
              | a :: args' => renderArg verb a +:+ Sprintf rest' args'
              end
        end
      else String c (Sprintf rest args)
  end.

(** ** Machines for worked examples *)

(** A machine without state: a command is answered by [answer], the
    inspection behind [Classify] by [sig], and the quarantine leaves the
    other fields of the drive as they are. *)
Definition fixedMachine
    (answer : Command -> list string -> string * bool)
    (sig : Drive -> option Signature) : Platform :=
  {| OS := unit;
     exec := fun c argv o => (answer c argv, o);
     inspect := fun d o => (sig d, o);
     quarantine := fun d o => (d, o) |}.

Definition worldAt (P : Platform) (t : list Event) (o : @OS P) : @World P :=
  {| trace := t; os := o |}.

Definition world0 (P : Platform) (o : @OS P) : @World P := worldAt P [] o.

Definition sdb : Drive :=
  {| DevicePath := "/dev/sdb"; MappedDevicePath := "";
     Type_ := DeviceTypeNotScanned; Broken := false;
     TemporaryMount := {| Name := "abc123"; Path := ""; Active := false |};
     SwiftID := ""; StartedOutEmpty := true |}.

Definition twoKeys : Configuration :=
  {| ChrootPath := ""; DriveGlobs := [];
     Keys := [ {| Secret := "first" |}; {| Secret := "second" |} ] |}.

(** A machine on which [/dev/sdb] holds a LUKS container that accepts the
    passphrase [good] only. *)
Definition luksMachine (good : string) : Platform :=
  fixedMachine
    (fun c argv => ("", bool_decide (Stdin c = good +:+ LF)))
    (fun _ => Some SigLUKS).

Definition sdbMapped (path : string) : Drive := set_MappedDevicePath path sdb.

(** The kernel's table with [/dev/sdb] open as [abc123]. *)
Definition oneMapping : gmap string string := {[ "/dev/sdb" := "abc123" ]}.

(** A machine on which nothing is encrypted and every command fails. *)
Definition failingMachine : Platform :=
  fixedMachine (fun _ _ => ("", false)) (fun _ => Some SigFilesystem).

(** The world after the Debug line and the format command. *)
Definition formatted {P : Platform} (w1 : World) (d : Drive) (key : Key) (out : string)
    (okf : bool) (o' : OS) : World :=
  {| trace := trace w1 ++
       [EvLog LogDebug "running cryptsetup luksFormat %s with key 0..."
          [AStr (DevicePath d)];
        EvRun (formatCommand key) (formatArgv d) out okf];
     os := o' |}.

(** A machine on which every drive is blank and every command answers
    [ok]. *)
Definition blankMachine (ok : bool) : Platform :=
  fixedMachine (fun _ _ => ("", ok)) (fun _ => Some SigUnknown).

Definition noKeys : Configuration :=
  {| ChrootPath := ""; DriveGlobs := []; Keys := [] |}.

Definition otherKeys : Configuration :=
  {| ChrootPath := ""; DriveGlobs := [];
     Keys := [ {| Secret := "alpha" |}; {| Secret := "beta" |} ] |}.

(** The two commands of [ScanLUKSMappings] and [getBackingDevicePath],
    both run with [ExitOnError]. *)
Definition scanCommand : Command :=
  {| Stdin := ""; SkipLog := false; ExitOnError := true |}.

Definition lsArgv : list string := ["dmsetup"; "ls"; "--target=crypt"].

Definition statusArgv (mapName : string) : list string :=
  ["cryptsetup"; "status"; mapName].

(** The mapping names a listing shows: the first field of every line that
    has a field. *)
Definition mappingNames (stdout : string) : list string :=
  omap (fun line => head (Fields line)) (SplitLF stdout).

(** The backing device a status output shows: group 1 of the leftmost
    match of [backingDeviceRx], [None] when the output has no line
    [device: <path>]. *)
Definition backingDevice (out : string) : option string :=
  match Regexp.FindStringSubmatch backingDeviceRx out with
  | Some m => m !! 1%nat
  | None => None
  end.

(** A status query that succeeded: the mapping name and the output. *)
Definition statusEvent (q : string * string) : Event :=
  EvRun scanCommand (statusArgv (fst q)) (snd q) true.

(** What the queries [l], in order, leave in the map: for each the entry
    backing device -> mapping name, a later one replacing an earlier one
    for the same device. *)
Definition recorded (l : list (string * string)) (m0 : gmap string string)
  : gmap string string :=
  foldl (fun m q => <[default "" (backingDevice (snd q)) := fst q]> m) m0 l.

(** A machine with the mappings [swift1] on [/dev/sdb] and [swift2] on
    [/dev/sdc] open. *)
Definition twoMappings : Platform :=
  fixedMachine
    (fun _ argv =>
       if decide (argv = lsArgv) then
         ("swift1" +:+ String (ascii_of_nat 9) "(253, 0)" +:+ LF +:+
          "swift2" +:+ String (ascii_of_nat 9) "(253, 1)" +:+ LF, true)
       else if decide (argv = statusArgv "swift1") then
         ("/dev/mapper/swift1 is active." +:+ LF +:+
          "  type:    LUKS1" +:+ LF +:+
          "  device:  /dev/sdb" +:+ LF, true)
       else if decide (argv = statusArgv "swift2") then
         ("/dev/mapper/swift2 is active." +:+ LF +:+
          "  device:  /dev/sdc" +:+ LF +:+
          "  offset:  4096 sectors" +:+ LF, true)
       else ("", false))
    (fun _ => None).

(** A machine with no mapping open. *)
Definition noMappings : Platform :=
  fixedMachine (fun _ _ => ("No devices found" +:+ LF, true)) (fun _ => None).

(** A machine on which [swift1] is listed and its status shows no
    device. *)
Definition brokenStatus : Platform :=
  fixedMachine
    (fun _ argv =>
       if decide (argv = lsArgv) then ("swift1 (253, 0)" +:+ LF, true)
       else ("/dev/mapper/swift1 is inactive." +:+ LF, true))
    (fun _ => None).

(** An event of the scan that lets it go on: a command that succeeded
    and, when it is a status query, whose output shows a device. *)
Definition goesOn (e : Event) : Prop :=
  exists c argv out,
    e = EvRun c argv out true /\
    forall name, argv = statusArgv name -> is_Some (backingDevice out).

(** A status query that succeeded and whose output shows no device. *)
Definition deviceMissing (evs : list Event) : Prop :=
  exists name out,
    EvRun scanCommand (statusArgv name) out true ∈ evs /\
    backingDevice out = None.

(** A command that failed. *)
Definition commandFailed (evs : list Event) : Prop :=
  exists c argv out, EvRun c argv out false ∈ evs.

(** The events of the first loop of the mount pass: for each drive, with
    what [MountDevice] returned for it, the call and, after a failure, the
    Error line. *)
Fixpoint mountEvents (rs : list (string * (string * option string)))
  : list Event :=
  match rs with
  | [] => []
  | (devicePath, (_, err)) :: rest =>
      EvCall "MountDevice" [devicePath] (not_nil err)
      :: match err with
         | Some msg => [EvLog LogError msg []]
         | None => []
         end
      ++ mountEvents rest
  end.

(** The mount paths of the drives that were mounted, [mountPaths]. *)
Definition mounted (rs : list (string * (string * option string)))
  : list string :=
  omap (fun r => match snd (snd r) with
                 | None => Some (fst (snd r))
                 | Some _ => None
                 end) rs.

Definition anyError (errs : list (option string)) : bool :=
  existsb not_nil errs.

(** The events of the second loop: for each pair (swift-id, device), with
    what [ExecuteFinalMount] returned for it, the call and the Info or
    Error line. *)
Fixpoint finalEvents (fs : list (string * string * option string))
  : list Event :=
  match fs with
  | [] => []
  | (swiftID, device, err) :: rest =>
      EvCall "ExecuteFinalMount" [device; swiftID] (not_nil err)
      :: match err with
         | None => EvLog LogInfo "%s is mounted on /srv/node/%s"
                     [AStr device; AStr swiftID]
         | Some msg => EvLog LogError msg []
         end
      :: finalEvents rest
  end.

(** Touching the readiness marker, with the error it returned. *)
Definition touchEvents (err : option string) : list Event :=
  EvCall "ExecSimple" ["touch"; "/srv/node/ready"] (not_nil err)
  :: match err with
     | Some msg => [EvLog LogError "touch /srv/node/ready: %s" [AStr msg]]
     | None => []
     end.

(** The rescan of the mount points, made when something was mounted. *)
Definition rescanEvents (rs : list (string * (string * option string)))
  : list Event :=
  match mounted rs with
  | [] => []
  | _ :: _ => [EvCall "ScanMountPoints" [] false]
  end.

(** The stages of a machine for worked examples: [mountDevice] fails on
    the device paths in [bad] and mounts the others; the identity scan
    finds [ids]; the final mount and [touch] succeed. *)
Definition fixedStages (P : Platform) (bad : list string)
    (ids : list (string * string)) : @Stages P :=
  {| MountPoints := unit;
     ExecMode := unit;
     ExecChroot := tt;
     mountDevice := fun path _ o =>
       if decide (path ∈ bad)
       then (("", Some ("cannot mount " +:+ path)), o)
       else (("/run/swift-storage" +:+ path, None), o);
     scanMountPoints := fun o => ((tt, None), o);
     scanSwiftID := fun _ o => ((ids, false), o);
     executeFinalMount := fun _ _ _ o => (None, o);
     execSimple := fun _ _ o => (("", None), o) |}.

(** An output of [cryptsetup status]. *)
Definition sample_status : string :=
  "/dev/mapper/swift1 is active." +:+ LF +:+
  "  type:    LUKS1" +:+ LF +:+
  "  device:  /dev/sdb" +:+ LF +:+
  "  offset:  4096 sectors" +:+ LF.

(** Stages on which mounting [/dev/sdb] fails and the identity scan finds
    [swift1] on [/dev/sdc]. *)
Definition sdbFails : @Stages failingMachine :=
  fixedStages failingMachine ["/dev/sdb"] [("swift1", "/dev/sdc")].

(** The drive found by a scan and then checked: the scan's table is handed
    to CheckLUKS. *)
Definition scanThenCheck {P : Platform} (d : Drive) : M Drive :=
  let* activeMappings := ScanLUKSMappings in
  CheckLUKS activeMappings d.

(** ** The start of [main] *)

(** What [main] uses before the mount pass, over the same machine:
    [ioutil.ReadFile], [yaml.Unmarshal] into the global [Config] (the
    configuration it leaves there and its error), [os.Chdir], and
    [ListDrives], which is not at hand and reads the configuration. An
    [error] is [None] for [nil] and [Some msg] with [msg] what
    [err.Error()] gives. *)
Class Startup `{S : Stages} : Type := {
  readFile : string -> OS -> (string * option string) * OS;
  unmarshal : string -> OS -> (Configuration * option string) * OS;
  chdir : string -> OS -> option string * OS;
  listDrives : Configuration -> OS -> (list string * option string) * OS;
}.

Section Startup_code.
Context `{U : Startup}.

Definition ReadFile (filename : string) : M (string * option string) :=
  call "ioutil.ReadFile" [filename] (fun r => not_nil (snd r))
    (readFile filename).

(** [yaml.Unmarshal(configBytes, &Config)] fills the global [Config]: the
    state changes with it, and the stages that read the global later see
    it there. *)
Definition Unmarshal (configBytes : string)
  : M (Configuration * option string) :=
  call "yaml.Unmarshal" [] (fun r => not_nil (snd r))
    (unmarshal configBytes).

Definition Chdir (dir : string) : M (option string) :=
  call "os.Chdir" [dir] not_nil (chdir dir).

Definition ListDrives (Config : Configuration)
  : M (list string * option string) :=
  call "ListDrives" [] (fun r => not_nil (snd r)) (listDrives Config).

(** [fmt.Fprintf(os.Stderr, format, arg)]: the line goes to the standard
    error stream and nothing on the machine changes. *)
Definition FprintfStderr (format arg : string) : M unit :=
  call "fmt.Fprintf" ["os.Stderr"; format; arg] (fun _ => false)
    (fun o => (tt, o)).

(** [if err != nil { Log(LogFatal, format, ...) }] *)
Definition fatalIf (err : option string) (format : string)
    (args : string -> list Arg) : M unit :=
  match err with
  | Some msg => Log LogFatal format (args msg)
  | None => ret tt
  end.

(** [main], with [os.Args] as its argument. Indexing [os.Args] out of
    range would panic. *)
Definition main (Args : list string) : M unit :=
  (* expect one argument (config file name) *)
  (if decide (length Args <> 2%nat) then
     match Args !! 0%nat with
     | Some arg0 =>
         FprintfStderr ("Usage: %s <config-file>" +:+ LF) arg0 ;;
         osExit 1
     | None => panic
     end
   else ret tt) ;;
  match Args !! 1%nat with
  | None => panic
  | Some filename =>
      (* read config file *)
      let* r := ReadFile filename in
      fatalIf (snd r) "read configuration file: %s" (fun msg => [AStr msg]) ;;
      let* r := Unmarshal (fst r) in
      fatalIf (snd r) "parse configuration: %s" (fun msg => [AStr msg]) ;;
      let Config := fst r in
      (* set working directory to the chroot directory *)
      let workingDir :=
        if decide (ChrootPath Config <> "") then ChrootPath Config
        else "/" in
      let* err := Chdir workingDir in
      fatalIf err "chdir to %s: %s"
        (fun msg => [AStr workingDir; AStr msg]) ;;
      (* list drives *)
      let* r := ListDrives Config in
      fatalIf (snd r) "list drives: %s" (fun msg => [AStr msg]) ;;
      let drivePaths := fst r in
      (* look for existing mount points *)
      let* r := ScanMountPoints in
      fatalIf (snd r) "list mount points: %s" (fun msg => [AStr msg]) ;;
      mountPass drivePaths (fst r)
  end.

End Startup_code.

(** ** Reading the matcher *)

(** The loop of a capturing [(c+)] in [Regexp.match_here], by name: [acc]
    is the run read so far, reversed, and [k] matches the rest of the
    pattern. *)
Definition plusLoop (cls : ascii -> bool)
    (k : option ascii -> string -> option string -> option Regexp.Matched)
  : option ascii -> string -> string -> option Regexp.Matched :=
  fix plus (prev : option ascii) (s : string) (acc : string)
    : option Regexp.Matched :=
    match s with
    | String c s' =>
        if cls c then
          match plus (Some c) s' (String c acc) with
          | Some r => Some r
          | None => k prev s (Some (GoStrings.rev acc))
          end
        else k prev s (Some (GoStrings.rev acc))
    | EmptyString => k prev s (Some (GoStrings.rev acc))
    end.

(** The byte before the position reached after reading [s] from a
    position whose previous byte is [prev]. *)
Fixpoint lastOf (prev : option ascii) (s : string) : option ascii :=
  match s with
  | EmptyString => prev
  | String c s' => lastOf (Some c) s'
  end.

(** Whether the position after the text [pre] is the start of a line. *)
Definition atLineStart (pre : string) : bool :=
  Regexp.at_bol (lastOf None pre).

(** Bytes outside the class [\s]. *)
Definition notSpace (c : ascii) : bool := negb (rxSpace c).

(** A status output with a line [device: <path>]: the text [pre] up to the
    start of that line, the indentation, the gap after the colon, the path,
    and the text [rest] from the end of that line on. *)
Definition withDeviceLine (pre indent gap path rest : string) : string :=
  pre +:+ indent +:+ "device:" +:+ gap +:+ path +:+ rest.

(** The directory [main] changes to: the chroot directory when one is
    configured, the root otherwise. *)
Definition workingDir (Config : Configuration) : string :=
  if decide (ChrootPath Config <> "") then ChrootPath Config else "/".

(** A machine on which the listing succeeds with an empty output. *)
Definition emptyListing : Platform :=
  fixedMachine (fun _ _ => ("", true)) (fun _ => None).

(** A machine on which [swift1] and [swift2] are listed, in this order,
    and both show [/dev/sdb] as their device. *)
Definition sameDevice : Platform :=
  fixedMachine
    (fun _ argv =>
       if decide (argv = lsArgv) then
         ("swift1 (253, 0)" +:+ LF +:+ "swift2 (253, 1)" +:+ LF, true)
       else ("  device:  /dev/sdb" +:+ LF, true))
    (fun _ => None).

(** A start on which the configuration file reads (or fails to read with
    [readErr]) and parses as [Config], and the drives listed are
    [drives]. *)
Definition fixedStartup (P : Platform) (S : @Stages P)
    (Config : Configuration) (readErr : option string)
    (drives : list string) : @Startup P S :=
  {| readFile := fun _ o => (("", readErr), o);
     unmarshal := fun _ o => ((Config, None), o);
     chdir := fun _ o => (None, o);
     listDrives := fun _ o => ((drives, None), o) |}.

Definition chrootConfig : Configuration :=
  {| ChrootPath := "/coreos"; DriveGlobs := ["/dev/sd?"]; Keys := [] |}.

(** The five steps of [main] before the mount pass, in order: the
    function called and its arguments, and the format and arguments of the
    Fatal line logged when it returns an error. *)
Definition setupSteps (filename wd : string)
  : list (string * list string * string * (string -> list Arg)) :=
  [("ioutil.ReadFile", [filename],
    "read configuration file: %s", fun msg => [AStr msg]);
   ("yaml.Unmarshal", [],
    "parse configuration: %s", fun msg => [AStr msg]);
   ("os.Chdir", [wd],
    "chdir to %s: %s", fun msg => [AStr wd; AStr msg]);
   ("ListDrives", [],
    "list drives: %s", fun msg => [AStr msg]);
   ("ScanMountPoints", [],
    "list mount points: %s", fun msg => [AStr msg])].

(** The events of steps that returned no error. *)
Definition okCalls
    (steps : list (string * list string * string * (string -> list Arg)))
  : list Event :=
  (fun s => EvCall (fst (fst (fst s))) (snd (fst (fst s))) false) <$> steps.

(** * Properties *)

(** ** The helpers on concrete inputs *)

Example TrimSpace_sentinel :
  TrimSpace ("No devices found" +:+ LF) = "No devices found".
Proof. reflexivity. Qed.

Example SplitLF_two_lines :
  SplitLF ("a" +:+ LF +:+ "b" +:+ LF) = ["a"; "b"; ""].
Proof. reflexivity. Qed.

Example Fields_mapping_line :
  Fields "swift1  (253, 0) " = ["swift1"; "(253,"; "0)"].
Proof. reflexivity. Qed.

Example Base_mapper : Base "/dev/mapper/abc123" = "abc123".
Proof. reflexivity. Qed.

Example Base_only_slashes : Base "///" = "/".
Proof. reflexivity. Qed.

Example backingDeviceRx_sample :
  Regexp.FindStringSubmatch backingDeviceRx sample_status
  = Some ["  device:  /dev/sdb"; "/dev/sdb"].
Proof. reflexivity. Qed.

Example backingDeviceRx_no_device :
  Regexp.FindStringSubmatch backingDeviceRx
    ("/dev/mapper/swift1 is inactive." +:+ LF) = None.
Proof. reflexivity. Qed.

Example Sprintf_attempt :
  Sprintf "trying to luksOpen %s as %s with key %d..."
    [AStr "/dev/sdb"; AStr "abc123"; AInt 1]
  = "trying to luksOpen /dev/sdb as abc123 with key 1...".
Proof. reflexivity. Qed.


(** ** The monad and the calls outside the files at hand *)

Section Basics.
Context `{P : Platform}.

Lemma emitted_app {A : Type} (m : M A) (w : World) (evs : list Event) :
  trace (final (m w)) = trace w ++ evs -> emitted m w = evs.
Proof.
  intros H. unfold emitted. rewrite H. apply drop_app_length.
Qed.

Lemma emitted_Ret {A : Type} (m : M A) (w w' : World) (a : A) (evs : list Event) :
  m w = Ret a w' -> trace w' = trace w ++ evs -> emitted m w = evs.
Proof. intros Hm Ht. apply emitted_app. rewrite Hm. exact Ht. Qed.

Lemma emitted_Stop {A : Type} (m : M A) (w w' : World) (e : ExitKind)
    (evs : list Event) :
  m w = Stop e w' -> trace w' = trace w ++ evs -> emitted m w = evs.
Proof. intros Hm Ht. apply emitted_app. rewrite Hm. exact Ht. Qed.

Lemma bind_Ret {A B : Type} (m : M A) (k : A -> M B) (w w' : World) (a : A) :
  m w = Ret a w' -> bind m k w = k a w'.
Proof. intros H. unfold bind. rewrite H. reflexivity. Qed.

Lemma bind_Stop {A B : Type} (m : M A) (k : A -> M B) (w w' : World)
    (e : ExitKind) :
  m w = Stop e w' -> bind m k w = Stop e w'.
Proof. intros H. unfold bind. rewrite H. reflexivity. Qed.

Lemma Log_Ret (level : LogLevel) (format : string) (args : list Arg)
    (w : World) :
  level <> LogFatal ->
  Log level format args w = Ret tt (emit (EvLog level format args) w).
Proof. intros H. unfold Log. destruct level; congruence. Qed.

Lemma Run_eq (c : Command) (argv : list string) (w : World) (out : string)
    (ok : bool) (o' : OS) :
  exec c argv (os w) = (out, ok, o') ->
  Run c argv w
  = let w' := {| trace := trace w ++ [EvRun c argv out ok]; os := o' |} in
    if ExitOnError c && negb ok then Stop ExitOnErr w' else Ret (out, ok) w'.
Proof. intros H. unfold Run. rewrite H. reflexivity. Qed.

Lemma MarkAsBroken_run (d : Drive) (w : World) :
  exists d' w',
    MarkAsBroken d w = Ret d' w' /\ Broken d' = true /\
    trace w' = trace w ++ [EvCall "MarkAsBroken" [DevicePath d] false].
Proof.
  unfold MarkAsBroken, bind, call, ret.
  destruct (quarantine d (os w)) as [d1 o1]. simpl.
  eexists _, _. split; [reflexivity|]. split; reflexivity.
Qed.

(** After a log call at the level Error, [MarkAsBroken] leaves the drive
    flagged and the two events in the trace. *)
Lemma error_then_broken (format : string) (args : list Arg) (d : Drive)
    (w : World) :
  exists d' w',
    (Log LogError format args ;; MarkAsBroken d) w = Ret d' w' /\
    Broken d' = true /\
    trace w' = trace w ++ [EvLog LogError format args;
                           EvCall "MarkAsBroken" [DevicePath d] false].
Proof.
  unfold bind at 1. unfold Log. cbn iota.
  destruct (MarkAsBroken_run d (emit (EvLog LogError format args) w))
    as (d' & w' & Hm & Hb & Ht).
  exists d', w'. split; [exact Hm|]. split; [exact Hb|].
  rewrite Ht. unfold emit. simpl. rewrite <- app_assoc. reflexivity.
Qed.

Lemma Classify_run (d : Drive) (w : World) :
  exists ok d1 w1,
    Classify d w = Ret (ok, d1) w1 /\
    trace w1 = trace w ++ [EvCall "Classify" [DevicePath d] (negb ok)] /\
    (ok = false -> d1 = d) /\
    d1 = set_Type (Type_ d1) d.
Proof.
  unfold Classify, bind, call, ret.
  destruct d as [dp mp ty br tm sid soe]. simpl.
  destruct ty; simpl;
    try (eexists true, _, _; split; [reflexivity|];
         split; [reflexivity|]; split; [discriminate|reflexivity]).
  destruct (inspect _ (os w)) as [[k|] o1]; simpl.
  - eexists true, _, _. split; [reflexivity|].
    split; [reflexivity|]. split; [discriminate|reflexivity].
  - eexists false, _, _. split; [reflexivity|].
    split; [reflexivity|]. split; reflexivity.
Qed.

End Basics.

(** ** CheckLUKS *)

Section CheckLUKS_properties.
Context `{P : Platform}.

(** C1. CheckLUKS implements the five cases of the reconciliation. With
    [name] what the kernel's table has for the drive's device path (empty
    when it has none) and [path] the mapper path [/dev/mapper/name]:
    (1) no mapping, belief non-empty: an error is logged and the drive is
    marked broken; (2) no mapping, belief empty: nothing changes; (3) the
    mapping is the believed one: nothing changes; (4) a mapping and no
    belief: MappedDevicePath becomes [path], the discovery is logged at
    Info and StartedOutEmpty is cleared; (5) a mapping that differs from a
    non-empty belief: an error is logged and the drive is marked broken. *)
Theorem CheckLUKS_five_cases (activeMappings : gmap string string)
    (d : Drive) (w : World) :
  let name := index activeMappings (DevicePath d) in
  let path := "/dev/mapper/" +:+ name in
  (name = "" -> MappedDevicePath d <> "" ->
   exists d' w',
     CheckLUKS activeMappings d w = Ret d' w' /\ Broken d' = true /\
     trace w' = trace w ++
       [EvLog LogError "LUKS container in %s should be open at %s, but is not"
          [AStr (DevicePath d); AStr (MappedDevicePath d)];
        EvCall "MarkAsBroken" [DevicePath d] false]) /\
  (name = "" -> MappedDevicePath d = "" ->
   CheckLUKS activeMappings d w = Ret d w) /\
  (name <> "" -> MappedDevicePath d = path ->
   CheckLUKS activeMappings d w = Ret d w) /\
  (name <> "" -> MappedDevicePath d = "" ->
   CheckLUKS activeMappings d w
   = Ret (set_StartedOutEmpty false (set_MappedDevicePath path d))
         (emit (EvLog LogInfo "discovered %s to be mapped to %s already"
                  [AStr (DevicePath d); AStr path]) w)) /\
  (name <> "" -> MappedDevicePath d <> "" -> MappedDevicePath d <> path ->
   exists d' w',
     CheckLUKS activeMappings d w = Ret d' w' /\ Broken d' = true /\
     trace w' = trace w ++
       [EvLog LogError
          "LUKS container in %s should be open at %s, but is actually open at %s"
          [AStr (DevicePath d); AStr (MappedDevicePath d); AStr path];
        EvCall "MarkAsBroken" [DevicePath d] false]).
Proof.
  intros name path. unfold CheckLUKS. fold name. fold path.
  repeat split.
  - intros Hn Hm. rewrite decide_True by exact Hn.
    rewrite decide_True by exact Hm. apply error_then_broken.
  - intros Hn Hm. rewrite decide_True by exact Hn.
    rewrite decide_False by (intros H; apply H; exact Hm). reflexivity.
  - intros Hn Hm. rewrite decide_False by exact Hn.
    assert (Hne : MappedDevicePath d <> "") by (rewrite Hm; discriminate).
    rewrite decide_False by exact Hne.
    rewrite decide_True by exact Hm. reflexivity.
  - intros Hn Hm. rewrite decide_False by exact Hn.
    rewrite decide_True by exact Hm. reflexivity.
  - intros Hn Hm Hd. rewrite decide_False by exact Hn.
    rewrite decide_False by exact Hm.
    rewrite decide_False by exact Hd. apply error_then_broken.
Qed.

(** C10. CheckLUKS reconciles whatever the Broken flag says: a drive that
    is flagged broken, has an active mapping in the kernel's table and no
    believed mapper path still gets MappedDevicePath set to the mapper
    path found and StartedOutEmpty cleared, and stays flagged; OpenLUKS
    and FormatLUKSIfRequired leave the same drive alone. *)
Theorem CheckLUKS_ignores_Broken (activeMappings : gmap string string)
    (Config : Configuration) (d : Drive) (w : World) (name : string) :
  Broken d = true ->
  activeMappings !! DevicePath d = Some name ->
  name <> "" ->
  MappedDevicePath d = "" ->
  (exists d' w',
     CheckLUKS activeMappings d w = Ret d' w' /\
     MappedDevicePath d' = "/dev/mapper/" +:+ name /\
     StartedOutEmpty d' = false /\
     Broken d' = true) /\
  OpenLUKS Config d w = Ret d w /\
  FormatLUKSIfRequired Config d w = Ret d w.
Proof.
  intros Hb Hl Hn Hm. split; [|split].
  - unfold CheckLUKS, index. rewrite Hl. simpl.
    rewrite decide_False by exact Hn.
    rewrite decide_True by exact Hm.
    eexists _, _. split; [reflexivity|]. simpl.
    split; [reflexivity|]. split; [reflexivity|exact Hb].
  - unfold OpenLUKS. rewrite Hb. reflexivity.
  - unfold FormatLUKSIfRequired. rewrite Hb. reflexivity.
Qed.

End CheckLUKS_properties.

Lemma CheckLUKS_five_cases_witness :
  let w := world0 failingMachine tt in
  (exists d' w', CheckLUKS ∅ (sdbMapped "/dev/mapper/abc123") w = Ret d' w'
                 /\ Broken d' = true) /\
  CheckLUKS ∅ sdb w = Ret sdb w /\
  CheckLUKS oneMapping (sdbMapped "/dev/mapper/abc123") w
  = Ret (sdbMapped "/dev/mapper/abc123") w /\
  (exists w', CheckLUKS oneMapping sdb w
              = Ret (set_StartedOutEmpty false (sdbMapped "/dev/mapper/abc123")) w') /\
  (exists d' w', CheckLUKS oneMapping (sdbMapped "/dev/mapper/other") w = Ret d' w'
                 /\ Broken d' = true).
Proof.
  intros w. split; [|split; [|split; [|split]]].
  - destruct (CheckLUKS_five_cases (P := failingMachine) ∅
                (sdbMapped "/dev/mapper/abc123") w) as (H & _).
    destruct H as (d' & w' & H1 & H2 & _);
      [reflexivity | discriminate |].
    exists d', w'. split; assumption.
  - destruct (CheckLUKS_five_cases (P := failingMachine) ∅ sdb w)
      as (_ & H & _).
    apply H; reflexivity.
  - destruct (CheckLUKS_five_cases (P := failingMachine) oneMapping
                (sdbMapped "/dev/mapper/abc123") w) as (_ & _ & H & _).
    apply H; [vm_compute; discriminate | reflexivity].
  - destruct (CheckLUKS_five_cases (P := failingMachine) oneMapping sdb w)
      as (_ & _ & _ & H & _).
    eexists. apply H; [vm_compute; discriminate | reflexivity].
  - destruct (CheckLUKS_five_cases (P := failingMachine) oneMapping
                (sdbMapped "/dev/mapper/other") w) as (_ & _ & _ & _ & H).
    destruct H as (d' & w' & H1 & H2 & _);
      [vm_compute; discriminate | discriminate | vm_compute; discriminate |].
    exists d', w'. split; assumption.
Defined.

Lemma CheckLUKS_ignores_Broken_witness :
  let d := set_Broken true sdb in
  let w := world0 failingMachine tt in
  (exists d' w',
     CheckLUKS oneMapping d w = Ret d' w' /\
     MappedDevicePath d' = "/dev/mapper/abc123" /\
     StartedOutEmpty d' = false /\
     Broken d' = true) /\
  OpenLUKS twoKeys d w = Ret d w /\
  FormatLUKSIfRequired twoKeys d w = Ret d w.
Proof.
  intros d w.
  apply (CheckLUKS_ignores_Broken (P := failingMachine) oneMapping twoKeys d w
           "abc123");
    [reflexivity | reflexivity | discriminate | reflexivity].
Defined.

(** ** CloseLUKS *)

Section CloseLUKS_properties.
Context `{P : Platform}.

(** C8. CloseLUKS does nothing when MappedDevicePath is empty. Otherwise
    it issues the one command [cryptsetup close <name>], with [name] the
    base name of the mapped path; when the command succeeds the closing is
    logged and MappedDevicePath is cleared; when it fails the drive is
    returned as it was, every field included, and nothing is logged. *)
Theorem CloseLUKS_cases (d : Drive) (w : World) :
  (MappedDevicePath d = "" -> CloseLUKS d w = Ret d w) /\
  (MappedDevicePath d <> "" ->
   forall (out : string) (ok : bool) (o' : OS),
     let argv := ["cryptsetup"; "close"; Base (MappedDevicePath d)] in
     exec Command0 argv (os w) = (out, ok, o') ->
     let w1 := {| trace := trace w ++ [EvRun Command0 argv out ok];
                  os := o' |} in
     (ok = true ->
      CloseLUKS d w
      = Ret (set_MappedDevicePath "" d)
            (emit (EvLog LogInfo "LUKS container %s closed"
                     [AStr (MappedDevicePath d)]) w1)) /\
     (ok = false -> CloseLUKS d w = Ret d w1)).
Proof.
  split.
  - intros Hm. unfold CloseLUKS. rewrite decide_True by exact Hm. reflexivity.
  - intros Hm out ok o' argv He w1. unfold CloseLUKS.
    rewrite decide_False by exact Hm. fold argv.
    pose proof (Run_eq Command0 argv w out ok o' He) as Hr. simpl in Hr.
    rewrite (bind_Ret _ _ _ _ _ Hr). simpl.
    split; intros ->; reflexivity.
Qed.

End CloseLUKS_properties.

Lemma CloseLUKS_cases_witness :
  let w := world0 failingMachine tt in
  let d := sdbMapped "/dev/mapper/abc123" in
  CloseLUKS sdb w = Ret sdb w /\
  CloseLUKS d w
  = Ret d (worldAt failingMachine
             [EvRun Command0 ["cryptsetup"; "close"; "abc123"] "" false] tt).
Proof.
  intros w d.
  destruct (CloseLUKS_cases (P := failingMachine) sdb w) as (H1 & _).
  destruct (CloseLUKS_cases (P := failingMachine) d w) as (_ & H2).
  split; [apply H1; reflexivity|].
  destruct (H2 ltac:(discriminate) "" false tt eq_refl) as (_ & H3).
  apply H3. reflexivity.
Defined.

(** *** The mapper name is recovered from the mapped path *)

Lemma append_assoc (a b c : string) : (a +:+ b) +:+ c = a +:+ (b +:+ c).
Proof.
  induction a as [|x a IH]; [reflexivity|].
  change (String x ((a +:+ b) +:+ c) = String x (a +:+ (b +:+ c))).
  f_equal. exact IH.
Qed.

Lemma append_nil_r (a : string) : a +:+ "" = a.
Proof.
  induction a as [|x a IH]; [reflexivity|].
  change (String x (a +:+ "") = String x a). f_equal. exact IH.
Qed.

Lemma rev_acc_spec (s acc : string) :
  GoStrings.rev_acc s acc = GoStrings.rev s +:+ acc.
Proof.
  unfold GoStrings.rev. revert acc.
  induction s as [|c s IH]; intros acc; simpl; [reflexivity|].
  rewrite (IH (String c acc)), (IH (String c "")), append_assoc.
  reflexivity.
Qed.

Lemma rev_cons (c : ascii) (s : string) :
  GoStrings.rev (String c s) = GoStrings.rev s +:+ String c "".
Proof. unfold GoStrings.rev at 1. simpl. apply rev_acc_spec. Qed.

Lemma rev_append (a b : string) :
  GoStrings.rev (a +:+ b) = GoStrings.rev b +:+ GoStrings.rev a.
Proof.
  induction a as [|c a IH].
  - simpl. change (GoStrings.rev "") with "". rewrite append_nil_r.
    reflexivity.
  - change (String c a +:+ b) with (String c (a +:+ b)).
    rewrite !rev_cons, IH, append_assoc. reflexivity.
Qed.

Lemma rev_involutive (s : string) : GoStrings.rev (GoStrings.rev s) = s.
Proof.
  induction s as [|c s IH]; [reflexivity|].
  rewrite rev_cons, rev_append, IH. reflexivity.
Qed.

Lemma allChars_append (p : ascii -> bool) (a b : string) :
  allChars p (a +:+ b) = allChars p a && allChars p b.
Proof.
  induction a as [|c a IH]; simpl; [reflexivity|].
  rewrite IH, andb_assoc. reflexivity.
Qed.

Lemma allChars_rev (p : ascii -> bool) (s : string) :
  allChars p (GoStrings.rev s) = allChars p s.
Proof.
  induction s as [|c s IH]; [reflexivity|].
  rewrite rev_cons, allChars_append, IH. simpl.
  rewrite andb_true_r, andb_comm. reflexivity.
Qed.

Lemma takeWhile_append (p : ascii -> bool) (a : string) (c : ascii)
    (b : string) :
  allChars p a = true -> p c = false ->
  takeWhile p (a +:+ String c b) = a.
Proof.
  intros Ha Hc. induction a as [|x a IH]; simpl.
  - rewrite Hc. reflexivity.
  - simpl in Ha. apply andb_true_iff in Ha. destruct Ha as [Hx Ha].
    rewrite Hx, (IH Ha). reflexivity.
Qed.

(** For a mapper name that is not empty and has no slash, the base name
    of [/dev/mapper/<name>] is the name: CloseLUKS closes the mapping that
    OpenLUKS opened and CheckLUKS found. *)
Lemma Base_mapper_path (name : string) :
  name <> "" ->
  allChars (fun c => negb (isSlash c)) name = true ->
  Base ("/dev/mapper/" +:+ name) = name.
Proof.
  intros Hne Hall.
  change ("/dev/mapper/" +:+ name)
    with (String "/" ("dev/mapper/" +:+ name)).
  unfold Base.
  change (String "/" ("dev/mapper/" +:+ name))
    with ("/dev/mapper/" +:+ name).
  rewrite rev_append.
  change (GoStrings.rev "/dev/mapper/") with (String "/" "reppam/ved/").
  assert (Hr : allChars (fun c => negb (isSlash c)) (GoStrings.rev name) = true)
    by (rewrite allChars_rev; exact Hall).
  assert (Hrne : GoStrings.rev name <> "").
  { intros H. apply Hne. rewrite <- (rev_involutive name), H. reflexivity. }
  destruct (GoStrings.rev name) as [|c r] eqn:Hrev; [contradiction|].
  simpl in Hr. apply andb_true_iff in Hr. destruct Hr as [Hc Hr'].
  assert (Hd : dropWhile isSlash (String c r +:+ String "/" "reppam/ved/")
               = String c r +:+ String "/" "reppam/ved/").
  { simpl. destruct (isSlash c); [discriminate Hc|reflexivity]. }
  rewrite Hd.
  rewrite takeWhile_append;
    [|simpl; rewrite Hc, Hr'; reflexivity|reflexivity].
  rewrite <- Hrev, rev_involutive.
  destruct name; [contradiction|reflexivity].
Qed.

(** ** OpenLUKS *)

Section OpenLUKS_properties.
Context `{P : Platform}.

Lemma commands_app (a b : list Event) :
  commands (a ++ b) = commands a ++ commands b.
Proof. unfold commands. apply omap_app. Qed.

Lemma errors_app (a b : list Event) :
  errors (a ++ b) = errors a ++ errors b.
Proof. unfold errors. apply omap_app. Qed.

Lemma commands_attemptEvents (d : Drive) (tried : list (Key * (string * bool)))
    (idx : nat) :
  commands (attemptEvents d idx tried)
  = map (fun t => (openCommand (fst t), openArgv d, snd (snd t))) tried.
Proof.
  revert idx. induction tried as [|[key [out ok]] rest IH]; intros idx.
  - reflexivity.
  - simpl. unfold commands in *. simpl. rewrite IH. reflexivity.
Qed.

Lemma errors_attemptEvents (d : Drive) (tried : list (Key * (string * bool)))
    (idx : nat) :
  errors (attemptEvents d idx tried) = [].
Proof.
  revert idx. induction tried as [|[key [out ok]] rest IH]; intros idx.
  - reflexivity.
  - simpl. unfold errors in *. simpl. apply IH.
Qed.

(** The loop over the keys: it returns, having tried the keys in order up
    to the first one accepted; [success] tells whether one was. *)
Lemma tryKeys_run (keys : list Key) (d : Drive) (idx : nat) (w : World) :
  exists (rej : list (string * bool)) (tail : list (string * bool))
         (success : bool) (w' : World),
    tryKeys d (Name (TemporaryMount d)) idx keys w = Ret success w' /\
    trace w' = trace w ++ attemptEvents d idx (zip keys (rej ++ tail)) /\
    Forall rejected rej /\
    ((success = true /\ (length rej < length keys)%nat /\
      exists out, tail = [(out, true)]) \/
     (success = false /\ length rej = length keys /\ tail = [])).
Proof.
  revert idx w. induction keys as [|key rest IH]; intros idx w.
  - exists [], [], false, w. simpl. unfold ret.
    split; [reflexivity|]. split; [rewrite app_nil_r; reflexivity|].
    split; [constructor|]. right. repeat split.
  - cbn [tryKeys].
    rewrite (bind_Ret _ _ _ _ _ (Log_Ret LogDebug _ _ w ltac:(discriminate))).
    set (w0 := emit _ w).
    destruct (exec (openCommand key) (openArgv d) (os w0)) as [[out ok] o'] eqn:He.
    pose proof (Run_eq _ _ _ _ _ _ He) as Hr. simpl in Hr.
    unfold openCommand, openArgv in Hr.
    rewrite (bind_Ret _ _ _ _ _ Hr). simpl. clear Hr.
    destruct ok.
    + exists [], [(out, true)], true. eexists. unfold ret.
      split; [reflexivity|]. simpl.
      split; [unfold w0, emit; simpl; rewrite <- app_assoc;
              destruct rest; reflexivity|].
      split; [constructor|]. left. repeat split; [lia|]. eexists; reflexivity.
    + match goal with |- context [tryKeys _ _ _ _ ?w1] =>
        destruct (IH (S idx) w1) as (rej & tail & success & w' & Hk & Ht & Hrej & Hc)
      end.
      exists ((out, false) :: rej), tail, success, w'.
      split; [exact Hk|].
      split.
      { rewrite Ht. simpl. unfold w0, emit. simpl.
        rewrite <- !app_assoc. reflexivity. }
      split; [constructor; [reflexivity|exact Hrej]|].
      destruct Hc as [(Hs & Hl & Ho)|(Hs & Hl & Ho)].
      * left. repeat split; [exact Hs|simpl; lia|exact Ho].
      * right. repeat split; [exact Hs|simpl; lia|exact Ho].
Qed.

Lemma attemptEvents_set_Type (t : DeviceType) (d : Drive)
    (tried : list (Key * (string * bool))) (idx : nat) :
  attemptEvents (set_Type t d) idx tried = attemptEvents d idx tried.
Proof.
  revert idx. induction tried as [|[key [out ok]] rest IH]; intros idx.
  - reflexivity.
  - simpl. rewrite IH. reflexivity.
Qed.

Lemma rejected_replicate (rej : list (string * bool)) :
  Forall rejected rej -> map snd rej = replicate (length rej) false.
Proof.
  induction 1 as [|[out ok] rej Hr _ IH]; [reflexivity|].
  simpl. unfold rejected in Hr. simpl in Hr. rewrite Hr, IH. reflexivity.
Qed.

Lemma commands_attempts (d : Drive) (keys : list Key)
    (resp : list (string * bool)) (idx : nat) :
  commands (attemptEvents d idx (zip keys resp))
  = openAttempts d keys (map snd resp).
Proof.
  rewrite commands_attemptEvents. unfold openAttempts.
  revert resp. induction keys as [|key keys IH]; intros [|[out ok] resp];
    try reflexivity.
  simpl. rewrite IH. reflexivity.
Qed.

(** An eligible drive (not broken, not mapped, classified as LUKS): the
    keys are tried and either one is accepted, and the drive is mapped, or
    all are rejected, and the drive is marked broken after one error. *)
Lemma OpenLUKS_eligible (Config : Configuration) (d d1 : Drive)
    (w w1 : World) :
  Broken d = false ->
  MappedDevicePath d = "" ->
  Classify d w = Ret (true, d1) w1 ->
  Type_ d1 = DeviceTypeLUKS ->
  exists (rej tail : list (string * bool)) (d' : Drive) (w' : World),
    OpenLUKS Config d w = Ret d' w' /\
    Forall rejected rej /\
    (((exists out, tail = [(out, true)]) /\
      (length rej < length (Keys Config))%nat /\
      d' = set_Type DeviceTypeNotScanned
             (set_MappedDevicePath
                ("/dev/mapper/" +:+ Name (TemporaryMount d)) d) /\
      trace w' = trace w1
                 ++ attemptEvents d 0 (zip (Keys Config) (rej ++ tail))
                 ++ [EvLog LogInfo "LUKS container at %s opened as %s"
                       [AStr (DevicePath d);
                        AStr ("/dev/mapper/" +:+ Name (TemporaryMount d))]])
     \/
     (tail = [] /\
      length rej = length (Keys Config) /\
      Broken d' = true /\
      trace w' = trace w1
                 ++ attemptEvents d 0 (zip (Keys Config) (rej ++ tail))
                 ++ [EvLog LogError noKeyAccepted [];
                     EvCall "MarkAsBroken" [DevicePath d] false])).
Proof.
  intros Hb Hm Hc Ht.
  destruct (Classify_run d w) as (ok' & d1' & w1' & Hc' & _ & _ & Hd1).
  rewrite Hc in Hc'. injection Hc' as <- <- <-.
  rewrite Ht in Hd1.
  unfold OpenLUKS. rewrite Hb.
  rewrite decide_False by (intros H; apply H; exact Hm).
  rewrite (bind_Ret _ _ _ _ _ Hc). cbv beta iota. cbn [negb].
  rewrite decide_False by (intros H; apply H; exact Ht).
  destruct (tryKeys_run (Keys Config) d1 0 w1)
    as (rej & tail & success & w2 & Hk & Htr & Hrej & Hcase).
  rewrite (bind_Ret _ _ _ _ _ Hk).
  rewrite Hd1, attemptEvents_set_Type in Htr.
  exists rej, tail.
  destruct Hcase as [(-> & Hl & Ho)|(-> & Hl & ->)]; cbn [negb].
  - eexists _, _.
    rewrite (bind_Ret _ _ _ _ _ (Log_Ret LogInfo _ _ w2 ltac:(discriminate))).
    unfold ret. split; [reflexivity|]. split; [exact Hrej|]. left.
    split; [exact Ho|]. split; [exact Hl|].
    split; [rewrite Hd1; destruct d; reflexivity|].
    unfold emit. cbn [trace]. rewrite Htr, <- app_assoc, Hd1.
    reflexivity.
  - destruct (error_then_broken noKeyAccepted [] d1 w2)
      as (d' & w' & He & Hbr & Hte).
    exists d', w'. split; [exact He|]. split; [exact Hrej|]. right.
    split; [reflexivity|]. split; [exact Hl|]. split; [exact Hbr|].
    rewrite Hte, Htr, <- app_assoc, Hd1. reflexivity.
Qed.

Lemma attemptEvents_nil (d : Drive) (keys : list Key) (idx : nat) :
  attemptEvents d idx (zip keys []) = [].
Proof. destruct keys; reflexivity. Qed.

(** Every run of OpenLUKS returns, and what it emits is: events without
    commands and without errors, then the attempts, then events without
    commands among which at most the one error [noKeyAccepted]. *)
Lemma OpenLUKS_emitted (Config : Configuration) (d : Drive) (w : World) :
  exists (d' : Drive) (w' : World) (pre post : list Event)
         (resp : list (string * bool)),
    OpenLUKS Config d w = Ret d' w' /\
    emitted (OpenLUKS Config d) w
    = pre ++ attemptEvents d 0 (zip (Keys Config) resp) ++ post /\
    commands pre = [] /\ commands post = [] /\ errors pre = [] /\
    (errors post = [] \/ errors post = [(noKeyAccepted, [])]) /\
    stopsAtFirst (map snd resp) /\
    (length resp <= length (Keys Config))%nat /\
    (resp = [] \/ last (map snd resp) = Some true \/
     length resp = length (Keys Config)).
Proof.
  assert (Hnone : forall d' w' pre,
             OpenLUKS Config d w = Ret d' w' ->
             trace w' = trace w ++ pre ->
             commands pre = [] -> errors pre = [] ->
             exists (d' : Drive) (w' : World) (pre post : list Event)
                    (resp : list (string * bool)),
               OpenLUKS Config d w = Ret d' w' /\
               emitted (OpenLUKS Config d) w
               = pre ++ attemptEvents d 0 (zip (Keys Config) resp) ++ post /\
               commands pre = [] /\ commands post = [] /\ errors pre = [] /\
               (errors post = [] \/ errors post = [(noKeyAccepted, [])]) /\
               stopsAtFirst (map snd resp) /\
               (length resp <= length (Keys Config))%nat /\
               (resp = [] \/ last (map snd resp) = Some true \/
                length resp = length (Keys Config))).
  { intros d' w' pre Ho Ht Hc He.
    exists d', w', pre, [], []. split; [exact Ho|].
    split.
    { rewrite attemptEvents_nil. rewrite !app_nil_r.
      eapply emitted_Ret; eassumption. }
    repeat (split; [first [assumption | reflexivity]|]).
    split; [left; reflexivity|].
    split; [exists 0%nat; left; reflexivity|].
    split; [simpl; lia|]. left. reflexivity. }
  destruct (Broken d) eqn:Hb.
  { apply (Hnone d w []); try reflexivity.
    - unfold OpenLUKS. rewrite Hb. reflexivity.
    - rewrite app_nil_r. reflexivity. }
  destruct (decide (MappedDevicePath d <> "")) as [Hm|Hm].
  { apply (Hnone d w []); try reflexivity.
    - unfold OpenLUKS. rewrite Hb. rewrite decide_True by exact Hm.
      reflexivity.
    - rewrite app_nil_r. reflexivity. }
  assert (Hm' : MappedDevicePath d = "").
  { destruct (decide (MappedDevicePath d = "")) as [H|H]; [exact H|].
    exfalso. apply Hm. exact H. }
  destruct (Classify_run d w) as (ok & d1 & w1 & Hc & Ht1 & _ & Hd1).
  assert (Hskip : ok = false \/ Type_ d1 <> DeviceTypeLUKS ->
                  OpenLUKS Config d w = Ret d1 w1).
  { intros Hs. unfold OpenLUKS. rewrite Hb.
    rewrite decide_False by exact Hm.
    rewrite (bind_Ret _ _ _ _ _ Hc). cbv beta iota.
    destruct ok; cbn [negb]; [|reflexivity].
    destruct Hs as [Hs|Hs]; [discriminate|].
    rewrite decide_True by exact Hs. reflexivity. }
  destruct ok.
  2:{ apply (Hnone d1 w1 [EvCall "Classify" [DevicePath d] true]);
        [apply Hskip; left; reflexivity | exact Ht1 | reflexivity..]. }
  destruct (decide (Type_ d1 = DeviceTypeLUKS)) as [Ht|Ht].
  2:{ apply (Hnone d1 w1 [EvCall "Classify" [DevicePath d] false]);
        [apply Hskip; right; exact Ht | exact Ht1 | reflexivity..]. }
  clear Hnone Hskip.
  destruct (OpenLUKS_eligible Config d d1 w w1 Hb Hm' Hc Ht)
    as (rej & tail & d' & w' & Ho & Hrej & Hcase).
  assert (Hsnd : map snd (rej ++ tail)
                 = replicate (length rej) false ++ map snd tail).
  { rewrite map_app, (rejected_replicate _ Hrej). reflexivity. }
  destruct Hcase as [((out & ->) & Hl & _ & Htr)|(-> & Hl & _ & Htr)].
  - exists d', w', [EvCall "Classify" [DevicePath d] false].
    eexists _, (rej ++ [(out, true)]).
    split; [exact Ho|].
    split.
    { eapply emitted_Ret; [exact Ho|].
      rewrite Htr, Ht1, <- !app_assoc. reflexivity. }
    repeat (split; [reflexivity|]).
    split; [left; reflexivity|].
    rewrite Hsnd. simpl.
    split; [exists (length rej); right; reflexivity|].
    split; [rewrite length_app; simpl; lia|].
    right. left. apply last_snoc.
  - exists d', w', [EvCall "Classify" [DevicePath d] false].
    eexists _, (rej ++ []).
    split; [exact Ho|].
    split.
    { eapply emitted_Ret; [exact Ho|].
      rewrite Htr, Ht1, <- !app_assoc. reflexivity. }
    repeat (split; [reflexivity|]).
    split; [right; reflexivity|].
    rewrite Hsnd. simpl. rewrite !app_nil_r.
    split; [exists (length rej); left; reflexivity|].
    split; [lia|]. right. right. exact Hl.
Qed.

(** The commands of a run of OpenLUKS: attempts with the keys in list
    order, stopping at the first acceptance. *)
Lemma OpenLUKS_commands (Config : Configuration) (d : Drive) (w : World) :
  exists oks : list bool,
    commands (emitted (OpenLUKS Config d) w)
    = openAttempts d (Keys Config) oks /\
    stopsAtFirst oks /\
    (length oks <= length (Keys Config))%nat /\
    (oks = [] \/ last oks = Some true \/ length oks = length (Keys Config)).
Proof.
  destruct (OpenLUKS_emitted Config d w)
    as (d' & w' & pre & post & resp & _ & He & Hpre & Hpost & _ & _
        & Hs & Hl & Hlast).
  exists (map snd resp).
  split.
  { rewrite He, !commands_app, Hpre, Hpost, commands_attempts, app_nil_r.
    reflexivity. }
  split; [exact Hs|]. rewrite length_map.
  split; [exact Hl|].
  destruct Hlast as [->|[H|H]]; [left; reflexivity|right; left; exact H|].
  right. right. exact H.
Qed.

(** The errors of a run of OpenLUKS: none, or the one error
    [noKeyAccepted], which carries no argument. *)
Lemma OpenLUKS_errors (Config : Configuration) (d : Drive) (w : World) :
  errors (emitted (OpenLUKS Config d) w) = [] \/
  errors (emitted (OpenLUKS Config d) w) = [(noKeyAccepted, [])].
Proof.
  destruct (OpenLUKS_emitted Config d w)
    as (d' & w' & pre & post & resp & _ & He & _ & _ & Hpre & Hpost & _).
  rewrite He, !errors_app, Hpre, errors_attemptEvents. simpl. exact Hpost.
Qed.

Lemma openAttempts_all_rejected (d : Drive) (keys : list Key) :
  openAttempts d keys (replicate (length keys) false)
  = map (fun key => (openCommand key, openArgv d, false)) keys.
Proof.
  unfold openAttempts. induction keys as [|key keys IH]; [reflexivity|].
  simpl. rewrite IH. reflexivity.
Qed.

Lemma openAttempts_accepted (d : Drive) (keys : list Key) (n : nat) :
  (n < length keys)%nat ->
  exists key,
    key ∈ keys /\
    (openCommand key, openArgv d, true)
      ∈ openAttempts d keys (replicate n false ++ [true]).
Proof.
  unfold openAttempts. revert n.
  induction keys as [|key keys IH]; intros n Hn; [simpl in Hn; lia|].
  destruct n as [|n].
  - exists key. split; [left|]. simpl. left.
  - destruct (IH n) as (key' & Hin & Hc); [simpl in Hn; lia|].
    exists key'. split; [right; exact Hin|]. simpl. right. exact Hc.
Qed.

(** C2, as amended. OpenLUKS returns the drive and the world as they are
    when the drive is broken or already mapped. When Classify fails, or
    classifies the drive as something else than LUKS, OpenLUKS adds nothing
    to what Classify did: no command is issued and the drive is as Classify
    left it, which is unchanged after a failure and with Type set to the
    classified type otherwise. When the drive is classified as LUKS, either
    some configured key is accepted, MappedDevicePath is set to
    /dev/mapper/<mapper name>, Type is reset to NotScanned and no error is
    logged; or every configured key is rejected, one attempt each, exactly
    one error is logged and the drive is marked broken. *)
Theorem OpenLUKS_cases (Config : Configuration) (d : Drive) (w : World) :
  (Broken d = true -> OpenLUKS Config d w = Ret d w) /\
  (MappedDevicePath d <> "" -> OpenLUKS Config d w = Ret d w) /\
  (Broken d = false -> MappedDevicePath d = "" ->
   forall (ok : bool) (d1 : Drive) (w1 : World),
     Classify d w = Ret (ok, d1) w1 ->
     (ok = false ->
      d1 = d /\ OpenLUKS Config d w = Ret d w1 /\
      commands (emitted (OpenLUKS Config d) w) = []) /\
     (ok = true -> Type_ d1 <> DeviceTypeLUKS ->
      d1 = set_Type (Type_ d1) d /\ OpenLUKS Config d w = Ret d1 w1 /\
      commands (emitted (OpenLUKS Config d) w) = []) /\
     (ok = true -> Type_ d1 = DeviceTypeLUKS ->
      exists (d' : Drive) (w' : World) (evs : list Event),
        OpenLUKS Config d w = Ret d' w' /\
        trace w' = trace w1 ++ evs /\
        (((exists key, key ∈ Keys Config /\
             (openCommand key, openArgv d, true) ∈ commands evs) /\
          MappedDevicePath d'
          = "/dev/mapper/" +:+ Name (TemporaryMount d) /\
          Type_ d' = DeviceTypeNotScanned /\
          errors evs = [])
         \/
         (commands evs
          = map (fun key => (openCommand key, openArgv d, false))
              (Keys Config) /\
          Broken d' = true /\
          errors evs = [(noKeyAccepted, [])])))).
Proof.
  split; [|split].
  - intros Hb. unfold OpenLUKS. rewrite Hb. reflexivity.
  - intros Hm. unfold OpenLUKS. destruct (Broken d); [reflexivity|].
    rewrite decide_True by exact Hm. reflexivity.
  - intros Hb Hm ok d1 w1 Hc.
    destruct (Classify_run d w) as (ok' & d1' & w1' & Hc' & Ht1 & Hf & Hd1).
    rewrite Hc in Hc'. injection Hc' as <- <- <-.
    assert (Hskip : ok = false \/ Type_ d1 <> DeviceTypeLUKS ->
                    OpenLUKS Config d w = Ret d1 w1).
    { intros Hs. unfold OpenLUKS. rewrite Hb.
      rewrite decide_False by (intros H; apply H; exact Hm).
      rewrite (bind_Ret _ _ _ _ _ Hc). cbv beta iota.
      destruct ok; cbn [negb]; [|reflexivity].
      destruct Hs as [Hs|Hs]; [discriminate|].
      rewrite decide_True by exact Hs. reflexivity. }
    split; [|split].
    + intros ->. rewrite (Hf eq_refl) in *.
      split; [reflexivity|]. split; [apply Hskip; left; reflexivity|].
      erewrite emitted_Ret;
        [|apply Hskip; left; reflexivity|exact Ht1]. reflexivity.
    + intros -> Ht. split; [exact Hd1|].
      split; [apply Hskip; right; exact Ht|].
      erewrite emitted_Ret;
        [|apply Hskip; right; exact Ht|exact Ht1]. reflexivity.
    + intros -> Ht.
      destruct (OpenLUKS_eligible Config d d1 w w1 Hb Hm Hc Ht)
        as (rej & tail & d' & w' & Ho & Hrej & Hcase).
      exists d', w'.
      destruct Hcase as [((out & ->) & Hl & -> & Htr)|(-> & Hl & Hbr & Htr)].
      * assert (Hsnd : map snd (rej ++ [(out, true)])
                       = replicate (length rej) false ++ [true]).
        { rewrite map_app, (rejected_replicate _ Hrej). reflexivity. }
        eexists. split; [exact Ho|]. split; [exact Htr|]. left.
        rewrite commands_app, errors_app, commands_attempts,
          errors_attemptEvents, Hsnd.
        simpl. rewrite app_nil_r.
        split; [apply openAttempts_accepted; exact Hl|].
        repeat split.
      * assert (Hsnd : map snd (rej ++ [])
                       = replicate (length (Keys Config)) false).
        { rewrite app_nil_r, (rejected_replicate _ Hrej), Hl. reflexivity. }
        eexists. split; [exact Ho|]. split; [exact Htr|]. right.
        rewrite commands_app, errors_app, commands_attempts,
          errors_attemptEvents, Hsnd.
        simpl. rewrite app_nil_r.
        split; [apply openAttempts_all_rejected|].
        split; [exact Hbr|reflexivity].
Qed.

(** C6, at the code: whatever the drive and the keys, an error that
    OpenLUKS logs is the format [noKeyAccepted] without any argument, so
    that the two verbs of the format stay unfilled and the message names
    neither the device path nor the mapper name. *)
Theorem OpenLUKS_error_omits_device_path (Config : Configuration)
    (d : Drive) (w : World) (format : string) (args : list Arg) :
  (format, args) ∈ errors (emitted (OpenLUKS Config d) w) ->
  format = noKeyAccepted /\ args = [] /\
  Sprintf format args
  = "exec(cryptsetup luksOpen %!s(MISSING) %!s(MISSING)) failed: none of the configured keys was accepted".
Proof.
  intros Hin.
  destruct (OpenLUKS_errors Config d w) as [He|He]; rewrite He in Hin.
  - inversion Hin.
  - apply list_elem_of_singleton in Hin. injection Hin as -> ->.
    split; [reflexivity|]. split; reflexivity.
Qed.

End OpenLUKS_properties.

(** The claim C2 as it stands fails where Classify has something to
    remember: on a machine where [/dev/sdb] holds a file system, the drive
    comes in unscanned, is classified as something else than LUKS, and
    leaves OpenLUKS with another Type than it came with. *)
Lemma OpenLUKS_not_LUKS_changes_Type :
  let w := world0 failingMachine tt in
  exists (d1 : Drive) (w1 : World),
    Classify sdb w = Ret (true, d1) w1 /\
    Type_ d1 <> DeviceTypeLUKS /\
    OpenLUKS twoKeys sdb w = Ret d1 w1 /\
    d1 <> sdb /\
    ~ (exists w', OpenLUKS twoKeys sdb w = Ret sdb w').
Proof.
  intros w. eexists _, _.
  split; [reflexivity|]. split; [discriminate|].
  split; [reflexivity|]. split; [discriminate|].
  intros (w' & H). vm_compute in H. discriminate H.
Qed.

Lemma OpenLUKS_cases_witness :
  let P := luksMachine "second" in
  let w := world0 P tt in
  OpenLUKS twoKeys (set_Broken true sdb) w = Ret (set_Broken true sdb) w /\
  OpenLUKS twoKeys (sdbMapped "/dev/mapper/x") w
  = Ret (sdbMapped "/dev/mapper/x") w /\
  exists (d' : Drive) (w' : World),
    OpenLUKS twoKeys sdb w = Ret d' w' /\
    (MappedDevicePath d' = "/dev/mapper/abc123" \/ Broken d' = true).
Proof.
  intros P w.
  destruct (OpenLUKS_cases (P := P) twoKeys (set_Broken true sdb) w)
    as (H1 & _).
  destruct (OpenLUKS_cases (P := P) twoKeys (sdbMapped "/dev/mapper/x") w)
    as (_ & H2 & _).
  destruct (OpenLUKS_cases (P := P) twoKeys sdb w) as (_ & _ & H3).
  split; [apply H1; reflexivity|].
  split; [apply H2; discriminate|].
  destruct (H3 eq_refl eq_refl true (set_Type DeviceTypeLUKS sdb)
              (worldAt P [EvCall "Classify" ["/dev/sdb"] false] tt) eq_refl)
    as (_ & _ & H4).
  destruct (H4 eq_refl eq_refl) as (d' & w' & evs & Ho & _ & Hcase).
  exists d', w'. split; [exact Ho|].
  destruct Hcase as [(_ & Hm & _)|(_ & Hb & _)];
    [left; exact Hm|right; exact Hb].
Defined.

Lemma OpenLUKS_error_omits_device_path_witness :
  let P := luksMachine "other" in
  let w := world0 P tt in
  (noKeyAccepted, []) ∈ errors (emitted (OpenLUKS twoKeys sdb) w) /\
  Contains (Sprintf noKeyAccepted []) "/dev/sdb" = false.
Proof.
  intros P w.
  assert (Hin : (noKeyAccepted, @nil Arg)
                  ∈ errors (emitted (OpenLUKS twoKeys sdb) w)).
  { vm_compute. left. }
  split; [exact Hin|].
  destruct (OpenLUKS_error_omits_device_path (P := P) twoKeys sdb w
              noKeyAccepted [] Hin) as (_ & _ & Hs).
  rewrite Hs. reflexivity.
Defined.

(** ** FormatLUKSIfRequired *)

Section Format_properties.
Context `{P : Platform}.

Lemma Format_unbroken_unmapped (Config : Configuration) (d : Drive)
    (w : World) (key : Key) (rest : list Key) :
  Broken d = false -> MappedDevicePath d = "" ->
  Keys Config = key :: rest ->
  FormatLUKSIfRequired Config d w
  = (let* (ok, d) := Classify d in
     if negb ok then ret d else
     if decide (Type_ d <> DeviceTypeUnknown) then ret d else
     Log LogDebug "running cryptsetup luksFormat %s with key 0..."
       [AStr (DevicePath d)] ;;
     let* r := Run (formatCommand key) (formatArgv d) in
     if snd r then ret (set_Type DeviceTypeLUKS d)
     else MarkAsBroken d) w.
Proof.
  intros Hb Hm Hk. unfold FormatLUKSIfRequired. rewrite Hb, Hk.
  rewrite decide_False by (intros H; apply H; exact Hm).
  rewrite decide_False by (simpl; discriminate).
  unfold bind at 1. unfold ret at 1. reflexivity.
Qed.

Lemma Format_broken (Config : Configuration) (d : Drive) (w : World) :
  Broken d = true -> FormatLUKSIfRequired Config d w = Ret d w.
Proof. intros Hb. unfold FormatLUKSIfRequired. rewrite Hb. reflexivity. Qed.

Lemma Format_mapped (Config : Configuration) (d : Drive) (w : World) :
  MappedDevicePath d <> "" -> FormatLUKSIfRequired Config d w = Ret d w.
Proof.
  intros Hm. unfold FormatLUKSIfRequired. destruct (Broken d); [reflexivity|].
  rewrite decide_True by exact Hm. reflexivity.
Qed.

Lemma Format_nokey (Config : Configuration) (d : Drive) (w : World) :
  Broken d = false -> MappedDevicePath d = "" -> Keys Config = [] ->
  FormatLUKSIfRequired Config d w
  = Stop ExitFatal
      (emit (EvLog LogFatal
               "FormatLUKSIfRequired called on %s, but no keys specified!"
               [AStr (DevicePath d)]) w).
Proof.
  intros Hb Hm Hk. unfold FormatLUKSIfRequired. rewrite Hb, Hk.
  rewrite decide_False by (intros H; apply H; exact Hm).
  rewrite decide_True by reflexivity. reflexivity.
Qed.

Lemma Format_skip (Config : Configuration) (d d1 : Drive) (w w1 : World)
    (key : Key) (rest : list Key) (ok : bool) :
  Broken d = false -> MappedDevicePath d = "" ->
  Keys Config = key :: rest ->
  Classify d w = Ret (ok, d1) w1 ->
  ok = false \/ Type_ d1 <> DeviceTypeUnknown ->
  FormatLUKSIfRequired Config d w = Ret d1 w1.
Proof.
  intros Hb Hm Hk Hc Hs.
  rewrite (Format_unbroken_unmapped _ _ _ _ _ Hb Hm Hk).
  rewrite (bind_Ret _ _ _ _ _ Hc). cbv beta iota.
  destruct ok; cbn [negb]; [|reflexivity].
  destruct Hs as [Hs|Hs]; [discriminate|].
  rewrite decide_True by exact Hs. reflexivity.
Qed.

Lemma Format_run (Config : Configuration) (d d1 : Drive) (w w1 : World)
    (key : Key) (rest : list Key) (out : string) (okf : bool) (o' : OS) :
  Broken d = false -> MappedDevicePath d = "" ->
  Keys Config = key :: rest ->
  Classify d w = Ret (true, d1) w1 ->
  Type_ d1 = DeviceTypeUnknown ->
  exec (formatCommand key) (formatArgv d) (os w1) = (out, okf, o') ->
  FormatLUKSIfRequired Config d w
  = (if okf then ret (set_Type DeviceTypeLUKS d) else MarkAsBroken d1)
      (formatted w1 d key out okf o').
Proof.
  intros Hb Hm Hk Hc Ht He.
  destruct (Classify_run d w) as (ok' & d1' & w1' & Hc' & _ & _ & Hd1).
  rewrite Hc in Hc'. injection Hc' as <- <- <-. rewrite Ht in Hd1.
  rewrite (Format_unbroken_unmapped _ _ _ _ _ Hb Hm Hk).
  rewrite (bind_Ret _ _ _ _ _ Hc). cbv beta iota. cbn [negb].
  rewrite decide_False by (intros H; apply H; exact Ht).
  rewrite (bind_Ret _ _ _ _ _ (Log_Ret LogDebug _ _ w1 ltac:(discriminate))).
  assert (Hargv : formatArgv d1 = formatArgv d) by (rewrite Hd1; reflexivity).
  assert (Hdp : DevicePath d1 = DevicePath d) by (rewrite Hd1; reflexivity).
  rewrite Hargv, Hdp.
  match goal with |- bind _ _ ?w0 = _ =>
    pose proof (Run_eq (formatCommand key) (formatArgv d) w0 out okf o' He)
      as Hr
  end.
  simpl in Hr. rewrite (bind_Ret _ _ _ _ _ Hr). cbn [snd].
  unfold formatted, emit. cbn [trace os]. rewrite <- app_assoc. cbn [app].
  destruct okf; [|reflexivity].
  rewrite Hd1. destruct d; reflexivity.
Qed.

(** The commands of a run of FormatLUKSIfRequired: none, or the one format
    command with the first key, on a drive that is neither broken nor
    mapped and that Classify reports as Unknown. *)
Lemma Format_commands (Config : Configuration) (d : Drive) (w : World) :
  commands (emitted (FormatLUKSIfRequired Config d) w) = [] \/
  exists (key : Key) (rest : list Key) (okf : bool) (d1 : Drive)
         (w1 : World),
    Keys Config = key :: rest /\
    Broken d = false /\ MappedDevicePath d = "" /\
    Classify d w = Ret (true, d1) w1 /\ Type_ d1 = DeviceTypeUnknown /\
    commands (emitted (FormatLUKSIfRequired Config d) w)
    = [(formatCommand key, formatArgv d, okf)].
Proof.
  destruct (Broken d) eqn:Hb.
  { left. erewrite emitted_Ret;
      [|apply Format_broken; exact Hb|symmetry; apply app_nil_r].
    reflexivity. }
  destruct (decide (MappedDevicePath d = "")) as [Hm|Hm].
  2:{ left. erewrite emitted_Ret;
        [|apply Format_mapped; exact Hm|symmetry; apply app_nil_r].
      reflexivity. }
  destruct (Keys Config) as [|key rest] eqn:Hk.
  { left. erewrite emitted_Stop;
      [|apply Format_nokey; [exact Hb|exact Hm|exact Hk]|reflexivity].
    reflexivity. }
  destruct (Classify_run d w) as (ok & d1 & w1 & Hc & Ht1 & _ & Hd1).
  destruct (decide (ok = true /\ Type_ d1 = DeviceTypeUnknown))
    as [[-> Ht]|Hn].
  - right.
    destruct (exec (formatCommand key) (formatArgv d) (os w1))
      as [[out okf] o'] eqn:He.
    pose proof (Format_run _ _ _ _ _ _ _ _ _ _ Hb Hm Hk Hc Ht He) as Hf.
    exists key, rest, okf, d1, w1.
    repeat (split; [first [assumption|reflexivity]|]).
    destruct okf.
    + erewrite emitted_Ret; [|exact Hf|].
      2:{ unfold formatted. cbn [trace]. rewrite Ht1, <- app_assoc.
          reflexivity. }
      reflexivity.
    + destruct (MarkAsBroken_run d1 (formatted w1 d key out false o'))
        as (d' & w' & Hmb & _ & Htr).
      rewrite Hmb in Hf.
      erewrite emitted_Ret; [|exact Hf|].
      2:{ rewrite Htr. unfold formatted. cbn [trace].
          rewrite Ht1, <- !app_assoc. reflexivity. }
      reflexivity.
  - left.
    assert (Hs : ok = false \/ Type_ d1 <> DeviceTypeUnknown).
    { destruct ok; [right|left; reflexivity].
      intros Ht. apply Hn. split; [reflexivity|exact Ht]. }
    erewrite emitted_Ret;
      [|eapply Format_skip; [exact Hb|exact Hm|exact Hk|exact Hc|exact Hs]
       |exact Ht1].
    reflexivity.
Qed.

(** C4. FormatLUKSIfRequired returns the drive and the world as they are
    when the drive is broken or already mapped. Past these two guards it
    terminates the process with a Fatal log when no key is configured.
    With a key configured, it adds nothing to what Classify did unless
    Classify succeeds and reports Unknown; then it issues the one command
    [cryptsetup luksFormat <device>] and sets Type to LUKS when the
    command succeeds and marks the drive broken when it fails. A format
    command is therefore issued only on a drive that is neither broken nor
    mapped and that Classify reports as Unknown. *)
Theorem FormatLUKSIfRequired_cases (Config : Configuration) (d : Drive)
    (w : World) :
  (Broken d = true -> FormatLUKSIfRequired Config d w = Ret d w) /\
  (MappedDevicePath d <> "" -> FormatLUKSIfRequired Config d w = Ret d w) /\
  (Broken d = false -> MappedDevicePath d = "" -> Keys Config = [] ->
   FormatLUKSIfRequired Config d w
   = Stop ExitFatal
       (emit (EvLog LogFatal
                "FormatLUKSIfRequired called on %s, but no keys specified!"
                [AStr (DevicePath d)]) w)) /\
  (forall (key : Key) (rest : list Key) (ok : bool) (d1 : Drive)
          (w1 : World),
     Broken d = false -> MappedDevicePath d = "" ->
     Keys Config = key :: rest ->
     Classify d w = Ret (ok, d1) w1 ->
     (ok = false \/ Type_ d1 <> DeviceTypeUnknown ->
      FormatLUKSIfRequired Config d w = Ret d1 w1 /\
      commands (emitted (FormatLUKSIfRequired Config d) w) = []) /\
     (ok = true -> Type_ d1 = DeviceTypeUnknown ->
      forall (out : string) (okf : bool) (o' : OS),
        exec (formatCommand key) (formatArgv d) (os w1) = (out, okf, o') ->
        let w2 := formatted w1 d key out okf o' in
        (okf = true ->
         FormatLUKSIfRequired Config d w
         = Ret (set_Type DeviceTypeLUKS d) w2) /\
        (okf = false ->
         exists (d' : Drive) (w' : World),
           FormatLUKSIfRequired Config d w = Ret d' w' /\
           Broken d' = true /\
           trace w' = trace w2
                      ++ [EvCall "MarkAsBroken" [DevicePath d] false]))) /\
  (forall (c : Command) (argv : list string) (okf : bool),
     (c, argv, okf) ∈ commands (emitted (FormatLUKSIfRequired Config d) w) ->
     Broken d = false /\ MappedDevicePath d = "" /\
     argv = formatArgv d /\
     exists (d1 : Drive) (w1 : World),
       Classify d w = Ret (true, d1) w1 /\ Type_ d1 = DeviceTypeUnknown).
Proof.
  split; [apply Format_broken|]. split; [apply Format_mapped|].
  split; [apply Format_nokey|].
  split.
  - intros key rest ok d1 w1 Hb Hm Hk Hc.
    destruct (Classify_run d w) as (ok' & d1' & w1' & Hc' & Ht1 & _ & Hd1).
    rewrite Hc in Hc'. injection Hc' as <- <- <-.
    split.
    + intros Hs. split; [eapply Format_skip; eassumption|].
      erewrite emitted_Ret; [|eapply Format_skip; eassumption|exact Ht1].
      reflexivity.
    + intros -> Ht out okf o' He w2.
      rewrite (Format_run _ _ _ _ _ _ _ _ _ _ Hb Hm Hk Hc Ht He). fold w2.
      split; [intros ->; reflexivity|]. intros ->.
      destruct (MarkAsBroken_run d1 w2) as (d' & w' & Hmb & Hbr & Htr).
      exists d', w'. split; [exact Hmb|]. split; [exact Hbr|].
      rewrite Htr, Hd1. reflexivity.
  - intros c argv okf Hin.
    destruct (Format_commands Config d w)
      as [He|(key & rest & okf' & d1 & w1 & _ & Hb & Hm & Hc & Ht & He)];
      rewrite He in Hin.
    + inversion Hin.
    + apply list_elem_of_singleton in Hin. injection Hin as -> -> ->.
      split; [exact Hb|]. split; [exact Hm|]. split; [reflexivity|].
      exists d1, w1. split; [exact Hc|exact Ht].
Qed.

End Format_properties.

Lemma FormatLUKSIfRequired_cases_witness :
  let P := blankMachine true in
  let w := world0 P tt in
  FormatLUKSIfRequired twoKeys (set_Broken true sdb) w
  = Ret (set_Broken true sdb) w /\
  FormatLUKSIfRequired twoKeys (sdbMapped "/dev/mapper/x") w
  = Ret (sdbMapped "/dev/mapper/x") w /\
  stopped (FormatLUKSIfRequired noKeys sdb w) = true /\
  (exists w', FormatLUKSIfRequired twoKeys sdb w
              = Ret (set_Type DeviceTypeLUKS sdb) w') /\
  (exists d1 w1, Classify sdb w = Ret (true, d1) w1 /\
                 Type_ d1 = DeviceTypeUnknown).
Proof.
  intros P w.
  destruct (FormatLUKSIfRequired_cases (P := P) twoKeys
              (set_Broken true sdb) w) as (H1 & _).
  destruct (FormatLUKSIfRequired_cases (P := P) twoKeys
              (sdbMapped "/dev/mapper/x") w) as (_ & H2 & _).
  destruct (FormatLUKSIfRequired_cases (P := P) noKeys sdb w)
    as (_ & _ & H3 & _).
  destruct (FormatLUKSIfRequired_cases (P := P) twoKeys sdb w)
    as (_ & _ & _ & H4 & H5).
  split; [apply H1; reflexivity|].
  split; [apply H2; discriminate|].
  split; [rewrite H3; reflexivity|].
  split.
  - destruct (H4 {| Secret := "first" |} [ {| Secret := "second" |} ] true
                (set_Type DeviceTypeUnknown sdb)
                (worldAt P [EvCall "Classify" ["/dev/sdb"] false] tt)
                eq_refl eq_refl eq_refl eq_refl) as (_ & H6).
    destruct (H6 eq_refl eq_refl "" true tt eq_refl) as (H7 & _).
    eexists. apply H7. reflexivity.
  - destruct (H5 (formatCommand {| Secret := "first" |}) (formatArgv sdb) true)
      as (_ & _ & _ & H8); [vm_compute; left|exact H8].
Defined.

(** ** The keys: precedence and secrecy *)

Section Keys_properties.
Context `{P : Platform}.

Lemma openAttempts_elem (d : Drive) (keys : list Key) (oks : list bool)
    (c : Command) (argv : list string) (ok : bool) :
  (c, argv, ok) ∈ openAttempts d keys oks ->
  argv = openArgv d /\ exists key, key ∈ keys /\ c = openCommand key.
Proof.
  unfold openAttempts. revert oks.
  induction keys as [|key keys IH]; intros [|ok0 oks] Hin;
    try (inversion Hin; fail).
  simpl in Hin. apply elem_of_cons in Hin. destruct Hin as [Heq|Hin].
  - injection Heq as -> -> ->. split; [reflexivity|].
    exists key. split; [left|reflexivity].
  - destruct (IH oks Hin) as (Ha & key' & Hk & Hc).
    split; [exact Ha|]. exists key'. split; [right; exact Hk|exact Hc].
Qed.

(** C3. With a non-empty ordered key list: the commands of a run of
    OpenLUKS are attempts with the keys of the list in list order, the
    i-th command carrying the i-th key, and their outcomes are rejections
    followed by at most one acceptance, which is then the last command;
    the run makes no attempt at all, or ends on an acceptance, or has
    tried every key. A run of FormatLUKSIfRequired issues at most one
    command, and that command carries the first key of the list. *)
Theorem key_precedence (Config : Configuration) (d : Drive) (w : World)
    (key : Key) (rest : list Key) :
  Keys Config = key :: rest ->
  (exists oks : list bool,
     commands (emitted (OpenLUKS Config d) w)
     = openAttempts d (key :: rest) oks /\
     stopsAtFirst oks /\
     (length oks <= length (key :: rest))%nat /\
     (oks = [] \/ last oks = Some true \/
      length oks = length (key :: rest))) /\
  (length (commands (emitted (FormatLUKSIfRequired Config d) w)) <= 1)%nat /\
  (forall (c : Command) (argv : list string) (okf : bool),
     (c, argv, okf) ∈ commands (emitted (FormatLUKSIfRequired Config d) w) ->
     c = formatCommand key /\ Stdin c = Secret key +:+ LF).
Proof.
  intros Hk. split; [|split].
  - destruct (OpenLUKS_commands Config d w) as (oks & H). rewrite Hk in H.
    exists oks. exact H.
  - destruct (Format_commands Config d w)
      as [He|(key' & rest' & okf & d1 & w1 & _ & _ & _ & _ & _ & He)];
      rewrite He; simpl; lia.
  - intros c argv okf Hin.
    destruct (Format_commands Config d w)
      as [He|(key' & rest' & okf' & d1 & w1 & Hk' & _ & _ & _ & _ & He)];
      rewrite He in Hin.
    + inversion Hin.
    + rewrite Hk in Hk'. injection Hk' as <- <-.
      apply list_elem_of_singleton in Hin. injection Hin as -> -> ->.
      split; reflexivity.
Qed.

(** C9. Take two runs of OpenLUKS, or two runs of FormatLUKSIfRequired, on
    the same drive with any two configurations, from any two worlds. Any
    command of the one and any command of the other have the same
    argument list, which is built from the drive alone; the passphrase of
    a configured key is what is piped to the command's standard input;
    and the commands of OpenLUKS have [SkipLog] set. *)
Theorem argv_independent_of_secrets (Config1 Config2 : Configuration)
    (d : Drive) (w1 w2 : World) :
  (forall (c1 c2 : Command) (argv1 argv2 : list string) (ok1 ok2 : bool),
     (c1, argv1, ok1) ∈ commands (emitted (OpenLUKS Config1 d) w1) ->
     (c2, argv2, ok2) ∈ commands (emitted (OpenLUKS Config2 d) w2) ->
     argv1 = argv2 /\ argv1 = openArgv d /\ SkipLog c1 = true /\
     exists key, key ∈ Keys Config1 /\ Stdin c1 = Secret key +:+ LF) /\
  (forall (c1 c2 : Command) (argv1 argv2 : list string) (ok1 ok2 : bool),
     (c1, argv1, ok1)
       ∈ commands (emitted (FormatLUKSIfRequired Config1 d) w1) ->
     (c2, argv2, ok2)
       ∈ commands (emitted (FormatLUKSIfRequired Config2 d) w2) ->
     argv1 = argv2 /\ argv1 = formatArgv d /\
     exists key, key ∈ Keys Config1 /\ Stdin c1 = Secret key +:+ LF).
Proof.
  split.
  - intros c1 c2 argv1 argv2 ok1 ok2 H1 H2.
    destruct (OpenLUKS_commands Config1 d w1) as (oks1 & He1 & _).
    destruct (OpenLUKS_commands Config2 d w2) as (oks2 & He2 & _).
    rewrite He1 in H1. rewrite He2 in H2.
    apply openAttempts_elem in H1. apply openAttempts_elem in H2.
    destruct H1 as (-> & key & Hk & ->). destruct H2 as (-> & _).
    split; [reflexivity|]. split; [reflexivity|]. split; [reflexivity|].
    exists key. split; [exact Hk|reflexivity].
  - intros c1 c2 argv1 argv2 ok1 ok2 H1 H2.
    destruct (Format_commands Config1 d w1)
      as [He1|(key1 & rest1 & okf1 & ? & ? & Hk1 & _ & _ & _ & _ & He1)];
      rewrite He1 in H1; [inversion H1|].
    destruct (Format_commands Config2 d w2)
      as [He2|(key2 & rest2 & okf2 & ? & ? & Hk2 & _ & _ & _ & _ & He2)];
      rewrite He2 in H2; [inversion H2|].
    apply list_elem_of_singleton in H1. injection H1 as -> -> ->.
    apply list_elem_of_singleton in H2. injection H2 as -> -> ->.
    split; [reflexivity|]. split; [reflexivity|].
    exists key1. split; [rewrite Hk1; left|reflexivity].
Qed.

End Keys_properties.

Lemma key_precedence_witness :
  let P := luksMachine "second" in
  let w := world0 P tt in
  (exists oks : list bool,
     commands (emitted (OpenLUKS twoKeys sdb) w)
     = openAttempts sdb (Keys twoKeys) oks /\
     stopsAtFirst oks /\
     (length oks <= 2)%nat /\
     (oks = [] \/ last oks = Some true \/ length oks = 2%nat)) /\
  (length (commands (emitted (FormatLUKSIfRequired twoKeys sdb) w)) <= 1)%nat /\
  (forall (c : Command) (argv : list string) (okf : bool),
     (c, argv, okf) ∈ commands (emitted (FormatLUKSIfRequired twoKeys sdb) w) ->
     c = formatCommand {| Secret := "first" |} /\
     Stdin c = "first" +:+ LF).
Proof.
  intros P w.
  exact (key_precedence (P := P) twoKeys sdb w
           {| Secret := "first" |} [ {| Secret := "second" |} ] eq_refl).
Defined.

Lemma argv_independent_of_secrets_witness :
  let P := luksMachine "second" in
  let w := world0 P tt in
  (openCommand {| Secret := "second" |}, openArgv sdb, true)
    ∈ commands (emitted (OpenLUKS twoKeys sdb) w) /\
  (openCommand {| Secret := "beta" |}, openArgv sdb, false)
    ∈ commands (emitted (OpenLUKS otherKeys sdb) w) /\
  SkipLog (openCommand {| Secret := "second" |}) = true /\
  exists key, key ∈ Keys twoKeys /\
              Stdin (openCommand {| Secret := "second" |}) = Secret key +:+ LF.
Proof.
  intros P w.
  assert (H1 : (openCommand {| Secret := "second" |}, openArgv sdb, true)
                 ∈ commands (emitted (OpenLUKS twoKeys sdb) w)).
  { vm_compute. right. left. }
  assert (H2 : (openCommand {| Secret := "beta" |}, openArgv sdb, false)
                 ∈ commands (emitted (OpenLUKS otherKeys sdb) w)).
  { vm_compute. right. left. }
  split; [exact H1|]. split; [exact H2|].
  destruct (argv_independent_of_secrets (P := P) twoKeys otherKeys sdb w w)
    as (H & _).
  destruct (H _ _ _ _ _ _ H1 H2) as (_ & _ & Hs & Hk).
  split; [exact Hs|exact Hk].
Defined.

(** ** ScanLUKSMappings *)

Section Scan_properties.
Context `{P : Platform}.

Lemma find_from_shape (items : list Regexp.Item) (s : string)
    (prev : option ascii) (m : list string) :
  Regexp.find_from items prev s = Some m -> exists a b, m = [a; b].
Proof.
  revert prev. induction s as [|c s IH]; intros prev H; simpl in H.
  - destruct (Regexp.match_here items prev "" None) as [[cap rest]|];
      [|discriminate].
    injection H as <-. eexists _, _. reflexivity.
  - destruct (Regexp.match_here items prev (String c s) None)
      as [[cap rest]|].
    + injection H as <-. eexists _, _. reflexivity.
    + apply IH in H. exact H.
Qed.

Lemma backingDevice_None (out : string) :
  backingDevice out = None <->
  Regexp.FindStringSubmatch backingDeviceRx out = None.
Proof.
  unfold backingDevice.
  destruct (Regexp.FindStringSubmatch backingDeviceRx out) as [m|] eqn:Hf.
  - apply find_from_shape in Hf. destruct Hf as (a & b & ->). simpl.
    split; discriminate.
  - split; reflexivity.
Qed.

(** One status query: the process exits when the command fails, ends with
    the Fatal log when the output shows no device, and the device shown is
    returned otherwise. *)
Lemma getBackingDevicePath_run (mapName : string) (w : World) (out : string)
    (ok : bool) (o' : OS) :
  exec scanCommand (statusArgv mapName) (os w) = (out, ok, o') ->
  let w1 := {| trace := trace w
                 ++ [EvRun scanCommand (statusArgv mapName) out ok];
               os := o' |} in
  getBackingDevicePath mapName w
  = if ok then
      match backingDevice out with
      | Some p => Ret p w1
      | None =>
          Stop ExitFatal
            (emit (EvLog LogFatal
                     "cannot find backing device for /dev/mapper/%s"
                     [AStr mapName]) w1)
      end
    else Stop ExitOnErr w1.
Proof.
  intros He w1. unfold getBackingDevicePath.
  pose proof (Run_eq scanCommand (statusArgv mapName) w out ok o' He) as Hr.
  simpl in Hr. fold w1 in Hr.
  destruct ok; simpl in Hr.
  - rewrite (bind_Ret _ _ _ _ _ Hr). cbn [fst].
    unfold backingDevice.
    destruct (Regexp.FindStringSubmatch backingDeviceRx out) as [m|] eqn:Hf.
    + apply find_from_shape in Hf. destruct Hf as (a & b & ->). reflexivity.
    + reflexivity.
  - rewrite (bind_Stop _ _ _ _ _ Hr). reflexivity.
Qed.

(** How the loop over the lines ends: with the map, after one successful
    query per mapping name, each showing a device; or with the process
    gone after a query that failed or showed no device. *)
Lemma scanLines_run (lines : list string) (result : gmap string string)
    (w : World) :
  (exists (m : gmap string string) (w' : World) (l : list (string * string)),
     scanLines lines result w = Ret m w' /\
     trace w' = trace w ++ (statusEvent <$> l) /\
     fst <$> l = omap (fun line => head (Fields line)) lines /\
     Forall (fun q => is_Some (backingDevice (snd q))) l /\
     m = recorded l result)
  \/
  (exists (e : ExitKind) (w' : World) (l : list (string * string))
          (name out : string) (ok : bool),
     scanLines lines result w = Stop e w' /\
     Forall (fun q => is_Some (backingDevice (snd q))) l /\
     ((ok = false /\ e = ExitOnErr /\
       trace w' = trace w ++ (statusEvent <$> l)
                  ++ [EvRun scanCommand (statusArgv name) out false])
      \/
      (ok = true /\ e = ExitFatal /\ backingDevice out = None /\
       trace w' = trace w ++ (statusEvent <$> l)
                  ++ [EvRun scanCommand (statusArgv name) out true;
                      EvLog LogFatal
                        "cannot find backing device for /dev/mapper/%s"
                        [AStr name]]))).
Proof.
  revert result w. induction lines as [|line rest IH]; intros result w.
  - left. exists result, w, []. simpl. unfold ret.
    rewrite app_nil_r. repeat split. constructor.
  - cbn [scanLines omap list_omap].
    destruct (Fields line) as [|mapName fs] eqn:Hf.
    { simpl. apply IH. }
    simpl.
    destruct (exec scanCommand (statusArgv mapName) (os w))
      as [[out ok] o'] eqn:He.
    pose proof (getBackingDevicePath_run mapName w out ok o' He) as Hg.
    cbv zeta in Hg.
    destruct ok.
    + destruct (backingDevice out) as [p|] eqn:Hb.
      * rewrite (bind_Ret _ _ _ _ _ Hg).
        match goal with |- context [scanLines rest ?r ?w1] =>
          destruct (IH r w1)
            as [(m & w' & l & Hs & Ht & Hn & Hm & ->)
               |(e & w' & l & name & out' & ok' & Hs & Hm & Hcase)]
        end.
        -- left. exists (recorded l (<[p := mapName]> result)), w',
             ((mapName, out) :: l).
           split; [exact Hs|].
           split; [rewrite Ht; cbn [trace]; rewrite <- app_assoc;
                   reflexivity|].
           split; [rewrite fmap_cons; cbn [fst head]; f_equal; exact Hn|].
           split; [constructor; [simpl; rewrite Hb; eexists; reflexivity
                                |exact Hm]|].
           unfold recorded. simpl. rewrite Hb. reflexivity.
        -- right. exists e, w', ((mapName, out) :: l), name, out', ok'.
           split; [exact Hs|].
           split; [constructor; [simpl; rewrite Hb; eexists; reflexivity
                                |exact Hm]|].
           destruct Hcase as [(-> & -> & Ht)|(-> & -> & Hn & Ht)].
           ++ left. repeat split. rewrite Ht. cbn [trace].
              rewrite <- app_assoc. reflexivity.
           ++ right. repeat split; [exact Hn|]. rewrite Ht. cbn [trace].
              rewrite <- app_assoc. reflexivity.
      * rewrite (bind_Stop _ _ _ _ _ Hg).
        right. eexists ExitFatal, _, [], mapName, out, true.
        split; [reflexivity|]. split; [constructor|]. right.
        repeat split; [exact Hb|].
        unfold emit. cbn [trace]. rewrite <- app_assoc. reflexivity.
    + rewrite (bind_Stop _ _ _ _ _ Hg).
      right. eexists ExitOnErr, _, [], mapName, out, false.
      split; [reflexivity|]. split; [constructor|]. left.
      repeat split.
Qed.

Lemma goesOn_scan (out : string) (l : list (string * string)) :
  Forall (fun q => is_Some (backingDevice (snd q))) l ->
  Forall goesOn (EvRun scanCommand lsArgv out true :: (statusEvent <$> l)).
Proof.
  intros Hl. constructor.
  - exists scanCommand, lsArgv, out. split; [reflexivity|].
    intros name H. discriminate H.
  - induction Hl as [|[name o] l Hq _ IH]; [constructor|].
    rewrite fmap_cons. constructor; [|exact IH].
    exists scanCommand, (statusArgv name), o. split; [reflexivity|].
    intros name' H. exact Hq.
Qed.

Lemma goesOn_not_missing (evs : list Event) :
  Forall goesOn evs -> ~ deviceMissing evs.
Proof.
  intros Hg (name & out & Hin & Hn).
  rewrite Forall_forall in Hg. destruct (Hg _ Hin) as (c & argv & o & He & Hs).
  injection He as <- <- <-.
  destruct (Hs name eq_refl) as (p & Hp). congruence.
Qed.

Lemma goesOn_not_failed (evs : list Event) :
  Forall goesOn evs -> ~ commandFailed evs.
Proof.
  intros Hg (c & argv & out & Hin).
  rewrite Forall_forall in Hg. destruct (Hg _ Hin) as (c' & argv' & o & He & _).
  discriminate He.
Qed.

(** The three ways a scan ends: it returns the map; the process exits on a
    command that failed; the process ends with the Fatal log after a status
    query whose output shows no device. *)
Lemma Scan_run (w : World) :
  let evs := emitted ScanLUKSMappings w in
  (exists (out : string) (l : list (string * string))
          (m : gmap string string) (w' : World),
     ScanLUKSMappings w = Ret m w' /\
     evs = EvRun scanCommand lsArgv out true :: (statusEvent <$> l) /\
     Forall (fun q => is_Some (backingDevice (snd q))) l /\
     m = recorded l ∅ /\
     (TrimSpace out = "No devices found" -> l = []) /\
     (TrimSpace out <> "No devices found" -> fst <$> l = mappingNames out))
  \/
  (exists (w' : World) (pre : list Event) (c : Command)
          (argv : list string) (out : string),
     ScanLUKSMappings w = Stop ExitOnErr w' /\
     evs = pre ++ [EvRun c argv out false] /\ Forall goesOn pre)
  \/
  (exists (w' : World) (pre : list Event) (name out : string),
     ScanLUKSMappings w = Stop ExitFatal w' /\
     evs = pre ++ [EvRun scanCommand (statusArgv name) out true;
                   EvLog LogFatal
                     "cannot find backing device for /dev/mapper/%s"
                     [AStr name]] /\
     backingDevice out = None /\ Forall goesOn pre).
Proof.
  intros evs. subst evs.
  destruct (exec scanCommand lsArgv (os w)) as [[out ok] o'] eqn:He.
  pose proof (Run_eq scanCommand lsArgv w out ok o' He) as Hr.
  simpl in Hr. destruct ok; simpl in Hr.
  2:{ assert (Hstop : ScanLUKSMappings w
                      = Stop ExitOnErr
                          {| trace := trace w
                               ++ [EvRun scanCommand lsArgv out false];
                             os := o' |}).
      { unfold ScanLUKSMappings. unfold scanCommand, lsArgv in Hr.
        rewrite (bind_Stop _ _ _ _ _ Hr). reflexivity. }
      right. left. eexists _, [], scanCommand, lsArgv, out.
      split; [exact Hstop|]. split; [|constructor].
      eapply emitted_Stop; [exact Hstop|reflexivity]. }
  set (w1 := {| trace := trace w ++ [EvRun scanCommand lsArgv out true];
                os := o' |}) in *.
  assert (Hscan : ScanLUKSMappings w
                  = (if decide (TrimSpace out = "No devices found")
                     then ret ∅ else scanLines (SplitLF out) ∅) w1).
  { unfold ScanLUKSMappings. unfold scanCommand, lsArgv in Hr.
    rewrite (bind_Ret _ _ _ _ _ Hr). reflexivity. }
  destruct (decide (TrimSpace out = "No devices found")) as [Hs|Hs].
  { left. exists out, [], ∅, w1. unfold ret in Hscan.
    split; [exact Hscan|].
    split; [eapply emitted_Ret; [exact Hscan|reflexivity]|].
    split; [constructor|]. split; [reflexivity|].
    split; [reflexivity|]. intros H. contradiction. }
  destruct (scanLines_run (SplitLF out) ∅ w1)
    as [(m & w' & l & Hsc & Ht & Hn & Hm & ->)
       |(e & w' & l & name & out' & ok' & Hsc & Hm & Hcase)];
    rewrite Hsc in Hscan.
  - left. exists out, l, (recorded l ∅), w'.
    split; [exact Hscan|].
    split.
    { eapply emitted_Ret; [exact Hscan|].
      rewrite Ht. unfold w1. cbn [trace]. rewrite <- app_assoc.
      reflexivity. }
    split; [exact Hm|]. split; [reflexivity|].
    split; [intros H; contradiction|]. intros _. exact Hn.
  - right.
    assert (Hem : forall tl,
               trace w' = trace w1 ++ (statusEvent <$> l) ++ tl ->
               emitted ScanLUKSMappings w
               = (EvRun scanCommand lsArgv out true :: (statusEvent <$> l))
                   ++ tl).
    { intros tl Ht. eapply emitted_Stop; [exact Hscan|].
      rewrite Ht. unfold w1. cbn [trace]. rewrite <- !app_assoc.
      reflexivity. }
    destruct Hcase as [(-> & -> & Ht)|(-> & -> & Hn & Ht)].
    + left.
      exists w', (EvRun scanCommand lsArgv out true :: (statusEvent <$> l)),
        scanCommand, (statusArgv name), out'.
      split; [exact Hscan|]. split; [apply Hem; exact Ht|].
      apply goesOn_scan. exact Hm.
    + right.
      exists w', (EvRun scanCommand lsArgv out true :: (statusEvent <$> l)),
        name, out'.
      split; [exact Hscan|]. split; [apply Hem; exact Ht|].
      split; [exact Hn|]. apply goesOn_scan. exact Hm.
Qed.

(** C7, as amended. When the listing succeeds with the sentinel output,
    ScanLUKSMappings returns the empty map after that one command. When it
    returns a map, it has run the listing and then one status query per
    mapping name listed, in order (none after the sentinel), each output
    showing a backing device, and the map holds, for each query, backing
    device -> mapping name. The process terminates if and only if a
    command of the scan fails (both run with exit-on-error) or a status
    query succeeds with an output that shows no device; it terminates
    through the Fatal log if and only if a status query succeeds with an
    output that shows no device. *)
Theorem ScanLUKSMappings_cases (w : World) :
  let evs := emitted ScanLUKSMappings w in
  (forall (out : string) (o' : OS),
     exec scanCommand lsArgv (os w) = (out, true, o') ->
     TrimSpace out = "No devices found" ->
     ScanLUKSMappings w
     = Ret ∅ {| trace := trace w ++ [EvRun scanCommand lsArgv out true];
                os := o' |}) /\
  (forall (m : gmap string string) (w' : World),
     ScanLUKSMappings w = Ret m w' ->
     exists (out : string) (l : list (string * string)),
       evs = EvRun scanCommand lsArgv out true :: (statusEvent <$> l) /\
       Forall (fun q => is_Some (backingDevice (snd q))) l /\
       m = recorded l ∅ /\
       (TrimSpace out = "No devices found" -> l = []) /\
       (TrimSpace out <> "No devices found" ->
        fst <$> l = mappingNames out)) /\
  (stopped (ScanLUKSMappings w) = true <->
   commandFailed evs \/ deviceMissing evs) /\
  ((exists w', ScanLUKSMappings w = Stop ExitFatal w') <->
   deviceMissing evs).
Proof.
  intros evs. split; [|split; [|split]].
  - intros out o' He Hs.
    pose proof (Run_eq scanCommand lsArgv w out true o' He) as Hr.
    simpl in Hr. unfold ScanLUKSMappings. unfold scanCommand, lsArgv in Hr.
    rewrite (bind_Ret _ _ _ _ _ Hr). cbn [fst].
    rewrite decide_True by exact Hs. reflexivity.
  - intros m w' Hret.
    destruct (Scan_run w)
      as [(out & l & m0 & w0 & Hs & He & Hm & -> & H1 & H2)
         |[(w0 & pre & c & argv & out & Hs & _)
          |(w0 & pre & name & out & Hs & _)]];
      rewrite Hs in Hret; try discriminate Hret.
    injection Hret as <- <-. exists out, l.
    split; [exact He|]. split; [exact Hm|]. split; [reflexivity|].
    split; assumption.
  - destruct (Scan_run w)
      as [(out & l & m0 & w0 & Hs & He & Hm & _)
         |[(w0 & pre & c & argv & out & Hs & He & Hg)
          |(w0 & pre & name & out & Hs & He & Hn & Hg)]];
      fold evs in He; rewrite Hs; simpl.
    + split; [discriminate|]. intros [Hf|Hd]; exfalso.
      * apply (goesOn_not_failed evs); [|exact Hf].
        rewrite He. apply goesOn_scan. exact Hm.
      * apply (goesOn_not_missing evs); [|exact Hd].
        rewrite He. apply goesOn_scan. exact Hm.
    + split; [|reflexivity]. intros _. left.
      exists c, argv, out. rewrite He. apply elem_of_app. right. left.
    + split; [|reflexivity]. intros _. right.
      exists name, out. split; [|exact Hn].
      rewrite He. apply elem_of_app. right. left.
  - destruct (Scan_run w)
      as [(out & l & m0 & w0 & Hs & He & Hm & _)
         |[(w0 & pre & c & argv & out & Hs & He & Hg)
          |(w0 & pre & name & out & Hs & He & Hn & Hg)]];
      fold evs in He; rewrite Hs.
    + split; [intros (w' & H); discriminate H|]. intros Hd. exfalso.
      apply (goesOn_not_missing evs); [|exact Hd].
      rewrite He. apply goesOn_scan. exact Hm.
    + split; [intros (w' & H); discriminate H|].
      intros (name & o & Hin & Hn). exfalso.
      rewrite He in Hin. apply elem_of_app in Hin.
      destruct Hin as [Hin|Hin].
      * apply (goesOn_not_missing pre Hg). exists name, o.
        split; assumption.
      * apply list_elem_of_singleton in Hin. discriminate Hin.
    + split; [|intros _; exists w0; reflexivity].
      intros _. exists name, out. split; [|exact Hn].
      rewrite He. apply elem_of_app. right. left.
Qed.

End Scan_properties.

(** The claim C7 as it stands fails in its "only if": on a machine where
    the listing command fails, the process terminates after that one
    command, and no status query has shown an output without a device. *)
Lemma Scan_exits_on_failed_listing :
  let w := world0 failingMachine tt in
  stopped (ScanLUKSMappings w) = true /\
  emitted ScanLUKSMappings w = [EvRun scanCommand lsArgv "" false] /\
  ~ deviceMissing (emitted ScanLUKSMappings w).
Proof.
  intros w. split; [reflexivity|]. split; [reflexivity|].
  intros (name & out & Hin & _).
  change (emitted ScanLUKSMappings w)
    with [EvRun scanCommand lsArgv "" false] in Hin.
  apply list_elem_of_singleton in Hin. discriminate Hin.
Qed.

Lemma ScanLUKSMappings_cases_witness :
  (exists w', ScanLUKSMappings (world0 noMappings tt) = Ret ∅ w') /\
  (exists (m : gmap string string) (w' : World) (l : list (string * string)),
     ScanLUKSMappings (world0 twoMappings tt) = Ret m w' /\
     m = recorded l ∅ /\ fst <$> l = ["swift1"; "swift2"] /\
     m !! "/dev/sdb" = Some "swift1" /\ m !! "/dev/sdc" = Some "swift2") /\
  (exists w', ScanLUKSMappings (world0 brokenStatus tt) = Stop ExitFatal w').
Proof.
  split; [|split].
  - destruct (ScanLUKSMappings_cases (P := noMappings) (world0 noMappings tt))
      as (H & _).
    eexists. apply (H ("No devices found" +:+ LF) tt); reflexivity.
  - destruct (ScanLUKSMappings_cases (P := twoMappings)
                (world0 twoMappings tt)) as (_ & H & _).
    destruct (ScanLUKSMappings (world0 twoMappings tt)) as [m w'|e w'] eqn:Hs;
      [|vm_compute in Hs; discriminate Hs].
    destruct (H m w' eq_refl) as (out & l & He & _ & Hm & _ & Hn).
    vm_compute in He. injection He as Hout _. subst out.
    exists m, w', l. split; [reflexivity|]. split; [exact Hm|].
    split; [rewrite Hn; [reflexivity|vm_compute; discriminate]|].
    vm_compute in Hs. injection Hs as <- _. split; reflexivity.
  - destruct (ScanLUKSMappings_cases (P := brokenStatus)
                (world0 brokenStatus tt)) as (_ & _ & _ & H).
    apply H. exists "swift1", ("/dev/mapper/swift1 is inactive." +:+ LF).
    split; [vm_compute; right; left|reflexivity].
Defined.

(** *** The table of a scan has no empty mapping name *)

Section Scan_names.
Context `{P : Platform}.

Lemma rev_acc_nonempty (s acc : string) :
  acc <> "" -> GoStrings.rev_acc s acc <> "".
Proof.
  revert acc. induction s as [|c s IH]; intros acc Ha; simpl; [exact Ha|].
  apply IH. discriminate.
Qed.

Lemma fields_go_nonempty (s : string) (cur : option string) (x : string) :
  (forall f, cur = Some f -> f <> "") ->
  x ∈ GoStrings.fields_go s cur -> x <> "".
Proof.
  revert cur. induction s as [|c s IH]; intros cur Hcur Hin; simpl in Hin.
  - destruct cur as [f|]; [|inversion Hin].
    apply list_elem_of_singleton in Hin. subst x.
    specialize (Hcur f eq_refl). destruct f as [|a f]; [contradiction|].
    unfold GoStrings.rev. simpl. apply rev_acc_nonempty. discriminate.
  - destruct (isSpace c).
    + destruct cur as [f|].
      * apply elem_of_cons in Hin. destruct Hin as [->|Hin].
        -- specialize (Hcur f eq_refl). destruct f as [|a f]; [contradiction|].
           unfold GoStrings.rev. simpl. apply rev_acc_nonempty. discriminate.
        -- apply (IH None); [discriminate|exact Hin].
      * apply (IH None); [discriminate|exact Hin].
    + destruct cur as [f|].
      * apply (IH (Some (String c f))); [|exact Hin].
        intros f' H. injection H as <-. discriminate.
      * apply (IH (Some (String c ""))); [|exact Hin].
        intros f' H. injection H as <-. discriminate.
Qed.

Lemma mappingNames_nonempty (out name : string) :
  name ∈ mappingNames out -> name <> "".
Proof.
  unfold mappingNames. intros Hin. apply list_elem_of_omap in Hin.
  destruct Hin as (line & _ & Hh). apply head_Some in Hh.
  destruct Hh as (rest & Hf).
  apply (fields_go_nonempty line None); [discriminate|].
  unfold Fields in Hf. rewrite Hf. left.
Qed.

Lemma recorded_values (l : list (string * string))
    (m0 : gmap string string) (k v : string) :
  recorded l m0 !! k = Some v -> v ∈ fst <$> l \/ m0 !! k = Some v.
Proof.
  unfold recorded. revert m0.
  induction l as [|[name out] l IH]; intros m0 H; simpl in H.
  - right. exact H.
  - apply IH in H. destruct H as [H|H].
    + left. rewrite fmap_cons. right. exact H.
    + rewrite lookup_insert in H. case_decide.
      * injection H as <-. left. rewrite fmap_cons. left.
      * right. exact H.
Qed.

(** In the table ScanLUKSMappings returns, no device is mapped to the
    empty name: for CheckLUKS, "the kernel reports no active mapping" is
    the absence of the device path from the table. *)
Lemma Scan_index (w w' : World) (m : gmap string string) (k : string) :
  ScanLUKSMappings w = Ret m w' ->
  (index m k = "" <-> m !! k = None).
Proof.
  intros Hret.
  assert (Hval : forall v, m !! k = Some v -> v <> "").
  { intros v Hv.
    destruct (Scan_run w)
      as [(out & l & m0 & w0 & Hs & _ & _ & -> & H1 & H2)
         |[(w0 & pre & c & argv & out & Hs & _)
          |(w0 & pre & name & out & Hs & _)]];
      rewrite Hs in Hret; try discriminate Hret.
    injection Hret as <- <-.
    apply recorded_values in Hv. destruct Hv as [Hv|Hv];
      [|rewrite lookup_empty in Hv; discriminate Hv].
    destruct (decide (TrimSpace out = "No devices found")) as [Hsent|Hsent].
    - rewrite (H1 Hsent) in Hv. inversion Hv.
    - rewrite (H2 Hsent) in Hv. apply (mappingNames_nonempty out). exact Hv. }
  unfold index. destruct (m !! k) as [v|] eqn:Hk; simpl.
  - split; [|discriminate]. intros ->. exfalso. apply (Hval "" eq_refl).
    reflexivity.
  - split; reflexivity.
Qed.

End Scan_names.

(** ** The mount pass *)

Section Main_properties.
Context `{S : Stages}.

Lemma call_run {A : Type} (fn : string) (args : list string)
    (failed : A -> bool) (f : OS -> A * OS) (w : World) (a : A) (o' : OS) :
  f (os w) = (a, o') ->
  call fn args failed f w
  = Ret a {| trace := trace w ++ [EvCall fn args (failed a)]; os := o' |}.
Proof. intros H. unfold call. rewrite H. reflexivity. Qed.

(** The first loop runs over every drive, whatever fails on the way. *)
Lemma mountLoop_run (drivePaths : list string) (allMounts : MountPoints)
    (failed : bool) (mountPaths : list string) (w : World) :
  exists (rs : list (string * (string * option string))) (w' : World),
    mountLoop drivePaths allMounts failed mountPaths w
    = Ret (failed || anyError (snd ∘ snd <$> rs), mountPaths ++ mounted rs) w'
    /\ trace w' = trace w ++ mountEvents rs
    /\ fst <$> rs = (fun p => "/" +:+ p) <$> drivePaths.
Proof.
  revert failed mountPaths w.
  induction drivePaths as [|drivePath rest IH]; intros failed mountPaths w.
  - exists [], w. simpl. unfold ret.
    rewrite orb_false_r, !app_nil_r. repeat split.
  - cbn [mountLoop]. unfold MountDevice.
    destruct (mountDevice ("/" +:+ drivePath) allMounts (os w))
      as [[mountPath err] o'] eqn:Hm.
    rewrite (bind_Ret _ _ _ _ _ (call_run _ _ _ _ _ _ _ Hm)). cbn [fst snd].
    destruct err as [msg|].
    + rewrite (bind_Ret _ _ _ _ _ (Log_Ret LogError _ _ _ ltac:(discriminate))).
      match goal with |- context [mountLoop rest allMounts true mountPaths ?w1] =>
        destruct (IH true mountPaths w1) as (rs & w' & Hl & Ht & Hp)
      end.
      exists (("/" +:+ drivePath, (mountPath, Some msg)) :: rs), w'.
      split; [rewrite Hl; simpl; rewrite orb_true_r; reflexivity|].
      split; [rewrite Ht; unfold emit; cbn [trace]; rewrite <- !app_assoc;
              reflexivity|].
      rewrite !fmap_cons, Hp. reflexivity.
    + match goal with
      |- context [mountLoop rest allMounts failed (mountPaths ++ [mountPath]) ?w1] =>
        destruct (IH failed (mountPaths ++ [mountPath]) w1)
          as (rs & w' & Hl & Ht & Hp)
      end.
      exists (("/" +:+ drivePath, (mountPath, None)) :: rs), w'.
      split; [rewrite Hl; simpl; rewrite <- app_assoc; reflexivity|].
      split; [rewrite Ht; cbn [trace]; rewrite <- !app_assoc; reflexivity|].
      rewrite !fmap_cons, Hp. reflexivity.
Qed.

(** The second loop runs over every pair, whatever fails on the way. *)
Lemma finalLoop_run (mountsByID : list (string * string))
    (allMounts : MountPoints) (failed : bool) (w : World) :
  exists (fs : list (string * string * option string)) (w' : World),
    finalLoop mountsByID allMounts failed w
    = Ret (failed || anyError (snd <$> fs)) w'
    /\ trace w' = trace w ++ finalEvents fs
    /\ fst <$> fs = mountsByID.
Proof.
  revert failed w.
  induction mountsByID as [|[swiftID device] rest IH]; intros failed w.
  - exists [], w. simpl. unfold ret. rewrite orb_false_r, app_nil_r.
    repeat split.
  - cbn [finalLoop]. unfold ExecuteFinalMount.
    destruct (executeFinalMount device swiftID allMounts (os w))
      as [err o'] eqn:Hm.
    rewrite (bind_Ret _ _ _ _ _ (call_run _ _ _ _ _ _ _ Hm)).
    destruct err as [msg|].
    + rewrite (bind_Ret _ _ _ _ _ (Log_Ret LogError _ _ _ ltac:(discriminate))).
      match goal with |- context [finalLoop rest allMounts true ?w1] =>
        destruct (IH true w1) as (fs & w' & Hl & Ht & Hp)
      end.
      exists ((swiftID, device, Some msg) :: fs), w'.
      split; [rewrite Hl; simpl; rewrite orb_true_r; reflexivity|].
      split; [rewrite Ht; unfold emit; cbn [trace]; rewrite <- !app_assoc;
              reflexivity|].
      rewrite !fmap_cons, Hp. reflexivity.
    + rewrite (bind_Ret _ _ _ _ _ (Log_Ret LogInfo _ _ _ ltac:(discriminate))).
      match goal with |- context [finalLoop rest allMounts failed ?w1] =>
        destruct (IH failed w1) as (fs & w' & Hl & Ht & Hp)
      end.
      exists ((swiftID, device, None) :: fs), w'.
      split; [rewrite Hl; reflexivity|].
      split; [rewrite Ht; unfold emit; cbn [trace]; rewrite <- !app_assoc;
              reflexivity|].
      rewrite !fmap_cons, Hp. reflexivity.
Qed.

Lemma errors_mountEvents (rs : list (string * (string * option string))) :
  errors (mountEvents rs) = [] <-> anyError (snd ∘ snd <$> rs) = false.
Proof.
  induction rs as [|[path [mp [msg|]]] rest IH]; simpl.
  - split; reflexivity.
  - split; discriminate.
  - exact IH.
Qed.

Lemma errors_finalEvents (fs : list (string * string * option string)) :
  errors (finalEvents fs) = [] <-> anyError (snd <$> fs) = false.
Proof.
  induction fs as [|[[id dev] [msg|]] rest IH]; simpl.
  - split; reflexivity.
  - split; discriminate.
  - exact IH.
Qed.

Lemma errors_touchEvents (err : option string) :
  errors (touchEvents err) = [] <-> not_nil err = false.
Proof. destruct err; simpl; split; (reflexivity || discriminate). Qed.

Lemma rescan_run (rs : list (string * (string * option string)))
    (allMounts : MountPoints) (w : World) :
  (exists (msg : string) (w' : World),
     mounted rs <> [] /\
     rescan (mounted rs) allMounts w = Stop ExitFatal w' /\
     trace w' = trace w ++ [EvCall "ScanMountPoints" [] true;
                            EvLog LogFatal "list mount points: %s"
                              [AStr msg]])
  \/
  (exists (mounts : MountPoints) (w' : World),
     rescan (mounted rs) allMounts w = Ret mounts w' /\
     trace w' = trace w ++ rescanEvents rs).
Proof.
  unfold rescan, rescanEvents.
  destruct (mounted rs) as [|mp mps] eqn:Hm.
  - right. exists allMounts, w. simpl. unfold ret.
    rewrite app_nil_r. split; reflexivity.
  - rewrite decide_True by (simpl; lia). unfold ScanMountPoints.
    destruct (scanMountPoints (os w)) as [[mounts err] o'] eqn:Hs.
    rewrite (bind_Ret _ _ _ _ _ (call_run _ _ _ _ _ _ _ Hs)). cbn [fst snd].
    destruct err as [msg|].
    + left. eexists msg, _. split; [discriminate|].
      split; [reflexivity|]. unfold emit. cbn [trace].
      rewrite <- app_assoc. reflexivity.
    + right. eexists mounts, _. unfold ret. split; reflexivity.
Qed.

Lemma markReady_run (failed : bool) (w : World) :
  exists (touch : option string) (w' : World),
    markReady failed w = Ret (failed || not_nil touch) w' /\
    trace w' = trace w ++ touchEvents touch.
Proof.
  unfold markReady, ExecSimple.
  destruct (execSimple ExecChroot ["touch"; "/srv/node/ready"] (os w))
    as [[out err] o'] eqn:He.
  rewrite (bind_Ret _ _ _ _ _ (call_run _ _ _ _ _ _ _ He)). cbn [fst snd].
  destruct err as [msg|].
  - rewrite (bind_Ret _ _ _ _ _ (Log_Ret LogError _ _ _ ltac:(discriminate))).
    eexists (Some msg), _. unfold ret. rewrite orb_true_r.
    split; [reflexivity|]. unfold emit. cbn [trace].
    rewrite <- app_assoc. reflexivity.
  - eexists None, _. unfold ret. rewrite orb_false_r.
    split; reflexivity.
Qed.

(** An Error line is logged exactly when a mount, a final mount or the
    touch reported a failure. *)
Lemma failed_iff_errors (rs : list (string * (string * option string)))
    (fs : list (string * string * option string)) (sf : bool)
    (touch : option string) (tail : list Event) :
  errors tail = [] ->
  anyError (snd ∘ snd <$> rs) || sf || anyError (snd <$> fs)
  || not_nil touch = true <->
  errors (mountEvents rs ++ rescanEvents rs
          ++ [EvCall "ScanSwiftID" [] sf]
          ++ finalEvents fs ++ touchEvents touch ++ tail) <> []
  \/ sf = true.
Proof.
  intros Htail.
  assert (Hshape : errors (mountEvents rs ++ rescanEvents rs
                           ++ [EvCall "ScanSwiftID" [] sf]
                           ++ finalEvents fs ++ touchEvents touch ++ tail)
                   = errors (mountEvents rs) ++ errors (finalEvents fs)
                     ++ errors (touchEvents touch)).
  { rewrite !errors_app, Htail, app_nil_r.
    assert (Hre : errors (rescanEvents rs) = [])
      by (unfold rescanEvents; destruct (mounted rs); reflexivity).
    rewrite Hre. reflexivity. }
  rewrite Hshape.
  pose proof (errors_mountEvents rs) as H1.
  pose proof (errors_finalEvents fs) as H2.
  pose proof (errors_touchEvents touch) as H3.
  remember (anyError (snd ∘ snd <$> rs)) as a eqn:Ea.
  remember (anyError (snd <$> fs)) as b eqn:Eb.
  remember (not_nil touch) as c eqn:Ec.
  assert (Hnil : errors (mountEvents rs) ++ errors (finalEvents fs)
                 ++ errors (touchEvents touch) = [] <->
                 a = false /\ b = false /\ c = false).
  { split.
    - intros H. apply app_eq_nil in H. destruct H as [Ha H].
      apply app_eq_nil in H. destruct H as [Hb Hc].
      split; [apply H1; exact Ha|]. split; [apply H2; exact Hb|].
      apply H3; exact Hc.
    - intros (Ha & Hb & Hc).
      apply H1 in Ha. apply H2 in Hb. apply H3 in Hc.
      rewrite Ha, Hb, Hc. reflexivity. }
  split.
  - intros Hf. destruct sf; [right; reflexivity|]. left. intros Hn.
    apply Hnil in Hn. destruct Hn as (-> & -> & ->). discriminate Hf.
  - intros [Hn| ->]; [|destruct a; reflexivity].
    destruct a; [reflexivity|]. destruct sf; [reflexivity|].
    destruct b; [reflexivity|]. destruct c; [reflexivity|].
    exfalso. apply Hn. apply Hnil. repeat split.
Qed.

(** C5. Every run of the mount pass calls MountDevice for every drive, in
    order: [rs] has one entry per drive, and a failure among them is
    followed by its Error line and by the calls for the remaining drives.
    Unless the process ends with the Fatal log of a failed rescan of the
    mount points, the run goes on to the identity scan, calls
    ExecuteFinalMount for every pair the scan returned, a failure being
    followed by its Error line and the remaining pairs, and touches
    /srv/node/ready whatever failed before; the process then exits with
    status 1 when a call reported a failure, which is when an Error line
    was logged or the identity scan reported one, and returns (status 0)
    otherwise. *)
Theorem mountPass_cases (drivePaths : list string) (allMounts : MountPoints)
    (w : World) :
  let evs := emitted (mountPass drivePaths allMounts) w in
  exists rs : list (string * (string * option string)),
    fst <$> rs = (fun p => "/" +:+ p) <$> drivePaths /\
    ((exists (msg : string) (w' : World),
        mounted rs <> [] /\
        mountPass drivePaths allMounts w = Stop ExitFatal w' /\
        evs = mountEvents rs
              ++ [EvCall "ScanMountPoints" [] true;
                  EvLog LogFatal "list mount points: %s" [AStr msg]])
     \/
     (exists (fs : list (string * string * option string)) (sf : bool)
             (touch : option string) (mounts : MountPoints) (o o' : OS)
             (w' : World),
        scanSwiftID mounts o = ((fst <$> fs, sf), o') /\
        let failed :=
          anyError (snd ∘ snd <$> rs) || sf || anyError (snd <$> fs)
          || not_nil touch in
        evs = mountEvents rs ++ rescanEvents rs
              ++ [EvCall "ScanSwiftID" [] sf]
              ++ finalEvents fs ++ touchEvents touch
              ++ (if failed
                  then [EvLog LogInfo "completed with errors, see above" []]
                  else []) /\
        mountPass drivePaths allMounts w
        = (if failed then Stop (ExitStatus 1) w' else Ret tt w') /\
        (failed = true <-> errors evs <> [] \/ sf = true))).
Proof.
  intros evs. subst evs.
  destruct (mountLoop_run drivePaths allMounts false [] w)
    as (rs & w1 & Hl & Ht1 & Hp).
  simpl in Hl. exists rs. split; [exact Hp|].
  assert (Hpass1 : mountPass drivePaths allMounts w
                   = (let* allMounts := rescan (mounted rs) allMounts in
                      let* (mountsByID, scanFailed) := ScanSwiftID allMounts in
                      let failed := if scanFailed then true
                                    else anyError (snd ∘ snd <$> rs) in
                      let* failed := finalLoop mountsByID allMounts failed in
                      let* failed := markReady failed in
                      if failed then
                        Log LogInfo "completed with errors, see above" [] ;;
                        osExit 1
                      else ret tt) w1).
  { unfold mountPass. rewrite (bind_Ret _ _ _ _ _ Hl). reflexivity. }
  destruct (rescan_run rs allMounts w1)
    as [(msg & w2 & Hne & Hr & Ht2)|(mounts & w2 & Hr & Ht2)].
  { left. exists msg, w2. rewrite (bind_Stop _ _ _ _ _ Hr) in Hpass1.
    split; [exact Hne|]. split; [exact Hpass1|].
    eapply emitted_Stop; [exact Hpass1|].
    rewrite Ht2, Ht1, <- app_assoc. reflexivity. }
  right. rewrite (bind_Ret _ _ _ _ _ Hr) in Hpass1.
  unfold ScanSwiftID in Hpass1.
  destruct (scanSwiftID mounts (os w2)) as [[ids sf] o3] eqn:Hs.
  rewrite (bind_Ret _ _ _ _ _ (call_run _ _ _ _ _ _ _ Hs)) in Hpass1.
  cbv beta iota zeta in Hpass1. cbn [snd] in Hpass1.
  match type of Hpass1 with
  | _ = bind (finalLoop ids mounts ?f) _ ?w3 =>
      destruct (finalLoop_run ids mounts f w3) as (fs & w4 & Hf & Ht4 & Hids)
  end.
  rewrite (bind_Ret _ _ _ _ _ Hf) in Hpass1.
  match type of Hpass1 with
  | _ = bind (markReady ?f) _ _ =>
      destruct (markReady_run f w4) as (touch & w5 & Hm & Ht5)
  end.
  rewrite (bind_Ret _ _ _ _ _ Hm) in Hpass1.
  assert (Hfailed : (if sf then true else anyError (snd ∘ snd <$> rs))
                    || anyError (snd <$> fs) || not_nil touch
                    = anyError (snd ∘ snd <$> rs) || sf
                      || anyError (snd <$> fs) || not_nil touch).
  { destruct sf; [rewrite orb_true_r|rewrite orb_false_r]; reflexivity. }
  rewrite Hfailed in Hpass1.
  assert (Htrace : trace w5
                   = trace w ++ mountEvents rs ++ rescanEvents rs
                     ++ [EvCall "ScanSwiftID" [] sf]
                     ++ finalEvents fs ++ touchEvents touch).
  { rewrite Ht5, Ht4. cbn [trace]. rewrite Ht2, Ht1, <- !app_assoc.
    reflexivity. }
  pose proof (failed_iff_errors rs fs sf touch
                [EvLog LogInfo "completed with errors, see above" []]
                eq_refl) as Herr1.
  pose proof (failed_iff_errors rs fs sf touch [] eq_refl) as Herr2.
  destruct (anyError (snd ∘ snd <$> rs) || sf || anyError (snd <$> fs)
            || not_nil touch) eqn:Hfl.
  - rewrite (bind_Ret _ _ _ _ _ (Log_Ret LogInfo _ _ w5 ltac:(discriminate)))
      in Hpass1.
    unfold osExit in Hpass1.
    eexists fs, sf, touch, mounts, (os w2), o3, _.
    rewrite Hids. split; [exact Hs|]. cbv zeta. rewrite Hfl.
    assert (Hev : emitted (mountPass drivePaths allMounts) w
                  = mountEvents rs ++ rescanEvents rs
                    ++ [EvCall "ScanSwiftID" [] sf]
                    ++ finalEvents fs ++ touchEvents touch
                    ++ [EvLog LogInfo "completed with errors, see above" []]).
    { eapply emitted_Stop; [exact Hpass1|].
      unfold emit. cbn [trace]. rewrite Htrace, <- !app_assoc.
      reflexivity. }
    split; [exact Hev|]. split; [exact Hpass1|].
    rewrite Hev. exact Herr1.
  - unfold ret in Hpass1.
    eexists fs, sf, touch, mounts, (os w2), o3, _.
    rewrite Hids. split; [exact Hs|]. cbv zeta. rewrite Hfl.
    assert (Hev : emitted (mountPass drivePaths allMounts) w
                  = mountEvents rs ++ rescanEvents rs
                    ++ [EvCall "ScanSwiftID" [] sf]
                    ++ finalEvents fs ++ touchEvents touch ++ []).
    { eapply emitted_Ret; [exact Hpass1|].
      rewrite Htrace, app_nil_r. reflexivity. }
    split; [exact Hev|]. split; [exact Hpass1|].
    rewrite Hev. exact Herr2.
Qed.

End Main_properties.

(** ** Worked runs *)

(** One drive fails to mount: the other is mounted and promoted all the
    same, the readiness marker is touched, and the process exits with
    status 1. *)
Example mountPass_one_bad_drive :
  @mountPass failingMachine sdbFails ["dev/sdb"; "dev/sdc"] tt
    (world0 failingMachine tt)
  = Stop (ExitStatus 1)
      (worldAt failingMachine
         [EvCall "MountDevice" ["/dev/sdb"] true;
          EvLog LogError "cannot mount /dev/sdb" [];
          EvCall "MountDevice" ["/dev/sdc"] false;
          EvCall "ScanMountPoints" [] false;
          EvCall "ScanSwiftID" [] false;
          EvCall "ExecuteFinalMount" ["/dev/sdc"; "swift1"] false;
          EvLog LogInfo "%s is mounted on /srv/node/%s"
            [AStr "/dev/sdc"; AStr "swift1"];
          EvCall "ExecSimple" ["touch"; "/srv/node/ready"] false;
          EvLog LogInfo "completed with errors, see above" []]
         tt).
Proof. reflexivity. Qed.

(** After a restart, the scan finds [/dev/sdb] open as [swift1] and
    CheckLUKS adopts the mapping. *)
Example scanThenCheck_discovers :
  exists w',
    @scanThenCheck twoMappings sdb (world0 twoMappings tt)
    = Ret (set_StartedOutEmpty false (sdbMapped "/dev/mapper/swift1")) w'.
Proof. eexists. vm_compute. reflexivity. Qed.

(** OpenLUKS with the second key accepted: two attempts, in order, and the
    drive mapped under its mapper name. *)
Example OpenLUKS_second_key :
  commands (@emitted (luksMachine "second") _ (OpenLUKS twoKeys sdb)
              (world0 (luksMachine "second") tt))
  = [ (openCommand {| Secret := "first" |}, openArgv sdb, false);
      (openCommand {| Secret := "second" |}, openArgv sdb, true) ].
Proof. reflexivity. Qed.

(** * Further properties of the LUKS manager *)

Section LUKS_further.
Context `{P : Platform}.

Lemma OpenLUKS_broken (Config : Configuration) (d : Drive) (w : World) :
  Broken d = true -> OpenLUKS Config d w = Ret d w.
Proof. intros Hb. unfold OpenLUKS. rewrite Hb. reflexivity. Qed.

Lemma OpenLUKS_mapped (Config : Configuration) (d : Drive) (w : World) :
  MappedDevicePath d <> "" -> OpenLUKS Config d w = Ret d w.
Proof.
  intros Hm. unfold OpenLUKS. destruct (Broken d); [reflexivity|].
  rewrite decide_True by exact Hm. reflexivity.
Qed.

Lemma OpenLUKS_skip (Config : Configuration) (d d1 : Drive) (w w1 : World)
    (ok : bool) :
  Broken d = false -> MappedDevicePath d = "" ->
  Classify d w = Ret (ok, d1) w1 ->
  ok = false \/ Type_ d1 <> DeviceTypeLUKS ->
  OpenLUKS Config d w = Ret d1 w1.
Proof.
  intros Hb Hm Hc Hs. unfold OpenLUKS. rewrite Hb.
  rewrite decide_False by (intros H; apply H; exact Hm).
  rewrite (bind_Ret _ _ _ _ _ Hc). cbv beta iota.
  destruct ok; cbn [negb]; [|reflexivity].
  destruct Hs as [Hs|Hs]; [discriminate|].
  rewrite decide_True by exact Hs. reflexivity.
Qed.

Lemma mapper_path_nonempty (name : string) : "/dev/mapper/" +:+ name <> "".
Proof. discriminate. Qed.

(** What a run of CloseLUKS on a mapped drive does, by the answer of the
    command. *)
Lemma CloseLUKS_run (d : Drive) (w : World) :
  MappedDevicePath d <> "" ->
  exists (out : string) (ok : bool) (d' : Drive) (w' : World),
    CloseLUKS d w = Ret d' w' /\
    commands (emitted (CloseLUKS d) w)
    = [(Command0, ["cryptsetup"; "close"; Base (MappedDevicePath d)], ok)] /\
    d' = (if ok then set_MappedDevicePath "" d else d).
Proof.
  intros Hm. unfold CloseLUKS. rewrite decide_False by exact Hm.
  destruct (exec Command0 ["cryptsetup"; "close"; Base (MappedDevicePath d)]
              (os w)) as [[out ok] o'] eqn:He.
  pose proof (Run_eq _ _ _ _ _ _ He) as Hr. simpl in Hr.
  exists out, ok.
  destruct ok.
  - eexists _, _. rewrite (bind_Ret _ _ _ _ _ Hr). cbn [snd].
    rewrite (bind_Ret _ _ _ _ _ (Log_Ret LogInfo _ _ _ ltac:(discriminate))).
    unfold ret. split; [reflexivity|]. split; [|reflexivity].
    unfold emitted. rewrite (bind_Ret _ _ _ _ _ Hr). cbn [snd].
    rewrite (bind_Ret _ _ _ _ _ (Log_Ret LogInfo _ _ _ ltac:(discriminate))).
    unfold ret, emit. cbn [final trace]. rewrite <- app_assoc.
    rewrite drop_app_length. reflexivity.
  - eexists _, _. rewrite (bind_Ret _ _ _ _ _ Hr). cbn [snd]. unfold ret.
    split; [reflexivity|]. split; [|reflexivity].
    unfold emitted. rewrite (bind_Ret _ _ _ _ _ Hr). cbn [snd].
    unfold ret. cbn [final trace]. rewrite drop_app_length. reflexivity.
Qed.

(** CheckLUKS returns, and keeps the flag of a broken drive. *)
Lemma CheckLUKS_run (activeMappings : gmap string string) (d : Drive)
    (w : World) :
  exists d' w',
    CheckLUKS activeMappings d w = Ret d' w' /\
    (Broken d = true -> Broken d' = true).
Proof.
  unfold CheckLUKS.
  destruct (decide (index activeMappings (DevicePath d) = "")) as [Hn|Hn].
  - destruct (decide (MappedDevicePath d <> "")) as [Hm|Hm].
    + destruct (error_then_broken
                  "LUKS container in %s should be open at %s, but is not"
                  [AStr (DevicePath d); AStr (MappedDevicePath d)] d w)
        as (d' & w' & He & Hbr & _).
      exists d', w'. split; [exact He|intros _; exact Hbr].
    + exists d, w. split; [reflexivity|intros Hb; exact Hb].
  - destruct (decide (MappedDevicePath d = "")) as [Hm|Hm].
    + eexists _, _. split; [reflexivity|intros Hb; exact Hb].
    + destruct (decide (MappedDevicePath d
                        = "/dev/mapper/"
                          +:+ index activeMappings (DevicePath d)))
        as [He|He].
      * exists d, w. split; [reflexivity|intros Hb; exact Hb].
      * destruct (error_then_broken
                    "LUKS container in %s should be open at %s, but is actually open at %s"
                    [AStr (DevicePath d); AStr (MappedDevicePath d);
                     AStr ("/dev/mapper/"
                           +:+ index activeMappings (DevicePath d))] d w)
          as (d' & w' & Hl & Hbr & _).
        exists d', w'. split; [exact Hl|intros _; exact Hbr].
Qed.

(** X1. The quarantine flag is sticky: a drive that is flagged broken comes
    out of OpenLUKS, FormatLUKSIfRequired, CloseLUKS and CheckLUKS flagged
    broken, whatever the keys, the kernel's table and the machine. *)
Theorem Broken_is_kept (Config : Configuration)
    (activeMappings : gmap string string) (d : Drive) (w : World) :
  Broken d = true ->
  (exists d' w', OpenLUKS Config d w = Ret d' w' /\ Broken d' = true) /\
  (exists d' w',
     FormatLUKSIfRequired Config d w = Ret d' w' /\ Broken d' = true) /\
  (exists d' w', CloseLUKS d w = Ret d' w' /\ Broken d' = true) /\
  (exists d' w',
     CheckLUKS activeMappings d w = Ret d' w' /\ Broken d' = true).
Proof.
  intros Hb. split; [|split; [|split]].
  - exists d, w. split; [apply OpenLUKS_broken; exact Hb|exact Hb].
  - exists d, w. split; [apply Format_broken; exact Hb|exact Hb].
  - destruct (decide (MappedDevicePath d = "")) as [Hm|Hm].
    + exists d, w. unfold CloseLUKS. rewrite decide_True by exact Hm.
      split; [reflexivity|exact Hb].
    + destruct (CloseLUKS_run d w Hm) as (out & ok & d' & w' & Hc & _ & ->).
      exists (if ok then set_MappedDevicePath "" d else d), w'.
      split; [exact Hc|]. destruct ok; exact Hb.
  - destruct (CheckLUKS_run activeMappings d w) as (d' & w' & Hc & Hk).
    exists d', w'. split; [exact Hc|apply Hk; exact Hb].
Qed.

(** X2. A fault on a drive never ends the process: OpenLUKS, CloseLUKS and
    CheckLUKS return to their caller on every input, and so does
    FormatLUKSIfRequired when a key is configured; FormatLUKSIfRequired
    never indexes the key list out of range. *)
Theorem LUKS_operations_return (Config : Configuration)
    (activeMappings : gmap string string) (d : Drive) (w : World) :
  stopped (OpenLUKS Config d w) = false /\
  stopped (CloseLUKS d w) = false /\
  stopped (CheckLUKS activeMappings d w) = false /\
  (Keys Config <> [] -> stopped (FormatLUKSIfRequired Config d w) = false) /\
  (forall w', FormatLUKSIfRequired Config d w <> Stop ExitPanic w').
Proof.
  assert (Hfmt : (exists d' w', FormatLUKSIfRequired Config d w = Ret d' w')
                 \/ (Keys Config = [] /\
                     exists w', FormatLUKSIfRequired Config d w
                                = Stop ExitFatal w')).
  { destruct (Broken d) eqn:Hb.
    { left. exists d, w. apply Format_broken. exact Hb. }
    destruct (decide (MappedDevicePath d = "")) as [Hm|Hm].
    2:{ left. exists d, w. apply Format_mapped. exact Hm. }
    destruct (Keys Config) as [|key rest] eqn:Hk.
    { right. split; [reflexivity|]. eexists.
      apply Format_nokey; assumption. }
    left. destruct (Classify_run d w) as (ok & d1 & w1 & Hc & _).
    destruct (decide (ok = true /\ Type_ d1 = DeviceTypeUnknown))
      as [[-> Ht]|Hn].
    - destruct (exec (formatCommand key) (formatArgv d) (os w1))
        as [[out okf] o'] eqn:He.
      rewrite (Format_run _ _ _ _ _ _ _ _ _ _ Hb Hm Hk Hc Ht He).
      destruct okf; [eexists _, _; reflexivity|].
      destruct (MarkAsBroken_run d1 (formatted w1 d key out false o'))
        as (d' & w' & Hm' & _).
      exists d', w'. exact Hm'.
    - exists d1, w1. eapply Format_skip; try eassumption.
      destruct ok; [right|left; reflexivity].
      intros Ht. apply Hn. split; [reflexivity|exact Ht]. }
  split; [|split; [|split; [|split]]].
  - destruct (OpenLUKS_emitted Config d w) as (d' & w' & _ & _ & _ & Ho & _).
    rewrite Ho. reflexivity.
  - destruct (decide (MappedDevicePath d = "")) as [Hm|Hm].
    + unfold CloseLUKS. rewrite decide_True by exact Hm. reflexivity.
    + destruct (CloseLUKS_run d w Hm) as (out & ok & d' & w' & Hc & _).
      rewrite Hc. reflexivity.
  - destruct (CheckLUKS_run activeMappings d w) as (d' & w' & Hc & _).
    rewrite Hc. reflexivity.
  - intros Hk. destruct Hfmt as [(d' & w' & Hf)|(Hk' & _)];
      [rewrite Hf; reflexivity|contradiction].
  - intros w' Hp. destruct Hfmt as [(d' & w0 & Hf)|(_ & w0 & Hf)];
      rewrite Hf in Hp; discriminate Hp.
Qed.

(** The commands of OpenLUKS on an eligible drive: at least one attempt
    when a key is configured, the first with the first key. *)
Lemma OpenLUKS_eligible_commands (Config : Configuration) (d d1 : Drive)
    (w w1 : World) :
  Broken d = false ->
  MappedDevicePath d = "" ->
  Classify d w = Ret (true, d1) w1 ->
  Type_ d1 = DeviceTypeLUKS ->
  exists (oks : list bool) (d' : Drive) (w' : World),
    OpenLUKS Config d w = Ret d' w' /\
    commands (emitted (OpenLUKS Config d) w)
    = openAttempts d (Keys Config) oks /\
    (Keys Config <> [] -> oks <> []) /\
    (MappedDevicePath d' = "/dev/mapper/" +:+ Name (TemporaryMount d)
     \/ Broken d' = true).
Proof.
  intros Hb Hm Hc Ht.
  destruct (Classify_run d w) as (ok' & d1' & w1' & Hc' & Ht1 & _).
  rewrite Hc in Hc'. injection Hc' as <- <- <-.
  destruct (OpenLUKS_eligible Config d d1 w w1 Hb Hm Hc Ht)
    as (rej & tail & d' & w' & Ho & Hrej & Hcase).
  exists (map snd (rej ++ tail)), d', w'. split; [exact Ho|].
  assert (Hcmd : forall post,
             commands post = [] ->
             trace w' = trace w1
                        ++ attemptEvents d 0 (zip (Keys Config) (rej ++ tail))
                        ++ post ->
             commands (emitted (OpenLUKS Config d) w)
             = openAttempts d (Keys Config) (map snd (rej ++ tail))).
  { intros post Hp Htr.
    erewrite emitted_Ret; [|exact Ho|].
    2:{ rewrite Htr, Ht1, <- !app_assoc. reflexivity. }
    rewrite !commands_app, commands_attempts, Hp, app_nil_r. reflexivity. }
  destruct Hcase as [((out & ->) & Hl & -> & Htr)|(-> & Hl & Hbr & Htr)].
  - split; [eapply Hcmd; [|exact Htr]; reflexivity|].
    split; [|left; reflexivity].
    intros _ H. apply (f_equal length) in H.
    rewrite length_map, length_app in H. simpl in H. lia.
  - split; [eapply Hcmd; [|exact Htr]; reflexivity|].
    split; [|right; exact Hbr].
    intros Hk H. apply (f_equal length) in H.
    rewrite length_map, app_nil_r, Hl in H.
    destruct (Keys Config); [contradiction|discriminate H].
Qed.

(** X3. OpenLUKS is attempted once: after a run of OpenLUKS that issued a
    command or logged an error, a further run on the drive it returned, with
    any keys and from any world, returns that drive and that world as they
    are: no command, no log line, no change. *)
Theorem OpenLUKS_twice (Config Config2 : Configuration) (d d' : Drive)
    (w w' w2 : World) :
  OpenLUKS Config d w = Ret d' w' ->
  commands (emitted (OpenLUKS Config d) w) <> [] \/
  errors (emitted (OpenLUKS Config d) w) <> [] ->
  OpenLUKS Config2 d' w2 = Ret d' w2.
Proof.
  intros Ho Hev.
  assert (Hquiet : forall d0 w0 evs,
             OpenLUKS Config d w = Ret d0 w0 ->
             trace w0 = trace w ++ evs ->
             commands evs = [] -> errors evs = [] -> False).
  { intros d0 w0 evs H0 Ht Hc He.
    rewrite (emitted_Ret _ _ _ _ _ H0 Ht) in Hev.
    destruct Hev as [H|H]; apply H; assumption. }
  destruct (Broken d) eqn:Hb.
  { exfalso. apply (Hquiet d w []); try reflexivity.
    - apply OpenLUKS_broken. exact Hb.
    - symmetry. apply app_nil_r. }
  destruct (decide (MappedDevicePath d = "")) as [Hm|Hm].
  2:{ exfalso. apply (Hquiet d w []); try reflexivity.
      - apply OpenLUKS_mapped. exact Hm.
      - symmetry. apply app_nil_r. }
  destruct (Classify_run d w) as (ok & d1 & w1 & Hc & Ht1 & _).
  destruct (decide (ok = true /\ Type_ d1 = DeviceTypeLUKS)) as [[-> Ht]|Hn].
  - destruct (OpenLUKS_eligible_commands Config d d1 w w1 Hb Hm Hc Ht)
      as (oks & d0 & w0 & Ho' & _ & _ & Hres).
    rewrite Ho in Ho'. injection Ho' as <- <-.
    destruct Hres as [Hmp|Hbr].
    + apply OpenLUKS_mapped. rewrite Hmp. apply mapper_path_nonempty.
    + apply OpenLUKS_broken. exact Hbr.
  - exfalso.
    apply (Hquiet d1 w1 [EvCall "Classify" [DevicePath d] (negb ok)]);
      [|exact Ht1|reflexivity..].
    eapply OpenLUKS_skip; try eassumption.
    destruct ok; [right|left; reflexivity].
    intros Ht. apply Hn. split; [reflexivity|exact Ht].
Qed.

(** X4. With no key configured, OpenLUKS on a drive classified as LUKS
    runs no command at all: it logs its one error and marks the drive
    broken, where FormatLUKSIfRequired would end the process. *)
Theorem OpenLUKS_no_keys (Config : Configuration) (d d1 : Drive)
    (w w1 : World) :
  Keys Config = [] ->
  Broken d = false ->
  MappedDevicePath d = "" ->
  Classify d w = Ret (true, d1) w1 ->
  Type_ d1 = DeviceTypeLUKS ->
  exists (d' : Drive) (w' : World),
    OpenLUKS Config d w = Ret d' w' /\
    Broken d' = true /\
    trace w' = trace w1 ++ [EvLog LogError noKeyAccepted [];
                            EvCall "MarkAsBroken" [DevicePath d] false].
Proof.
  intros Hk Hb Hm Hc Ht.
  destruct (OpenLUKS_eligible Config d d1 w w1 Hb Hm Hc Ht)
    as (rej & tail & d' & w' & Ho & Hrej & Hcase).
  exists d', w'. split; [exact Ho|].
  rewrite Hk in Hcase.
  destruct Hcase as [(_ & Hl & _)|(-> & Hl & Hbr & Htr)];
    [simpl in Hl; lia|].
  split; [exact Hbr|]. exact Htr.
Qed.

(** X5. Open, then close: when OpenLUKS takes an unmapped drive to a
    mapped, unbroken one, the mapped path is /dev/mapper/<name> with
    [name] the drive's mount name; for a name that is not empty and has no
    slash, CloseLUKS on that drive then runs exactly
    [cryptsetup close <name>], and when the command succeeds the drive is
    unmapped again. *)
Theorem open_then_close (Config : Configuration) (d d' : Drive)
    (w w' w2 : World) :
  OpenLUKS Config d w = Ret d' w' ->
  MappedDevicePath d = "" ->
  MappedDevicePath d' <> "" ->
  Broken d' = false ->
  Name (TemporaryMount d) <> "" ->
  allChars (fun c => negb (isSlash c)) (Name (TemporaryMount d)) = true ->
  MappedDevicePath d' = "/dev/mapper/" +:+ Name (TemporaryMount d) /\
  exists (ok : bool) (d2 : Drive) (w3 : World),
    CloseLUKS d' w2 = Ret d2 w3 /\
    commands (emitted (CloseLUKS d') w2)
    = [(Command0, ["cryptsetup"; "close"; Name (TemporaryMount d)], ok)] /\
    (ok = true -> MappedDevicePath d2 = "") /\
    (ok = false -> d2 = d').
Proof.
  intros Ho Hm Hm' Hb' Hne Hns.
  assert (Hpath : MappedDevicePath d'
                  = "/dev/mapper/" +:+ Name (TemporaryMount d)).
  { destruct (Broken d) eqn:Hb.
    { rewrite (OpenLUKS_broken Config d w Hb) in Ho.
      injection Ho as <- <-. contradiction. }
    destruct (Classify_run d w) as (ok & d1 & w1 & Hc & _ & _ & Hd1).
    destruct (decide (ok = true /\ Type_ d1 = DeviceTypeLUKS))
      as [[-> Ht]|Hn].
    - destruct (OpenLUKS_eligible_commands Config d d1 w w1 Hb Hm Hc Ht)
        as (oks & d0 & w0 & Ho' & _ & _ & Hres).
      rewrite Ho in Ho'. injection Ho' as <- <-.
      destruct Hres as [Hmp|Hbr]; [exact Hmp|congruence].
    - exfalso.
      assert (Hs : OpenLUKS Config d w = Ret d1 w1).
      { eapply OpenLUKS_skip; try eassumption.
        destruct ok; [right|left; reflexivity].
        intros Ht. apply Hn. split; [reflexivity|exact Ht]. }
      rewrite Ho in Hs. injection Hs as -> ->.
      apply Hm'. rewrite Hd1. exact Hm. }
  split; [exact Hpath|].
  destruct (CloseLUKS_run d' w2 Hm') as (out & ok & d2 & w3 & Hc & Hcmd & Hd2).
  exists ok, d2, w3. split; [exact Hc|].
  split.
  { rewrite Hcmd, Hpath, (Base_mapper_path _ Hne Hns). reflexivity. }
  split; intros ->; rewrite Hd2; reflexivity.
Qed.

(** X6. Format, then open: when FormatLUKSIfRequired has formatted a blank
    drive, it returns the drive with Type LUKS, and the next OpenLUKS on
    that drive makes an attempt: its first command is
    [cryptsetup luksOpen] with the first key, the key the drive was
    formatted with. *)
Theorem format_then_open (Config : Configuration) (d d1 : Drive)
    (w w1 : World) (key : Key) (rest : list Key) (out : string) (o' : OS) :
  Broken d = false ->
  MappedDevicePath d = "" ->
  Keys Config = key :: rest ->
  Classify d w = Ret (true, d1) w1 ->
  Type_ d1 = DeviceTypeUnknown ->
  exec (formatCommand key) (formatArgv d) (os w1) = (out, true, o') ->
  exists (w' : World),
    FormatLUKSIfRequired Config d w = Ret (set_Type DeviceTypeLUKS d) w' /\
    commands (emitted (FormatLUKSIfRequired Config d) w)
    = [(formatCommand key, formatArgv d, true)] /\
    exists (ok : bool) (more : list (Command * list string * bool)),
      commands (emitted (OpenLUKS Config (set_Type DeviceTypeLUKS d)) w')
      = (openCommand key, openArgv d, ok) :: more /\
      Stdin (openCommand key) = Stdin (formatCommand key).
Proof.
  intros Hb Hm Hk Hc Ht He.
  destruct (Classify_run d w) as (ok' & d1' & w1' & Hc' & Ht1 & _).
  rewrite Hc in Hc'. injection Hc' as <- <- <-.
  pose proof (Format_run _ _ _ _ _ _ _ _ _ _ Hb Hm Hk Hc Ht He) as Hf.
  unfold ret in Hf.
  exists (formatted w1 d key out true o'). split; [exact Hf|].
  split.
  { erewrite emitted_Ret; [|exact Hf|].
    2:{ unfold formatted. cbn [trace]. rewrite Ht1, <- app_assoc.
        reflexivity. }
    reflexivity. }
  set (d' := set_Type DeviceTypeLUKS d).
  set (w' := formatted w1 d key out true o').
  assert (Hc2 : Classify d' w'
                = Ret (true, d')
                    {| trace := trace w'
                         ++ [EvCall "Classify" [DevicePath d'] false];
                       os := os w' |}) by reflexivity.
  destruct (OpenLUKS_eligible_commands Config d' d' w' _ Hb Hm Hc2 eq_refl)
    as (oks & d2 & w2 & _ & Hcmd & Hne & _).
  rewrite Hcmd, Hk. rewrite Hk in Hne.
  destruct oks as [|ok oks]; [exfalso; apply Hne; [discriminate|reflexivity]|].
  exists ok. eexists. split; reflexivity.
Qed.

(** X7. CheckLUKS settles in one step: when the drive's belief does not
    contradict the kernel's table (no believed mapper path, or the one the
    table gives), one run of CheckLUKS returns a drive on which a further
    run with the same table, from any world, changes nothing and logs
    nothing; in particular a mapping is reported as discovered once. *)
Theorem CheckLUKS_twice (activeMappings : gmap string string) (d : Drive)
    (w : World) :
  MappedDevicePath d = "" \/
  (index activeMappings (DevicePath d) <> "" /\
   MappedDevicePath d
   = "/dev/mapper/" +:+ index activeMappings (DevicePath d)) ->
  exists (d' : Drive) (w' : World),
    CheckLUKS activeMappings d w = Ret d' w' /\
    DevicePath d' = DevicePath d /\
    forall w2, CheckLUKS activeMappings d' w2 = Ret d' w2.
Proof.
  intros H. unfold CheckLUKS.
  destruct (decide (index activeMappings (DevicePath d) = "")) as [Hn|Hn].
  - assert (Hm : MappedDevicePath d = "")
      by (destruct H as [H|[H _]]; [exact H|contradiction]).
    rewrite decide_False by (intros Hx; apply Hx; exact Hm).
    exists d, w. split; [reflexivity|]. split; [reflexivity|].
    intros w2. rewrite decide_True by exact Hn.
    rewrite decide_False by (intros Hx; apply Hx; exact Hm). reflexivity.
  - destruct (decide (MappedDevicePath d = "")) as [Hm|Hm].
    + eexists _, _. split; [reflexivity|]. split; [reflexivity|].
      intros w2. cbn [DevicePath set_StartedOutEmpty set_MappedDevicePath
                        MappedDevicePath].
      rewrite decide_False by exact Hn.
      rewrite decide_False by apply mapper_path_nonempty.
      rewrite decide_True by reflexivity. reflexivity.
    + destruct H as [H|[_ H]]; [contradiction|].
      rewrite decide_True by exact H.
      exists d, w. split; [reflexivity|]. split; [reflexivity|].
      intros w2. rewrite decide_False by exact Hn.
      rewrite decide_False by exact Hm.
      rewrite decide_True by exact H. reflexivity.
Qed.

Lemma Base_nonempty (path : string) : Base path <> "".
Proof.
  unfold Base. destruct path as [|c path]; [discriminate|].
  destruct (GoStrings.rev _) as [|x e]; discriminate.
Qed.

(** X8. CloseLUKS never hands cryptsetup an empty mapping name: every
    command it runs is [cryptsetup close <name>] with a name that is not
    empty, run with the default options (no standard input, no
    exit-on-error). *)
Theorem CloseLUKS_name (d : Drive) (w : World) (c : Command)
    (argv : list string) (ok : bool) :
  (c, argv, ok) ∈ commands (emitted (CloseLUKS d) w) ->
  c = Command0 /\
  exists name, argv = ["cryptsetup"; "close"; name] /\ name <> "".
Proof.
  intros Hin.
  destruct (decide (MappedDevicePath d = "")) as [Hm|Hm].
  - assert (He : emitted (CloseLUKS d) w = []).
    { eapply emitted_Ret; [|symmetry; apply app_nil_r].
      unfold CloseLUKS. rewrite decide_True by exact Hm. reflexivity. }
    rewrite He in Hin. inversion Hin.
  - destruct (CloseLUKS_run d w Hm) as (out & ok' & d' & w' & _ & Hcmd & _).
    rewrite Hcmd in Hin. apply list_elem_of_singleton in Hin.
    injection Hin as -> -> ->. split; [reflexivity|].
    eexists. split; [reflexivity|]. apply Base_nonempty.
Qed.

End LUKS_further.

Lemma Broken_is_kept_witness :
  let P := failingMachine in
  let d := set_Broken true (sdbMapped "/dev/mapper/other") in
  let w := world0 P tt in
  (exists d' w', OpenLUKS twoKeys d w = Ret d' w' /\ Broken d' = true) /\
  (exists d' w',
     FormatLUKSIfRequired twoKeys d w = Ret d' w' /\ Broken d' = true) /\
  (exists d' w', CloseLUKS d w = Ret d' w' /\ Broken d' = true) /\
  (exists d' w', CheckLUKS oneMapping d w = Ret d' w' /\ Broken d' = true).
Proof.
  intros P d w.
  exact (Broken_is_kept (P := P) twoKeys oneMapping d w eq_refl).
Defined.

Lemma OpenLUKS_twice_witness :
  let P := luksMachine "second" in
  exists (d' : Drive) (w' : World),
    OpenLUKS twoKeys sdb (world0 P tt) = Ret d' w' /\
    OpenLUKS otherKeys d' w' = Ret d' w'.
Proof.
  intros P.
  destruct (OpenLUKS twoKeys sdb (world0 P tt)) as [d' w'|e w'] eqn:Ho;
    [|vm_compute in Ho; discriminate Ho].
  exists d', w'. split; [reflexivity|].
  apply (OpenLUKS_twice (P := P) twoKeys otherKeys sdb d' (world0 P tt) w' w'
           Ho).
  left. vm_compute. discriminate.
Defined.

Lemma OpenLUKS_no_keys_witness :
  let P := luksMachine "second" in
  exists (d' : Drive) (w' : World),
    OpenLUKS noKeys sdb (world0 P tt) = Ret d' w' /\
    Broken d' = true /\
    trace w' = [EvCall "Classify" ["/dev/sdb"] false;
                EvLog LogError noKeyAccepted [];
                EvCall "MarkAsBroken" ["/dev/sdb"] false].
Proof.
  intros P.
  exact (OpenLUKS_no_keys (P := P) noKeys sdb
           (set_Type DeviceTypeLUKS sdb) (world0 P tt)
           (worldAt P [EvCall "Classify" ["/dev/sdb"] false] tt)
           eq_refl eq_refl eq_refl eq_refl eq_refl).
Defined.

Lemma open_then_close_witness :
  let P := luksMachine "second" in
  exists (d' : Drive) (w' : World),
    OpenLUKS twoKeys sdb (world0 P tt) = Ret d' w' /\
    MappedDevicePath d' = "/dev/mapper/abc123" /\
    exists (ok : bool) (d2 : Drive) (w3 : World),
      CloseLUKS d' w' = Ret d2 w3 /\
      commands (emitted (CloseLUKS d') w')
      = [(Command0, ["cryptsetup"; "close"; "abc123"], ok)] /\
      (ok = true -> MappedDevicePath d2 = "") /\
      (ok = false -> d2 = d').
Proof.
  intros P.
  destruct (OpenLUKS twoKeys sdb (world0 P tt)) as [d' w'|e w'] eqn:Ho;
    [|vm_compute in Ho; discriminate Ho].
  exists d', w'. split; [reflexivity|].
  assert (Hd : d' = set_Type DeviceTypeNotScanned
                      (sdbMapped "/dev/mapper/abc123")).
  { vm_compute in Ho. injection Ho as <- _. reflexivity. }
  apply (open_then_close (P := P) twoKeys sdb d' (world0 P tt) w' w' Ho
           eq_refl).
  - rewrite Hd. discriminate.
  - rewrite Hd. reflexivity.
  - discriminate.
  - reflexivity.
Defined.

Lemma format_then_open_witness :
  let P := blankMachine true in
  exists (w' : World),
    FormatLUKSIfRequired twoKeys sdb (world0 P tt)
    = Ret (set_Type DeviceTypeLUKS sdb) w' /\
    commands (emitted (FormatLUKSIfRequired twoKeys sdb) (world0 P tt))
    = [(formatCommand {| Secret := "first" |}, formatArgv sdb, true)] /\
    exists (ok : bool) (more : list (Command * list string * bool)),
      commands (emitted (OpenLUKS twoKeys (set_Type DeviceTypeLUKS sdb)) w')
      = (openCommand {| Secret := "first" |}, openArgv sdb, ok) :: more /\
      Stdin (openCommand {| Secret := "first" |})
      = Stdin (formatCommand {| Secret := "first" |}).
Proof.
  intros P.
  exact (format_then_open (P := P) twoKeys sdb
           (set_Type DeviceTypeUnknown sdb) (world0 P tt)
           (worldAt P [EvCall "Classify" ["/dev/sdb"] false] tt)
           {| Secret := "first" |} [ {| Secret := "second" |} ] "" tt
           eq_refl eq_refl eq_refl eq_refl eq_refl eq_refl).
Defined.

Lemma CheckLUKS_twice_witness :
  let P := failingMachine in
  exists (d' : Drive) (w' : World),
    CheckLUKS oneMapping sdb (world0 P tt) = Ret d' w' /\
    DevicePath d' = "/dev/sdb" /\
    forall w2, CheckLUKS oneMapping d' w2 = Ret d' w2.
Proof.
  intros P.
  apply (CheckLUKS_twice (P := P) oneMapping sdb (world0 P tt)).
  left. reflexivity.
Defined.

Lemma CloseLUKS_name_witness :
  let P := blankMachine true in
  let d := sdbMapped "/dev/mapper/abc123" in
  (Command0, ["cryptsetup"; "close"; "abc123"], true)
    ∈ commands (emitted (CloseLUKS d) (world0 P tt)) /\
  exists name, ["cryptsetup"; "close"; "abc123"]
               = ["cryptsetup"; "close"; name] /\ name <> "".
Proof.
  intros P d.
  assert (Hin : (Command0, ["cryptsetup"; "close"; "abc123"], true)
                  ∈ commands (emitted (CloseLUKS d) (world0 P tt))).
  { vm_compute. left. }
  split; [exact Hin|].
  destruct (CloseLUKS_name (P := P) d (world0 P tt) _ _ _ Hin) as (_ & H).
  exact H.
Defined.

(** * Further properties of the scan *)

Section Matcher.

Lemma Star_unfold (cls : ascii -> bool) (rest : list Regexp.Item)
    (prev : option ascii) (c : ascii) (s : string) (cap : option string) :
  Regexp.match_here (Regexp.Star cls :: rest) prev (String c s) cap
  = if cls c then
      match Regexp.match_here (Regexp.Star cls :: rest) (Some c) s cap with
      | Some r => Some r
      | None => Regexp.match_here rest prev (String c s) cap
      end
    else Regexp.match_here rest prev (String c s) cap.
Proof. reflexivity. Qed.

Lemma Star_empty (cls : ascii -> bool) (rest : list Regexp.Item)
    (prev : option ascii) (cap : option string) :
  Regexp.match_here (Regexp.Star cls :: rest) prev "" cap
  = Regexp.match_here rest prev "" cap.
Proof. reflexivity. Qed.

Lemma GroupPlus_unfold (cls : ascii -> bool) (rest : list Regexp.Item)
    (prev : option ascii) (c : ascii) (s : string) (cap : option string) :
  Regexp.match_here (Regexp.GroupPlus cls :: rest) prev (String c s) cap
  = if cls c then
      plusLoop cls (Regexp.match_here rest) (Some c) s (String c "")
    else None.
Proof. reflexivity. Qed.

Lemma Bol_unfold (rest : list Regexp.Item) (prev : option ascii)
    (s : string) (cap : option string) :
  Regexp.match_here (Regexp.Bol :: rest) prev s cap
  = if Regexp.at_bol prev then Regexp.match_here rest prev s cap else None.
Proof. reflexivity. Qed.

Lemma Eol_unfold (rest : list Regexp.Item) (prev : option ascii)
    (s : string) (cap : option string) :
  Regexp.match_here (Regexp.Eol :: rest) prev s cap
  = if Regexp.at_eol s then Regexp.match_here rest prev s cap else None.
Proof. reflexivity. Qed.

Lemma Lit_unfold (l : string) (rest : list Regexp.Item)
    (prev : option ascii) (s : string) (cap : option string) :
  Regexp.match_here (Regexp.Lit l :: rest) prev s cap
  = match Regexp.strip_lit l prev s with
    | Some (prev', s') => Regexp.match_here rest prev' s' cap
    | None => None
    end.
Proof. reflexivity. Qed.

(** What a match went through: after a star, the rest of the pattern
    matched somewhere with the same capture. *)
Lemma Star_result (cls : ascii -> bool) (rest : list Regexp.Item)
    (s : string) (prev : option ascii) (cap : option string)
    (r : Regexp.Matched) :
  Regexp.match_here (Regexp.Star cls :: rest) prev s cap = Some r ->
  exists prev' s', Regexp.match_here rest prev' s' cap = Some r.
Proof.
  revert prev. induction s as [|c s IH]; intros prev H.
  - rewrite Star_empty in H. eauto.
  - rewrite Star_unfold in H. destruct (cls c); [|eauto].
    destruct (Regexp.match_here (Regexp.Star cls :: rest) (Some c) s cap)
      as [r'|] eqn:Hs; [|eauto].
    injection H as <-. apply (IH _ Hs).
Qed.

Lemma plusLoop_result (cls : ascii -> bool)
    (k : option ascii -> string -> option string -> option Regexp.Matched)
    (s : string) (prev : option ascii) (acc : string) (r : Regexp.Matched) :
  plusLoop cls k prev s acc = Some r ->
  acc <> "" -> allChars cls acc = true ->
  exists prev' s' p,
    k prev' s' (Some p) = Some r /\ p <> "" /\ allChars cls p = true.
Proof.
  revert prev acc. induction s as [|c s IH]; intros prev acc H Hne Hall.
  - simpl in H. exists prev, "", (GoStrings.rev acc).
    split; [exact H|]. split; [|rewrite allChars_rev; exact Hall].
    intros Hr. apply Hne. rewrite <- (rev_involutive acc), Hr. reflexivity.
  - simpl in H.
    assert (Hhere : k prev (String c s) (Some (GoStrings.rev acc)) = Some r ->
                    exists prev' s' p,
                      k prev' s' (Some p) = Some r /\ p <> "" /\
                      allChars cls p = true).
    { intros Hk. exists prev, (String c s), (GoStrings.rev acc).
      split; [exact Hk|]. split; [|rewrite allChars_rev; exact Hall].
      intros Hr. apply Hne. rewrite <- (rev_involutive acc), Hr.
      reflexivity. }
    destruct (cls c) eqn:Hc; [|exact (Hhere H)].
    fold (plusLoop cls k) in H.
    destruct (plusLoop cls k (Some c) s (String c acc)) as [r'|] eqn:Hp;
      [|exact (Hhere H)].
    injection H as <-.
    apply (IH _ _ Hp); [discriminate|]. simpl. rewrite Hc. exact Hall.
Qed.

Lemma strip_lit_result (l : string) (prev : option ascii) (s : string)
    (prev' : option ascii) (s' : string) :
  Regexp.strip_lit l prev s = Some (prev', s') ->
  s = l +:+ s' /\ prev' = lastOf prev l.
Proof.
  revert prev s. induction l as [|a l IH]; intros prev s H; simpl in H.
  - injection H as <- <-. split; reflexivity.
  - destruct s as [|b s]; [discriminate|].
    destruct (Ascii.eqb a b) eqn:Hab; [|discriminate].
    apply Ascii.eqb_eq in Hab. subst b.
    destruct (IH _ _ H) as (-> & ->). split; reflexivity.
Qed.

(** The capture of a match of [backingDeviceRx] is a run of bytes
    outside [\s] that is not empty. *)
Lemma backingDeviceRx_capture (prev : option ascii) (s : string)
    (cap : option string) (rest : string) :
  Regexp.match_here backingDeviceRx prev s None = Some (cap, rest) ->
  exists p, cap = Some p /\ p <> "" /\ allChars notSpace p = true.
Proof.
  unfold backingDeviceRx. intros H.
  (* ^ *)
  cbn [Regexp.match_here] in H.
  destruct (Regexp.at_bol prev); [|discriminate].
  change (Regexp.match_here
            [Regexp.Star rxSpace; Regexp.Lit "device:"; Regexp.Star rxSpace;
             Regexp.GroupPlus (fun c => negb (rxSpace c));
             Regexp.Star rxSpace; Regexp.Eol] prev s None = Some (cap, rest))
    in H.
  (* \s* *)
  apply Star_result in H. destruct H as (prev1 & s1 & H).
  (* device: *)
  cbn [Regexp.match_here] in H.
  destruct (Regexp.strip_lit "device:" prev1 s1) as [[prev2 s2]|];
    [|discriminate].
  change (Regexp.match_here
            [Regexp.Star rxSpace;
             Regexp.GroupPlus (fun c => negb (rxSpace c));
             Regexp.Star rxSpace; Regexp.Eol] prev2 s2 None = Some (cap, rest))
    in H.
  (* \s* *)
  apply Star_result in H. destruct H as (prev3 & s3 & H).
  (* (\S+) *)
  destruct s3 as [|c s3]; [discriminate H|].
  rewrite GroupPlus_unfold in H.
  destruct (negb (rxSpace c)) eqn:Hc; [|discriminate].
  apply plusLoop_result in H; [|discriminate|simpl; rewrite Hc; reflexivity].
  destruct H as (prev4 & s4 & p & H & Hne & Hall).
  (* \s* $ *)
  apply Star_result in H. destruct H as (prev5 & s5 & H).
  cbn [Regexp.match_here] in H.
  destruct (Regexp.at_eol s5); [|discriminate].
  injection H as <- _. exists p. split; [reflexivity|].
  split; [exact Hne|exact Hall].
Qed.

Lemma find_from_result (items : list Regexp.Item) (s : string)
    (prev : option ascii) (m : list string) :
  Regexp.find_from items prev s = Some m ->
  exists prev' s' cap rest,
    Regexp.match_here items prev' s' None = Some (cap, rest) /\
    m = [Regexp.matched_text s' rest; default "" cap].
Proof.
  revert prev. induction s as [|c s IH]; intros prev H; simpl in H.
  - destruct (Regexp.match_here items prev "" None) as [[cap rest]|] eqn:Hm;
      [|discriminate].
    injection H as <-. exists prev, "", cap, rest.
    split; [exact Hm|reflexivity].
  - destruct (Regexp.match_here items prev (String c s) None)
      as [[cap rest]|] eqn:Hm.
    + injection H as <-. exists prev, (String c s), cap, rest.
      split; [exact Hm|reflexivity].
    + apply (IH _ H).
Qed.

(** The backing device read off a status output is never empty and has no
    white space. *)
Lemma backingDevice_wellformed (out p : string) :
  backingDevice out = Some p -> p <> "" /\ allChars notSpace p = true.
Proof.
  unfold backingDevice, Regexp.FindStringSubmatch. intros H.
  destruct (Regexp.find_from backingDeviceRx None out) as [m|] eqn:Hf;
    [|discriminate].
  apply find_from_result in Hf.
  destruct Hf as (prev' & s' & cap & rest & Hm & ->).
  apply backingDeviceRx_capture in Hm. destruct Hm as (q & -> & Hne & Hall).
  simpl in H. injection H as <-. split; assumption.
Qed.

Lemma Star_here (cls : ascii -> bool) (rest : list Regexp.Item)
    (prev : option ascii) (s : string) (cap : option string) :
  is_Some (Regexp.match_here rest prev s cap) ->
  is_Some (Regexp.match_here (Regexp.Star cls :: rest) prev s cap).
Proof.
  intros H. destruct s as [|c s].
  - rewrite Star_empty. exact H.
  - rewrite Star_unfold. destruct (cls c); [|exact H].
    destruct (Regexp.match_here (Regexp.Star cls :: rest) (Some c) s cap);
      [eexists; reflexivity|exact H].
Qed.

(** A star gets past a run of its class when the rest of the pattern
    matches behind the run. *)
Lemma Star_success (cls : ascii -> bool) (rest : list Regexp.Item)
    (ws : string) (prev : option ascii) (s : string) (cap : option string) :
  allChars cls ws = true ->
  is_Some (Regexp.match_here rest (lastOf prev ws) s cap) ->
  is_Some (Regexp.match_here (Regexp.Star cls :: rest) prev (ws +:+ s) cap).
Proof.
  revert prev. induction ws as [|c ws IH]; intros prev Hall H.
  - apply Star_here. exact H.
  - simpl in Hall. apply andb_true_iff in Hall. destruct Hall as [Hc Hall].
    change (String c ws +:+ s) with (String c (ws +:+ s)).
    rewrite Star_unfold, Hc.
    destruct (IH (Some c) Hall H) as (r & Hr). rewrite Hr.
    eexists; reflexivity.
Qed.

Lemma strip_lit_success (l : string) (prev : option ascii) (s : string) :
  Regexp.strip_lit l prev (l +:+ s) = Some (lastOf prev l, s).
Proof.
  revert prev. induction l as [|a l IH]; intros prev; [reflexivity|].
  simpl. rewrite Ascii.eqb_refl. apply IH.
Qed.

Lemma plusLoop_success (cls : ascii -> bool)
    (k : option ascii -> string -> option string -> option Regexp.Matched)
    (q : string) (prev : option ascii) (s acc : string) :
  allChars cls q = true ->
  is_Some (k (lastOf prev q) s (Some (GoStrings.rev acc +:+ q))) ->
  is_Some (plusLoop cls k prev (q +:+ s) acc).
Proof.
  revert prev acc. induction q as [|x q IH]; intros prev acc Hall H.
  - rewrite append_nil_r in H. simpl in H. change ("" +:+ s) with s.
    destruct s as [|c s]; [exact H|].
    simpl. destruct (cls c); [|exact H].
    fold (plusLoop cls k).
    destruct (plusLoop cls k (Some c) s (String c acc));
      [eexists; reflexivity|exact H].
  - simpl in Hall. apply andb_true_iff in Hall. destruct Hall as [Hx Hall].
    change (String x q +:+ s) with (String x (q +:+ s)).
    simpl. rewrite Hx. fold (plusLoop cls k).
    assert (Hq : is_Some (plusLoop cls k (Some x) (q +:+ s) (String x acc))).
    { apply IH; [exact Hall|].
      rewrite rev_cons, append_assoc. exact H. }
    destruct Hq as (r & Hr). rewrite Hr. eexists; reflexivity.
Qed.

Lemma GroupPlus_success (cls : ascii -> bool) (rest : list Regexp.Item)
    (p : string) (prev : option ascii) (s : string) (cap : option string) :
  p <> "" -> allChars cls p = true ->
  is_Some (Regexp.match_here rest (lastOf prev p) s (Some p)) ->
  is_Some (Regexp.match_here (Regexp.GroupPlus cls :: rest) prev (p +:+ s)
             cap).
Proof.
  intros Hne Hall H. destruct p as [|c p]; [contradiction|].
  simpl in Hall. apply andb_true_iff in Hall. destruct Hall as [Hc Hall].
  change (String c p +:+ s) with (String c (p +:+ s)).
  rewrite GroupPlus_unfold, Hc.
  apply plusLoop_success; [exact Hall|]. exact H.
Qed.

Lemma find_from_unfold (items : list Regexp.Item) (prev : option ascii)
    (s : string) :
  Regexp.find_from items prev s
  = match Regexp.match_here items prev s None with
    | Some (cap, rest) =>
        Some [Regexp.matched_text s rest; default "" cap]
    | None =>
        match s with
        | EmptyString => None
        | String c s' => Regexp.find_from items (Some c) s'
        end
    end.
Proof. destruct s; reflexivity. Qed.

(** The search finds a match when the pattern matches at some later
    position. *)
Lemma find_from_success (items : list Regexp.Item) (pre : string)
    (prev : option ascii) (s : string) :
  is_Some (Regexp.match_here items (lastOf prev pre) s None) ->
  is_Some (Regexp.find_from items prev (pre +:+ s)).
Proof.
  revert prev. induction pre as [|c pre IH]; intros prev H.
  - change ("" +:+ s) with s. rewrite find_from_unfold.
    destruct H as ([cap rest] & Hr). simpl in Hr. rewrite Hr.
    eexists; reflexivity.
  - change (String c pre +:+ s) with (String c (pre +:+ s)).
    rewrite find_from_unfold.
    destruct (Regexp.match_here items prev (String c (pre +:+ s)) None)
      as [[cap rest]|]; [eexists; reflexivity|].
    apply IH. exact H.
Qed.

(** A status output with a device line shows a backing device. *)
Lemma device_line_found (pre indent gap path rest : string) :
  atLineStart pre = true ->
  allChars rxSpace indent = true ->
  allChars rxSpace gap = true ->
  path <> "" -> allChars notSpace path = true ->
  Regexp.at_eol rest = true ->
  is_Some (backingDevice (withDeviceLine pre indent gap path rest)).
Proof.
  intros Hpre Hind Hgap Hne Hpath Hrest.
  assert (Hfind : is_Some (Regexp.FindStringSubmatch backingDeviceRx
                             (withDeviceLine pre indent gap path rest))).
  { unfold Regexp.FindStringSubmatch, withDeviceLine.
    apply find_from_success. unfold backingDeviceRx.
    rewrite Bol_unfold. unfold atLineStart in Hpre. rewrite Hpre.
    apply (Star_success rxSpace); [exact Hind|].
    rewrite Lit_unfold, strip_lit_success.
    apply (Star_success rxSpace); [exact Hgap|].
    apply GroupPlus_success; [exact Hne|exact Hpath|].
    apply Star_here. rewrite Eol_unfold, Hrest.
    eexists; reflexivity. }
  destruct Hfind as (m & Hm). unfold backingDevice. rewrite Hm.
  apply find_from_shape in Hm. destruct Hm as (a & b & ->).
  eexists; reflexivity.
Qed.

End Matcher.

Section Scan_further.
Context `{P : Platform}.

(** X9. The path getBackingDevicePath returns is the device shown by a
    status query that succeeded, and it is never empty and never contains
    white space. *)
Theorem getBackingDevicePath_result (mapName p : string) (w w' : World) :
  getBackingDevicePath mapName w = Ret p w' ->
  p <> "" /\ allChars notSpace p = true /\
  exists out,
    trace w' = trace w ++ [EvRun scanCommand (statusArgv mapName) out true]
    /\ backingDevice out = Some p.
Proof.
  intros H.
  destruct (exec scanCommand (statusArgv mapName) (os w))
    as [[out ok] o'] eqn:He.
  rewrite (getBackingDevicePath_run mapName w out ok o' He) in H.
  destruct ok; [|discriminate H].
  destruct (backingDevice out) as [q|] eqn:Hb; [|discriminate H].
  injection H as <- <-.
  destruct (backingDevice_wellformed out q Hb) as (Hne & Hall).
  split; [exact Hne|]. split; [exact Hall|].
  exists out. split; [reflexivity|exact Hb].
Qed.

(** X10. A status output with a line [device: <path>] is enough for
    getBackingDevicePath to return: when the command succeeds and its
    output has, at the start of a line, optional white space, [device:],
    optional white space, a path without white space, and then the end of
    the line, the process does not end with the Fatal log. *)
Theorem getBackingDevicePath_device_line (mapName : string) (w : World)
    (pre indent gap path rest : string) (o' : OS) :
  exec scanCommand (statusArgv mapName) (os w)
  = (withDeviceLine pre indent gap path rest, true, o') ->
  atLineStart pre = true ->
  allChars rxSpace indent = true ->
  allChars rxSpace gap = true ->
  path <> "" -> allChars notSpace path = true ->
  Regexp.at_eol rest = true ->
  exists p w', getBackingDevicePath mapName w = Ret p w'.
Proof.
  intros He Hpre Hind Hgap Hne Hpath Hrest.
  rewrite (getBackingDevicePath_run mapName w _ true o' He).
  destruct (device_line_found pre indent gap path rest
              Hpre Hind Hgap Hne Hpath Hrest) as (p & Hp).
  rewrite Hp. eexists _, _. reflexivity.
Qed.

Lemma scanLines_blank (lines : list string) (result : gmap string string)
    (w : World) :
  omap (fun line => head (Fields line)) lines = [] ->
  scanLines lines result w = Ret result w.
Proof.
  induction lines as [|line rest IH]; intros H; [reflexivity|].
  cbn [scanLines]. cbn [omap list_omap] in H.
  destruct (Fields line) as [|mapName fs]; [|discriminate H].
  apply IH. exact H.
Qed.

(** X11. A listing that names no mapping gives the empty table after the
    one listing command: when [dmsetup ls] succeeds and no line of its
    output has a field (an empty output, blank lines), ScanLUKSMappings
    returns the empty map without any status query. *)
Theorem Scan_no_names (w : World) (out : string) (o' : OS) :
  exec scanCommand lsArgv (os w) = (out, true, o') ->
  mappingNames out = [] ->
  ScanLUKSMappings w
  = Ret ∅ {| trace := trace w ++ [EvRun scanCommand lsArgv out true];
             os := o' |}.
Proof.
  intros He Hn.
  pose proof (Run_eq scanCommand lsArgv w out true o' He) as Hr.
  simpl in Hr. unfold ScanLUKSMappings. unfold scanCommand, lsArgv in Hr.
  rewrite (bind_Ret _ _ _ _ _ Hr). cbn [fst].
  destruct (decide (TrimSpace out = "No devices found")); [reflexivity|].
  apply scanLines_blank. exact Hn.
Qed.

Lemma recorded_snoc (l : list (string * string)) (q : string * string)
    (m0 : gmap string string) :
  recorded (l ++ [q]) m0
  = <[default "" (backingDevice (snd q)) := fst q]> (recorded l m0).
Proof. unfold recorded. rewrite foldl_app. reflexivity. Qed.

(** Where an entry of the table comes from. *)
Lemma recorded_lookup (l : list (string * string)) (m0 : gmap string string)
    (k v : string) :
  recorded l m0 !! k = Some v ->
  (exists out, (v, out) ∈ l /\ default "" (backingDevice out) = k) \/
  m0 !! k = Some v.
Proof.
  induction l as [|[name out] l IH] using rev_ind; intros H.
  - right. exact H.
  - rewrite recorded_snoc in H. cbn [fst snd] in H.
    rewrite lookup_insert in H. case_decide as Hk.
    + injection H as <-. left. exists out.
      split; [apply elem_of_app; right; left|exact Hk].
    + destruct (IH H) as [(o & Hin & Ho)|Hm]; [|right; exact Hm].
      left. exists o. split; [apply elem_of_app; left; exact Hin|exact Ho].
Qed.

(** The entry for the device of a query that no later query shows
    again. *)
Lemma recorded_last (l1 l2 : list (string * string)) (name out dev : string)
    (m0 : gmap string string) :
  backingDevice out = Some dev ->
  Forall (fun q => backingDevice (snd q) <> Some dev) l2 ->
  Forall (fun q => is_Some (backingDevice (snd q))) l2 ->
  recorded (l1 ++ (name, out) :: l2) m0 !! dev = Some name.
Proof.
  intros Hd Hl2 Hs. induction l2 as [|[n2 o2] l2 IH] using rev_ind.
  - change (l1 ++ [(name, out)]) with (l1 ++ [(name, out)]).
    rewrite recorded_snoc. cbn [fst snd]. rewrite Hd. simpl.
    apply lookup_insert_eq.
  - apply Forall_app in Hl2. destruct Hl2 as [Hl2 Hq].
    apply Forall_app in Hs. destruct Hs as [Hs Hqs].
    apply Forall_inv in Hq. apply Forall_inv in Hqs.
    cbn [snd] in Hq, Hqs. destruct Hqs as (d2 & Hd2).
    replace (l1 ++ (name, out) :: l2 ++ [(n2, o2)])
      with ((l1 ++ (name, out) :: l2) ++ [(n2, o2)])
      by (rewrite <- app_assoc; reflexivity).
    rewrite recorded_snoc. cbn [fst snd]. rewrite Hd2. simpl.
    rewrite lookup_insert_ne; [apply IH; assumption|].
    intros ->. apply Hq. exact Hd2.
Qed.

(** X12. Every entry of the table ScanLUKSMappings returns comes from a
    status query of that run: if the table maps [dev] to [name], then
    [name] is not empty, [dev] is not empty and has no white space, and
    the run made a successful query [cryptsetup status <name>] whose output
    shows [dev] as the backing device. *)
Theorem Scan_table_sound (w w' : World) (m : gmap string string)
    (dev name : string) :
  ScanLUKSMappings w = Ret m w' ->
  m !! dev = Some name ->
  name <> "" /\ dev <> "" /\ allChars notSpace dev = true /\
  exists out,
    EvRun scanCommand (statusArgv name) out true
      ∈ emitted ScanLUKSMappings w /\
    backingDevice out = Some dev.
Proof.
  intros Hret Hl.
  destruct (Scan_run w)
    as [(out & l & m0 & w0 & Hs & He & Hm & -> & H1 & H2)
       |[(w0 & pre & c & argv & out & Hs & _)
        |(w0 & pre & nm & out & Hs & _)]];
    rewrite Hs in Hret; try discriminate Hret.
  injection Hret as <- <-.
  apply recorded_lookup in Hl.
  destruct Hl as [(o & Hin & Ho)|Hl]; [|rewrite lookup_empty in Hl;
                                        discriminate Hl].
  rewrite Forall_forall in Hm. destruct (Hm _ Hin) as (dv & Hdv).
  cbn [snd] in Hdv. rewrite Hdv in Ho. simpl in Ho. subst dv.
  destruct (backingDevice_wellformed o dev Hdv) as (Hne & Hall).
  assert (Hname : name ∈ fst <$> l).
  { apply list_elem_of_fmap. exists (name, o). split; [reflexivity|exact Hin]. }
  split.
  { destruct (decide (TrimSpace out = "No devices found")) as [Hsent|Hsent].
    - rewrite (H1 Hsent) in Hin. inversion Hin.
    - rewrite (H2 Hsent) in Hname.
      apply (mappingNames_nonempty out). exact Hname. }
  split; [exact Hne|]. split; [exact Hall|].
  exists o. split; [|exact Hdv].
  rewrite He. right. apply list_elem_of_fmap.
  exists (name, o). split; [reflexivity|exact Hin].
Qed.

(** X13. The later query wins: when ScanLUKSMappings returns a table and
    its run made a successful query of [name] showing the device [dev],
    after which no query of the run showed [dev] again, the table maps
    [dev] to [name]. Every device shown by a query is thus a key of the
    table, and of two mappings on one device the one listed later is
    kept. *)
Theorem Scan_later_query_wins (w w' : World) (m : gmap string string)
    (before after : list Event) (name out dev : string) :
  ScanLUKSMappings w = Ret m w' ->
  emitted ScanLUKSMappings w
  = before ++ EvRun scanCommand (statusArgv name) out true :: after ->
  backingDevice out = Some dev ->
  (forall name2 out2,
     EvRun scanCommand (statusArgv name2) out2 true ∈ after ->
     backingDevice out2 <> Some dev) ->
  m !! dev = Some name.
Proof.
  intros Hret Hev Hd Hafter.
  destruct (Scan_run w)
    as [(lsout & l & m0 & w0 & Hs & He & Hm & -> & _)
       |[(w0 & pre & c & argv & o & Hs & _)
        |(w0 & pre & nm & o & Hs & _)]];
    rewrite Hs in Hret; try discriminate Hret.
  injection Hret as <- <-.
  rewrite He in Hev.
  destruct before as [|e before]; [discriminate Hev|].
  injection Hev as _ Hev.
  apply fmap_app_inv in Hev.
  destruct Hev as (l1 & l2' & Hb & Hrest & ->).
  destruct l2' as [|q l2]; [discriminate Hrest|].
  destruct q as [qn qo]. rewrite fmap_cons in Hrest.
  injection Hrest as Hq1 Hq2 Hl2. cbn [snd] in Hq2. subst qn qo after.
  apply Forall_app in Hm. destruct Hm as [_ Hm].
  apply Forall_cons in Hm. destruct Hm as [_ Hm].
  apply recorded_last; [exact Hd| |exact Hm].
  rewrite Forall_forall. intros [n2 o2] Hin. cbn [snd].
  apply (Hafter n2 o2).
  apply list_elem_of_fmap. exists (n2, o2). split; [reflexivity|exact Hin].
Qed.

End Scan_further.

Section Scan_check.
Context `{P : Platform}.

(** X14. Scan, then check: for a drive that believes no mapping, handing
    the table of a scan to CheckLUKS leaves the drive alone when the table
    has no entry for its device path, and otherwise adopts the mapper path
    of the entry, logs the discovery and clears StartedOutEmpty; an entry
    of a scan's table never counts as "no mapping". *)
Theorem scanThenCheck_unmapped (d : Drive) (w w1 : World)
    (m : gmap string string) :
  ScanLUKSMappings w = Ret m w1 ->
  MappedDevicePath d = "" ->
  scanThenCheck d w
  = match m !! DevicePath d with
    | None => Ret d w1
    | Some name =>
        Ret (set_StartedOutEmpty false
               (set_MappedDevicePath ("/dev/mapper/" +:+ name) d))
            (emit (EvLog LogInfo "discovered %s to be mapped to %s already"
                     [AStr (DevicePath d);
                      AStr ("/dev/mapper/" +:+ name)]) w1)
    end.
Proof.
  intros Hs Hm. unfold scanThenCheck. rewrite (bind_Ret _ _ _ _ _ Hs).
  pose proof (Scan_index w w1 m (DevicePath d) Hs) as Hi.
  unfold CheckLUKS.
  destruct (m !! DevicePath d) as [name|] eqn:Hl.
  - assert (Hn : index m (DevicePath d) <> "").
    { intros H. apply Hi in H. discriminate H. }
    rewrite decide_False by exact Hn.
    rewrite decide_True by exact Hm.
    unfold index. rewrite Hl. reflexivity.
  - assert (Hn : index m (DevicePath d) = "") by (apply Hi; reflexivity).
    rewrite decide_True by exact Hn.
    rewrite decide_False by (intros H; apply H; exact Hm). reflexivity.
Qed.

End Scan_check.

Lemma getBackingDevicePath_result_witness :
  let P := twoMappings in
  exists w',
    getBackingDevicePath "swift1" (world0 P tt) = Ret "/dev/sdb" w' /\
    "/dev/sdb" <> "" /\ allChars notSpace "/dev/sdb" = true.
Proof.
  intros P.
  destruct (getBackingDevicePath "swift1" (world0 P tt)) as [p w'|e w'] eqn:Hg;
    [|vm_compute in Hg; discriminate Hg].
  assert (Hp : p = "/dev/sdb").
  { vm_compute in Hg. injection Hg as <- _. reflexivity. }
  subst p. exists w'. split; [reflexivity|].
  destruct (getBackingDevicePath_result (P := P) "swift1" "/dev/sdb"
              (world0 P tt) w' Hg) as (H1 & H2 & _).
  split; assumption.
Defined.

Lemma getBackingDevicePath_device_line_witness :
  let P := twoMappings in
  exists p w', getBackingDevicePath "swift1" (world0 P tt) = Ret p w'.
Proof.
  intros P.
  apply (getBackingDevicePath_device_line (P := P) "swift1" (world0 P tt)
           ("/dev/mapper/swift1 is active." +:+ LF +:+
            "  type:    LUKS1" +:+ LF)
           "  " "  " "/dev/sdb" LF tt);
    [reflexivity | reflexivity | reflexivity | reflexivity
    | discriminate | reflexivity | reflexivity].
Defined.

Lemma Scan_no_names_witness :
  let P := emptyListing in
  ScanLUKSMappings (world0 P tt)
  = Ret ∅ (worldAt P [EvRun scanCommand lsArgv "" true] tt).
Proof.
  intros P.
  exact (Scan_no_names (P := P) (world0 P tt) "" tt eq_refl eq_refl).
Defined.

Lemma Scan_table_sound_witness :
  let P := twoMappings in
  exists (m : gmap string string) (w' : World),
    ScanLUKSMappings (world0 P tt) = Ret m w' /\
    m !! "/dev/sdb" = Some "swift1" /\
    exists out,
      EvRun scanCommand (statusArgv "swift1") out true
        ∈ emitted ScanLUKSMappings (world0 P tt) /\
      backingDevice out = Some "/dev/sdb".
Proof.
  intros P.
  destruct (ScanLUKSMappings (world0 P tt)) as [m w'|e w'] eqn:Hs;
    [|vm_compute in Hs; discriminate Hs].
  assert (Hl : m !! "/dev/sdb" = Some "swift1").
  { vm_compute in Hs. injection Hs as <- _. reflexivity. }
  exists m, w'. split; [reflexivity|]. split; [exact Hl|].
  destruct (Scan_table_sound (P := P) (world0 P tt) w' m "/dev/sdb" "swift1"
              Hs Hl) as (_ & _ & _ & H).
  exact H.
Defined.

Lemma Scan_later_query_wins_witness :
  let P := sameDevice in
  exists (m : gmap string string) (w' : World),
    ScanLUKSMappings (world0 P tt) = Ret m w' /\
    m !! "/dev/sdb" = Some "swift2".
Proof.
  intros P.
  destruct (ScanLUKSMappings (world0 P tt)) as [m w'|e w'] eqn:Hs;
    [|vm_compute in Hs; discriminate Hs].
  exists m, w'. split; [reflexivity|].
  apply (Scan_later_query_wins (P := P) (world0 P tt) w' m
           [EvRun scanCommand lsArgv
              ("swift1 (253, 0)" +:+ LF +:+ "swift2 (253, 1)" +:+ LF) true;
            EvRun scanCommand (statusArgv "swift1")
              ("  device:  /dev/sdb" +:+ LF) true]
           [] "swift2" ("  device:  /dev/sdb" +:+ LF) "/dev/sdb" Hs).
  - reflexivity.
  - reflexivity.
  - intros name2 out2 Hin. inversion Hin.
Defined.

Lemma scanThenCheck_unmapped_witness :
  let P := twoMappings in
  exists (m : gmap string string) (w1 : World),
    ScanLUKSMappings (world0 P tt) = Ret m w1 /\
    scanThenCheck sdb (world0 P tt)
    = match m !! "/dev/sdb" with
      | None => Ret sdb w1
      | Some name =>
          Ret (set_StartedOutEmpty false
                 (set_MappedDevicePath ("/dev/mapper/" +:+ name) sdb))
              (emit (EvLog LogInfo "discovered %s to be mapped to %s already"
                       [AStr "/dev/sdb";
                        AStr ("/dev/mapper/" +:+ name)]) w1)
      end.
Proof.
  intros P.
  destruct (ScanLUKSMappings (world0 P tt)) as [m w1|e w1] eqn:Hs;
    [|vm_compute in Hs; discriminate Hs].
  exists m, w1. split; [reflexivity|].
  exact (scanThenCheck_unmapped (P := P) sdb (world0 P tt) w1 m Hs eq_refl).
Defined.

Section Startup_properties.
Context `{U : Startup}.

Lemma step_run {A B : Type} (fn : string) (args : list string)
    (failed : A -> bool) (f : OS -> A * OS) (k : A -> M B) (w : World)
    (a : A) (o' : OS) :
  f (os w) = (a, o') ->
  bind (call fn args failed f) k w
  = k a {| trace := trace w ++ [EvCall fn args (failed a)]; os := o' |}.
Proof. intros H. apply bind_Ret. apply call_run. exact H. Qed.

Lemma step_at {A B : Type} (fn : string) (args : list string)
    (failed : A -> bool) (f : OS -> A * OS) (k : A -> M B)
    (t : list Event) (o : OS) (a : A) (o' : OS) :
  f o = (a, o') ->
  bind (call fn args failed f) k {| trace := t; os := o |}
  = k a {| trace := t ++ [EvCall fn args (failed a)]; os := o' |}.
Proof.
  intros H.
  exact (step_run fn args failed f k {| trace := t; os := o |} a o' H).
Qed.

Lemma fatalIf_Some {B : Type} (msg format : string)
    (args : string -> list Arg) (k : unit -> M B) (w : World) :
  bind (fatalIf (Some msg) format args) k w
  = Stop ExitFatal (emit (EvLog LogFatal format (args msg)) w).
Proof. reflexivity. Qed.

Lemma fatalIf_None {B : Type} (format : string)
    (args : string -> list Arg) (k : unit -> M B) (w : World) :
  bind (fatalIf None format args) k w = k tt w.
Proof. reflexivity. Qed.

(** X15. Called with anything but one argument, [main] writes the usage
    line with the program's name to the standard error stream and exits
    with status 1: no file is read, nothing is logged and nothing is
    mounted. *)
Theorem main_usage (Args : list string) (arg0 : string) (w : World) :
  length Args <> 2%nat ->
  Args !! 0%nat = Some arg0 ->
  main Args w
  = Stop (ExitStatus 1)
      {| trace := trace w
                  ++ [EvCall "fmt.Fprintf"
                        ["os.Stderr"; "Usage: %s <config-file>" +:+ LF; arg0]
                        false];
         os := os w |}.
Proof.
  intros Hlen H0. unfold main.
  rewrite decide_True by exact Hlen. rewrite H0.
  reflexivity.
Qed.

(** X16. Called with one argument, [main] reads the file, parses it,
    changes to the chroot directory (or to the root), lists the drives and
    the mount points, in this order. The first of these steps to return an
    error ends the process with its own Fatal line, the later steps and the
    mount pass never being run; when none does, [main] goes on with the
    mount pass on the drives and the mount points that the last two steps
    returned. *)
Theorem main_setup (arg0 filename : string) (w : World) :
  let m := main [arg0; filename] in
  let r1 := readFile filename (os w) in
  let Config := fst (fst (unmarshal (fst (fst r1)) (snd r1))) in
  let steps := setupSteps filename (workingDir Config) in
  (exists (drivePaths : list string) (allMounts : MountPoints) (o3 o4 : OS)
          (w5 : World),
      listDrives Config o3 = ((drivePaths, None), o4) /\
      scanMountPoints o4 = ((allMounts, None), os w5) /\
      trace w5 = trace w ++ okCalls steps /\
      m w = mountPass drivePaths allMounts w5)
  \/
  (exists (k : nat) (fn : string) (args : list string) (format : string)
          (logargs : string -> list Arg) (msg : string) (w' : World),
      steps !! k = Some (fn, args, format, logargs) /\
      m w = Stop ExitFatal w' /\
      emitted m w
      = okCalls (take k steps)
        ++ [EvCall fn args true; EvLog LogFatal format (logargs msg)]).
Proof.
  intros m r1 Config steps. subst m.
  assert (Hm : main [arg0; filename] w
               = (let* r := ReadFile filename in
                  fatalIf (snd r) "read configuration file: %s"
                    (fun msg => [AStr msg]) ;;
                  let* r := Unmarshal (fst r) in
                  fatalIf (snd r) "parse configuration: %s"
                    (fun msg => [AStr msg]) ;;
                  let Config := fst r in
                  let workingDir :=
                    if decide (ChrootPath Config <> "") then ChrootPath Config
                    else "/" in
                  let* err := Chdir workingDir in
                  fatalIf err "chdir to %s: %s"
                    (fun msg => [AStr workingDir; AStr msg]) ;;
                  let* r := ListDrives Config in
                  fatalIf (snd r) "list drives: %s" (fun msg => [AStr msg]) ;;
                  let drivePaths := fst r in
                  let* r := ScanMountPoints in
                  fatalIf (snd r) "list mount points: %s"
                    (fun msg => [AStr msg]) ;;
                  mountPass drivePaths (fst r))%go w).
  { unfold main. cbn [length lookup list_lookup].
    rewrite decide_False by (intros H; apply H; reflexivity).
    reflexivity. }
  subst steps Config r1.
  destruct (readFile filename (os w)) as [[bytes e1] o1] eqn:H1.
  unfold ReadFile in Hm. rewrite (step_run _ _ (fun r => not_nil (snd r)) _ _ _ _ _ H1) in Hm.
  cbn [fst snd] in Hm |- *.
  destruct e1 as [msg|].
  { right. rewrite fatalIf_Some in Hm.
    exists 0%nat, "ioutil.ReadFile", [filename],
      "read configuration file: %s", (fun msg => [AStr msg]), msg.
    eexists. split; [reflexivity|]. split; [exact Hm|].
    eapply emitted_Stop; [exact Hm|].
    cbn. rewrite <- ?app_assoc. reflexivity. }
  rewrite fatalIf_None in Hm.
  destruct (unmarshal bytes o1) as [[Config e2] o2] eqn:H2.
  unfold Unmarshal in Hm.
  rewrite (step_at _ _ (fun r => not_nil (snd r)) _ _ _ _ _ _ H2) in Hm.
  cbn [fst snd] in Hm |- *.
  destruct e2 as [msg|].
  { right. rewrite fatalIf_Some in Hm.
    exists 1%nat, "yaml.Unmarshal", [],
      "parse configuration: %s", (fun msg => [AStr msg]), msg.
    eexists. split; [reflexivity|]. split; [exact Hm|].
    eapply emitted_Stop; [exact Hm|].
    cbn. rewrite <- ?app_assoc. reflexivity. }
  rewrite fatalIf_None in Hm.
  cbv zeta in Hm. fold (workingDir Config) in Hm.
  destruct (chdir (workingDir Config) o2) as [e3 o3] eqn:H3.
  unfold Chdir in Hm.
  rewrite (step_at _ _ not_nil _ _ _ _ _ _ H3) in Hm.
  destruct e3 as [msg|].
  { right. rewrite fatalIf_Some in Hm.
    exists 2%nat, "os.Chdir", [workingDir Config],
      "chdir to %s: %s",
      (fun msg => [AStr (workingDir Config); AStr msg]), msg.
    eexists. split; [reflexivity|]. split; [exact Hm|].
    eapply emitted_Stop; [exact Hm|].
    cbn. rewrite <- ?app_assoc. reflexivity. }
  rewrite fatalIf_None in Hm.
  destruct (listDrives Config o3) as [[drives e4] o4] eqn:H4.
  unfold ListDrives in Hm.
  rewrite (step_at _ _ (fun r => not_nil (snd r)) _ _ _ _ _ _ H4) in Hm.
  cbn [fst snd] in Hm.
  destruct e4 as [msg|].
  { right. rewrite fatalIf_Some in Hm.
    exists 3%nat, "ListDrives", [],
      "list drives: %s", (fun msg => [AStr msg]), msg.
    eexists. split; [reflexivity|]. split; [exact Hm|].
    eapply emitted_Stop; [exact Hm|].
    cbn. rewrite <- ?app_assoc. reflexivity. }
  rewrite fatalIf_None in Hm.
  destruct (scanMountPoints o4) as [[mounts e5] o5] eqn:H5.
  unfold ScanMountPoints in Hm.
  rewrite (step_at _ _ (fun r => not_nil (snd r)) _ _ _ _ _ _ H5) in Hm.
  cbn [fst snd] in Hm.
  destruct e5 as [msg|].
  { right. rewrite fatalIf_Some in Hm.
    exists 4%nat, "ScanMountPoints", [],
      "list mount points: %s", (fun msg => [AStr msg]), msg.
    eexists. split; [reflexivity|]. split; [exact Hm|].
    eapply emitted_Stop; [exact Hm|].
    cbn. rewrite <- ?app_assoc. reflexivity. }
  rewrite fatalIf_None in Hm.
  left. exists drives, mounts, o3, o4.
  match type of Hm with _ = mountPass _ _ ?w5 => exists w5 end.
  split; [exact H4|]. split; [exact H5|]. split; [|exact Hm].
  cbn. rewrite <- ?app_assoc. reflexivity.
Qed.

End Startup_properties.

Lemma main_usage_witness :
  let P := failingMachine in
  let S := fixedStages P [] [] in
  let U := fixedStartup P S chrootConfig None ["dev/sdb"] in
  main (U := U) ["swift-storage-boot"] (world0 P tt)
  = Stop (ExitStatus 1)
      (worldAt P
         [EvCall "fmt.Fprintf"
            ["os.Stderr"; "Usage: %s <config-file>" +:+ LF;
             "swift-storage-boot"] false] tt).
Proof.
  intros P S U.
  apply (main_usage (U := U) ["swift-storage-boot"] "swift-storage-boot"
           (world0 P tt)).
  - simpl. lia.
  - reflexivity.
Defined.

Lemma LUKS_operations_return_witness :
  let P := luksMachine "s3cret" in
  stopped (OpenLUKS twoKeys sdb (world0 P tt)) = false /\
  stopped (FormatLUKSIfRequired twoKeys sdb (world0 P tt)) = false.
Proof.
  intros P.
  destruct (LUKS_operations_return (P := P) twoKeys ∅ sdb (world0 P tt))
    as (H1 & _ & _ & H4 & _).
  split; [exact H1|]. apply H4. discriminate.
Defined.
